(** * Protected-range substitution engine of renamer-opencode-plugin

    A shallow embedding of [src/helpers.ts] and of the two revisions of
    [src/index.ts], followed by the properties of the specification that
    were checked against them.

    Conventions of the embedding.
    - A JavaScript string is a [text]: the list of its code units.  Code
      units are [ascii] characters, that is, the code units below 256;
      the case maps are JavaScript's [toUpperCase]/[toLowerCase] on them
      (the ASCII letters and the letters from 192 on), but for the upper
      case of the two code units that has no code unit below 256.
    - Offsets are [Z] (ranges may carry negative offsets before they are
      clamped); positions inside a scan are [nat].
    - A thrown exception is [None].
    - A regular expression object is modelled by what it matches at a
      position: the literal alternations the repository builds are
      [RegExp] records, the two fixed protection patterns are matching
      functions. *)

From Stdlib Require Import List Ascii ZArith Lia Bool Arith.
From Stdlib Require Strings.String.
Import ListNotations.
Import String.StringSyntax.
Delimit Scope string_scope with string.
Local Open Scope list_scope.
Local Open Scope char_scope.

(* ================================================================== *)
(** * Part I: JavaScript strings *)
(* ================================================================== *)

Definition text := list ascii.

(** A string literal of the source. *)
Definition lit (s : String.string) : text := String.list_ascii_of_string s.
Arguments lit s%_string.

Definition code (c : ascii) : nat := nat_of_ascii c.

Definition inRange (lo hi : nat) (c : ascii) : bool :=
  (lo <=? code c)%nat && (code c <=? hi)%nat.

Definition isLowerAlpha (c : ascii) : bool := inRange 97 122 c.
Definition isUpperAlpha (c : ascii) : bool := inRange 65 90 c.
Definition isAlpha (c : ascii) : bool := isLowerAlpha c || isUpperAlpha c.
Definition isDigit (c : ascii) : bool := inRange 48 57 c.

(** The letters above the ASCII ones: 192 to 222 without the
    multiplication sign (215) are capitals, 224 to 254 without the
    division sign (247) are their small letters, 32 further on. *)
Definition isLatinUpper (c : ascii) : bool :=
  inRange 192 222 c && negb (code c =? 215)%nat.
Definition isLatinLower (c : ascii) : bool :=
  inRange 224 254 c && negb (code c =? 247)%nat.

(** The upper case of a code unit where it is one code unit below 256,
    and the code unit itself elsewhere: at the sharp s (223), whose upper
    case is two code units, and at the micro sign (181) and the y with
    diaeresis (255), whose upper cases lie above 255. *)
Definition toUpperCaseChar (c : ascii) : ascii :=
  if isLowerAlpha c || isLatinLower c then ascii_of_nat (code c - 32) else c.

(** The lower case of a code unit, which is a code unit below 256 for
    every code unit below 256. *)
Definition toLowerCaseChar (c : ascii) : ascii :=
  if isUpperAlpha c || isLatinUpper c then ascii_of_nat (code c + 32) else c.

(** What [String.prototype.toUpperCase] makes of one code unit: the
    sharp s becomes SS. *)
Definition upperCaseOf (c : ascii) : text :=
  if (code c =? 223)%nat then lit "SS" else [toUpperCaseChar c].

(** [String.prototype.toUpperCase] and [toLowerCase].  The upper case of
    the code units 181 and 255 is no code unit of the embedding: they
    are left as they are, and nothing below is stated about the upper
    case of a text that holds one of them. *)
Definition toUpperCase (t : text) : text := flat_map upperCaseOf t.
Definition toLowerCase (t : text) : text := map toLowerCaseChar t.

Definition text_eqb (a b : text) : bool :=
  if list_eq_dec ascii_dec a b then true else false.

(** [String.prototype.slice(a, b)]: a negative index counts from the end,
    both indices are clamped to the string, and an empty span gives the
    empty string. *)
Definition relIndex (len i : Z) : Z :=
  if (i <? 0)%Z then Z.max (len + i) 0 else Z.min i len.

Definition slice (t : text) (a b : Z) : text :=
  let len := Z.of_nat (length t) in
  let from := relIndex len a in
  let to := relIndex len b in
  firstn (Z.to_nat (to - from)) (skipn (Z.to_nat from) t).

(** [text.slice(a)]: up to the end of the string. *)
Definition sliceFrom (t : text) (a : Z) : text :=
  slice t a (Z.of_nat (length t)).

(** [Array.prototype.join(sep)] on an array of strings. *)
Fixpoint join (sep : text) (parts : list text) : text :=
  match parts with
  | [] => []
  | [p] => p
  | p :: rest => p ++ sep ++ join sep rest
  end.

(** [Array.prototype.map((x, index) => ...)]. *)
Fixpoint mapiFrom {A B : Type} (f : A -> nat -> B) (i : nat) (l : list A)
  : list B :=
  match l with
  | [] => []
  | x :: l' => f x i :: mapiFrom f (S i) l'
  end.

Definition mapi {A B : Type} (f : A -> nat -> B) (l : list A) : list B :=
  mapiFrom f 0 l.

(** [p] is a prefix of [t]. *)
Fixpoint isPrefix (p t : text) : bool :=
  match p, t with
  | [], _ => true
  | a :: p', b :: t' => Ascii.eqb a b && isPrefix p' t'
  | _ :: _, [] => false
  end.

(** [String.prototype.split(sep)] for a non-empty separator (the source
    splits on one and on three backticks): the occurrences of [sep] are
    found from left to right without overlap.  [skip] counts the code
    units of the separator found last that are still to be passed over,
    [cur] is the piece being collected. *)
Fixpoint splitLoop (sep : text) (skip : nat) (cur : text) (t : text)
  : list text :=
  match t with
  | [] => [cur]
  | c :: t' =>
      match skip with
      | S k => splitLoop sep k cur t'
      | O =>
          if isPrefix sep t
          then cur :: splitLoop sep (length sep - 1) [] t'
          else splitLoop sep 0 (cur ++ [c]) t'
      end
  end.

Definition split (sep : text) (t : text) : list text := splitLoop sep 0 [] t.

(* ================================================================== *)
(** * Part II: regular expressions *)
(* ================================================================== *)

(** The regular expressions the repository creates for the target word
    are alternations of literals with the [g] flag: [/opencode/gi] and
    what [buildVariantRegex] compiles.  The alternatives are tried in
    order; nothing follows the alternation, so the first alternative that
    matches at a position is the match there. *)
Record RegExp := mkRegExp {
  alternatives : list text;
  ignoreCase : bool
}.

(** Canonicalize of the [i] flag without the [u] flag: the upper case
    of the code unit when that is a single code unit, the code unit
    itself otherwise.  The canonical forms of 181 and 255 lie above 255
    and are the canonical form of no other code unit below 256, so that
    comparing canonical forms, which is all the matching does, gives
    the same with these two left as they are. *)
Definition canonicalize (ic : bool) (c : ascii) : ascii :=
  if ic then toUpperCaseChar c else c.

Fixpoint litPrefix (ic : bool) (p t : text) : bool :=
  match p, t with
  | [], _ => true
  | a :: p', b :: t' =>
      Ascii.eqb (canonicalize ic a) (canonicalize ic b) && litPrefix ic p' t'
  | _ :: _, [] => false
  end.

Fixpoint firstAlternative (ic : bool) (alts : list text) (t : text)
  : option nat :=
  match alts with
  | [] => None
  | a :: rest =>
      if litPrefix ic a t then Some (length a)
      else firstAlternative ic rest t
  end.

(** The length of the match that starts at the head of [t], if any. *)
Definition matchAt (re : RegExp) (t : text) : option nat :=
  firstAlternative (ignoreCase re) (alternatives re) t.

(** GetSubstitution for a pattern without capture groups: [$$] is a
    dollar, [$&] the matched text, [$`] the text before the match, [$']
    the text after it; any other dollar stands for itself. *)
Fixpoint getSubstitution (matched before after : text) (template : text)
  : text :=
  match template with
  | [] => []
  | "$" :: rest =>
      match rest with
      | "$" :: rest' => "$" :: getSubstitution matched before after rest'
      | "&" :: rest' => matched ++ getSubstitution matched before after rest'
      | "`" :: rest' => before ++ getSubstitution matched before after rest'
      | "'" :: rest' => after ++ getSubstitution matched before after rest'
      | _ => "$" :: getSubstitution matched before after rest
      end
  | c :: rest => c :: getSubstitution matched before after rest
  end.

(** [text.replace(re, replacement)] for a global [re]: the scan starts at
    index 0 whatever [lastIndex] was, every match is replaced by its
    substitution, and after an empty match the scan moves on by one code
    unit.  [skip] counts the code units of the last match still to be
    passed over; [before] holds, reversed, the code units already passed. *)
Fixpoint replaceLoop (re : RegExp) (replacement : text) (skip : nat)
  (before : text) (t : text) : text :=
  match skip with
  | S k =>
      match t with
      | [] => []
      | c :: t' => replaceLoop re replacement k (c :: before) t'
      end
  | O =>
      match matchAt re t with
      | Some len =>
          getSubstitution (firstn len t) (rev before) (skipn len t) replacement
          ++ match t with
             | [] => []
             | c :: t' =>
                 if (len =? 0)%nat
                 then c :: replaceLoop re replacement 0 (c :: before) t'
                 else replaceLoop re replacement (len - 1) (c :: before) t'
             end
      | None =>
          match t with
          | [] => []
          | c :: t' => c :: replaceLoop re replacement 0 (c :: before) t'
          end
      end
  end.

Definition str_replace (t : text) (re : RegExp) (replacement : text) : text :=
  replaceLoop re replacement 0 [] t.

(** RegExpBuiltinExec from index [pos] on: the first match at or after
    the head of [t], as (index, length). *)
Fixpoint execFrom (re : RegExp) (pos : nat) (t : text) : option (nat * nat) :=
  match matchAt re t with
  | Some len => Some (pos, len)
  | None =>
      match t with
      | [] => None
      | _ :: t' => execFrom re (S pos) t'
      end
  end.

(** [re.test(t)] for a global [re] whose [lastIndex] is [lastIndex]: the
    answer and the new [lastIndex] (the end of the match, or 0 when there
    is none). *)
Definition regexTest (re : RegExp) (t : text) (lastIndex : nat) : bool * nat :=
  if (length t <? lastIndex)%nat then (false, 0%nat)
  else match execFrom re lastIndex (skipn lastIndex t) with
       | Some (p, len) => (true, (p + len)%nat)
       | None => (false, 0%nat)
       end.

(* ================================================================== *)
(** * Part III: [src/helpers.ts] *)
(* ================================================================== *)

(** ** Variant generator *)

(** [splitIntoWords]: only the target word is split. *)
Definition splitIntoWords (target : text) : list text :=
  if text_eqb (toLowerCase target) (lit "opencode")
  then [lit "open"; lit "code"]
  else [target].

(** [capitalize] of [generateCaseVariants]: [w[0]] of the empty string is
    [undefined], and [undefined.toUpperCase()] throws a TypeError. *)
Definition capitalize (w : text) : option text :=
  match w with
  | [] => None
  | c :: rest => Some (toUpperCase [c] ++ toLowerCase rest)
  end.

(** [words.map(capitalize)], which throws as soon as one call does. *)
Fixpoint mapCapitalize (words : list text) : option (list text) :=
  match words with
  | [] => Some []
  | w :: rest =>
      match capitalize w with
      | None => None
      | Some c =>
          match mapCapitalize rest with
          | None => None
          | Some cs => Some (c :: cs)
          end
      end
  end.

(** [lower[0] + s]: [lower[0]] of an empty array is [undefined], which
    the concatenation turns into the string "undefined". *)
Definition firstOrUndefined (lower : list text) : text :=
  match lower with
  | [] => lit "undefined"
  | l0 :: _ => l0
  end.

Definition generateCaseVariants (words : list text) : option (list text) :=
  let lower := map toLowerCase words in
  let upper := map toUpperCase words in
  match mapCapitalize (tl words) with
  | None => None
  | Some capsTail =>
      match mapCapitalize words with
      | None => None
      | Some caps =>
          Some [ firstOrUndefined lower ++ join [] capsTail;
                 join [] caps;
                 join (lit "-") lower;
                 join (lit "_") lower;
                 join (lit "_") upper;
                 join (lit "-") upper;
                 join (lit ".") lower ]
      end
  end.

(** The class of [/[.*+?^${}()|[\]\\]/g]: fourteen one-character
    alternatives. *)
Definition metaChars : text := lit ".*+?^${}()|[]\".

Definition ESCAPE_REGEX : RegExp :=
  mkRegExp (map (fun c => [c]) metaChars) false.

(** [v.replace(/[.*+?^${}()|[\]\\]/g, "\\$&")]. *)
Definition escapeVariant (v : text) : text :=
  str_replace v ESCAPE_REGEX (lit "\$&").

Definition isMetaChar (c : ascii) : bool :=
  existsb (Ascii.eqb c) metaChars.

(** [new RegExp(source, "g")] on the fragment the escaping produces: a
    top-level alternation of literals in which every metacharacter is
    escaped.  [None] stands for a source outside this fragment (a
    SyntaxError or a pattern that is not a literal alternation). *)
Fixpoint parseAlternation (cur : text) (source : text) : option (list text) :=
  match source with
  | [] => Some [cur]
  | "\" :: rest =>
      match rest with
      | c :: rest' =>
          if isMetaChar c then parseAlternation (cur ++ [c]) rest' else None
      | [] => None
      end
  | "|" :: rest =>
      match parseAlternation [] rest with
      | Some alts => Some (cur :: alts)
      | None => None
      end
  | c :: rest =>
      if isMetaChar c then None else parseAlternation (cur ++ [c]) rest
  end.

Definition newRegExp (source : text) : option RegExp :=
  match parseAlternation [] source with
  | Some alts => Some (mkRegExp alts false)
  | None => None
  end.

Definition buildVariantRegex (variants : list text) : option RegExp :=
  let escaped := map escapeVariant variants in
  newRegExp (join (lit "|") escaped).

(** ** The fixed patterns *)

(** [/opencode/gi] *)
Definition OPENCODE_REGEX : RegExp := mkRegExp [lit "opencode"] true.

(** [\s] on the code units modelled. *)
Definition isSpace (c : ascii) : bool :=
  inRange 9 13 c || (code c =? 32)%nat || (code c =? 160)%nat.

(** [\w], which decides [\b]. *)
Definition isWordChar (c : ascii) : bool :=
  isAlpha c || isDigit c || Ascii.eqb c "_".

(** The class that continues a URL or a path: any code unit except
    white space, a backtick, a double quote, a single quote, a closing
    parenthesis and a closing square bracket. *)
Definition nonTerminator (c : ascii) : bool :=
  negb (isSpace c || Ascii.eqb c "`" || (code c =? 34)%nat
        || Ascii.eqb c "'" || Ascii.eqb c ")" || Ascii.eqb c "]").

(** The length of the longest run of [p] at the head of [t]. *)
Fixpoint runLength (p : ascii -> bool) (t : text) : nat :=
  match t with
  | [] => 0
  | c :: t' => if p c then S (runLength p t') else 0
  end.

(** What is left of [t] after the literal [p], compared as the [i] flag
    says. *)
Fixpoint stripPrefix (ic : bool) (p t : text) : option text :=
  match p, t with
  | [], _ => Some t
  | a :: p', b :: t' =>
      if Ascii.eqb (canonicalize ic a) (canonicalize ic b)
      then stripPrefix ic p' t' else None
  | _ :: _, [] => None
  end.

(** One or more non-terminators after [consumed] code units, at the end
    of a pattern: the whole run, which must not be empty. *)
Definition tailRun (consumed : nat) (t : text) : option nat :=
  let n := runLength nonTerminator t in
  if (n =? 0)%nat then None else Some (consumed + n)%nat.

(** [p] then the run. *)
Definition literalThenRun (ic : bool) (consumed : nat) (p t : text)
  : option nat :=
  match stripPrefix ic p t with
  | Some t' => tailRun (consumed + length p) t'
  | None => None
  end.

(** [x?] followed by [k]: first with [x], then, if that fails, without. *)
Definition optionalChar (ic : bool) (x : ascii) (consumed : nat) (t : text)
  (k : nat -> text -> option nat) : option nat :=
  let without := k consumed t in
  match t with
  | c :: t' =>
      if Ascii.eqb (canonicalize ic x) (canonicalize ic c)
      then match k (S consumed) t' with
           | Some n => Some n
           | None => without
           end
      else without
  | [] => without
  end.

(** [URL_REGEX], case-insensitive: http, an optional s, a colon and two
    slashes, then one or more non-terminators, at the head of [t]; the
    code unit before the position plays no part. *)
Definition urlMatchAt (prev : option ascii) (t : text) : option nat :=
  match stripPrefix true (lit "http") t with
  | None => None
  | Some t1 =>
      optionalChar true "s" 4 t1
        (fun consumed t2 => literalThenRun true consumed (lit "://") t2)
  end.

(** [\b] before a position whose code unit is a word character: the code
    unit before it, if any, is not one. *)
Definition wordBoundaryBefore (prev : option ascii) : bool :=
  match prev with
  | None => true
  | Some p => negb (isWordChar p)
  end.

(** First alternative of [PATH_REGEX]: a word boundary, a letter, a
    colon, a backslash, then one or more non-terminators. *)
Definition drivePathAt (prev : option ascii) (t : text) : option nat :=
  match t with
  | c :: t' =>
      if wordBoundaryBefore prev && isAlpha c
      then literalThenRun false 1 (lit ":\") t'
      else None
  | [] => None
  end.

(** Second alternative: a tilde and a slash, then one or more
    non-terminators. *)
Definition homePathAt (t : text) : option nat :=
  literalThenRun false 0 (lit "~/") t.

(** Third alternative: a dot, an optional second dot and a slash, then
    one or more non-terminators. *)
Definition relativePathAt (t : text) : option nat :=
  match t with
  | "." :: t' =>
      optionalChar false "." 1 t'
        (fun consumed t2 => literalThenRun false consumed (lit "/") t2)
  | _ => None
  end.

Definition orElse {A : Type} (a b : option A) : option A :=
  match a with
  | Some x => Some x
  | None => b
  end.

(** [PATH_REGEX] of [helpers.ts]: the three alternatives in order. *)
Definition pathMatchAt (prev : option ascii) (t : text) : option nat :=
  orElse (drivePathAt prev t) (orElse (homePathAt t) (relativePathAt t)).

(** [text.matchAll(re)] for a global pattern given by its matching
    function: the matches from left to right without overlap, each as the
    range [[index, index + length]] the source pushes.  [pos] is the index
    of the head of [t], [prev] the code unit before it. *)
Fixpoint matchAllLoop (matcher : option ascii -> text -> option nat)
  (pos : nat) (skip : nat) (prev : option ascii) (t : text)
  : list (Z * Z) :=
  match t with
  | [] => []
  | c :: t' =>
      match skip with
      | S k => matchAllLoop matcher (S pos) k (Some c) t'
      | O =>
          match matcher prev t with
          | Some len =>
              (Z.of_nat pos, Z.of_nat pos + Z.of_nat len)%Z
              :: matchAllLoop matcher (S pos) (len - 1) (Some c) t'
          | None => matchAllLoop matcher (S pos) 0 (Some c) t'
          end
      end
  end.

Definition matchAll (matcher : option ascii -> text -> option nat) (t : text)
  : list (Z * Z) :=
  matchAllLoop matcher 0 0 None t.

(** ** Interval merger *)

Definition range := (Z * Z)%type.

(** [Array.prototype.sort((a, b) => a[0] - b[0])]: the sort is stable, so
    its result is the one of inserting each entry, from the last to the
    first, before the entries that do not start earlier. *)
Fixpoint insertByStart (r : range) (sorted : list range) : list range :=
  match sorted with
  | [] => [r]
  | x :: rest =>
      if (fst r <=? fst x)%Z then r :: sorted
      else x :: insertByStart r rest
  end.

Fixpoint sortByStart (ranges : list range) : list range :=
  match ranges with
  | [] => []
  | r :: rest => insertByStart r (sortByStart rest)
  end.

(** The loop of [mergeRanges]: [last] is the last entry of [merged], the
    entries before it are already final. *)
Fixpoint mergeLoop (last : range) (rest : list range) : list range :=
  match rest with
  | [] => [last]
  | current :: rest' =>
      if (fst current <=? snd last)%Z
      then mergeLoop (fst last, Z.max (snd last) (snd current)) rest'
      else last :: mergeLoop current rest'
  end.

Definition mergeRanges (ranges : list range) : list range :=
  match sortByStart ranges with
  | [] => []
  | first :: rest => mergeLoop first rest
  end.

(** The ranges [replaceOutsideRanges] walks: clamped, filtered, sorted and
    merged (the argument of its [for] loop). *)
Definition clampRange (r : range) : range := (Z.max 0 (fst r), Z.max 0 (snd r)).

Definition nonEmptyRange (r : range) : bool := (snd r >? fst r)%Z.

Definition sanitizeRanges (ranges : list range) : list range :=
  mergeRanges (sortByStart (filter nonEmptyRange (map clampRange ranges))).

(** ** Substitution engine *)

Definition replaceOpencode (t : text) (replacement : text)
  (regex : option RegExp) : text :=
  match t with
  | [] => t
  | _ => str_replace t (match regex with Some re => re | None => OPENCODE_REGEX end)
           replacement
  end.

(** One turn of the [for] loop of [replaceOutsideRanges] on the pair
    (result, cursor). *)
Definition outsideStep (t replacement : text) (regex : option RegExp)
  (state : text * Z) (r : range) : text * Z :=
  let '(result, cursor) := state in
  let '(start, stop) := r in
  let result :=
    if (start >? cursor)%Z
    then result ++ replaceOpencode (slice t cursor start) replacement regex
    else result in
  (result ++ slice t start stop, Z.max cursor stop).

Definition outsideFinish (t replacement : text) (regex : option RegExp)
  (state : text * Z) : text :=
  let '(result, cursor) := state in
  if (cursor <? Z.of_nat (length t))%Z
  then result ++ replaceOpencode (sliceFrom t cursor) replacement regex
  else result.

Definition replaceOutsideRanges (t replacement : text) (ranges : list range)
  (regex : option RegExp) : text :=
  match ranges with
  | [] => replaceOpencode t replacement regex
  | _ =>
      let sorted := sanitizeRanges ranges in
      outsideFinish t replacement regex
        (fold_left (outsideStep t replacement regex) sorted ([], 0%Z))
  end.

(** The ranges [replaceExcludingUrlsAndPaths] collects: the URL matches,
    then the path matches. *)
Definition protectedRanges (t : text) : list range :=
  matchAll urlMatchAt t ++ matchAll pathMatchAt t.

Definition replaceExcludingUrlsAndPaths (t replacement : text)
  (regex : option RegExp) : text :=
  replaceOutsideRanges t replacement (protectedRanges t) regex.

Definition TICK : text := lit "`".
Definition FENCE : text := lit "```".

Definition replaceInInlineCodeSegments (t replacement : text)
  (regex : option RegExp) : text :=
  let segments := split TICK t in
  join TICK
    (mapi (fun segment index =>
             if (index mod 2 =? 1)%nat then segment
             else replaceExcludingUrlsAndPaths segment replacement regex)
          segments).

Definition replaceInText (t replacement : text) (regex : option RegExp)
  : text :=
  match t with
  | [] => t
  | _ =>
      let blocks := split FENCE t in
      join FENCE
        (mapi (fun block index =>
                 if (index mod 2 =? 1)%nat then block
                 else replaceInInlineCodeSegments block replacement regex)
              blocks)
  end.

(** ** Hook configuration *)

Record HooksConfig := mkHooksConfig {
  chatMessage : bool;
  system : bool;
  messageHistory : bool;
  textComplete : bool;
  toolOutput : bool
}.

(** [Partial<HooksConfig>]: a key that is absent is [None]. *)
Record PartialHooks := mkPartialHooks {
  chatMessage_opt : option bool;
  system_opt : option bool;
  messageHistory_opt : option bool;
  textComplete_opt : option bool;
  toolOutput_opt : option bool
}.

Definition DEFAULT_HOOKS_CONFIG : HooksConfig :=
  mkHooksConfig true true true true true.

(** The empty object of [globalHooks ?? {}]. *)
Definition noHooks : PartialHooks := mkPartialHooks None None None None None.

(** One key of a spread [{...base, ...over}]: the later object wins when
    it has the key. *)
Definition spreadKey {A : Type} (base : A) (over : option A) : A :=
  match over with
  | Some v => v
  | None => base
  end.

(** [{...base, ...over}] *)
Definition spreadHooks (base : HooksConfig) (over : PartialHooks)
  : HooksConfig :=
  mkHooksConfig
    (spreadKey (chatMessage base) (chatMessage_opt over))
    (spreadKey (system base) (system_opt over))
    (spreadKey (messageHistory base) (messageHistory_opt over))
    (spreadKey (textComplete base) (textComplete_opt over))
    (spreadKey (toolOutput base) (toolOutput_opt over)).

Definition mergeHooksConfig (globalHooks projectHooks : option PartialHooks)
  : HooksConfig :=
  spreadHooks
    (spreadHooks DEFAULT_HOOKS_CONFIG (spreadKey noHooks globalHooks))
    (spreadKey noHooks projectHooks).

(* ================================================================== *)
(** * Part IV: [src/index.ts] *)
(* ================================================================== *)

(** [src/index.ts] holds two revisions of the plugin, one after the
    other: the first (lines 1 to 386) has the single matcher
    [OPENCODE_REGEX], a fourth path alternative and no merging of
    ranges; the second (lines 387 to 933) takes an optional matcher and
    has the functions of [helpers.ts] word for word.

    Both keep the matcher in a [RegExp] object and call [test] on it,
    which reads and writes the object's [lastIndex].  The functions of
    this part therefore pass that one piece of state along: a computation
    takes the [lastIndex] of the matcher in use and returns its result
    with the new [lastIndex]. *)
Module RegexState.

Definition M (A : Type) : Type := nat -> A * nat.

Definition ret {A : Type} (a : A) : M A := fun li => (a, li).

Definition bind {A B : Type} (c : M A) (k : A -> M B) : M B :=
  fun li => let '(a, li') := c li in k a li'.

(** [re.test(t)] *)
Definition test (re : RegExp) (t : text) : M bool :=
  fun li => regexTest re t li.

(** [re.lastIndex = n] *)
Definition setLastIndex (n : nat) : M unit := fun _ => (tt, n).

(** [t.replace(re, replacement)]: the scan sets [lastIndex] to 0 before
    it starts, and the failed search that ends it leaves 0 behind. *)
Definition replace (t : text) (re : RegExp) (replacement : text) : M text :=
  fun _ => (str_replace t re replacement, 0%nat).

(** A [for] loop over [l] that threads the loop variables [s]. *)
Fixpoint foldM {A S : Type} (f : S -> A -> M S) (l : list A) (s : S) : M S :=
  match l with
  | [] => ret s
  | x :: l' => bind (f s x) (foldM f l')
  end.

(** [l.map((x, index) => ...)] with an effectful callback. *)
Fixpoint mapiFromM {A B : Type} (f : A -> nat -> M B) (i : nat) (l : list A)
  : M (list B) :=
  match l with
  | [] => ret []
  | x :: l' =>
      bind (f x i) (fun y =>
      bind (mapiFromM f (S i) l') (fun ys => ret (y :: ys)))
  end.

Definition mapiM {A B : Type} (f : A -> nat -> M B) (l : list A)
  : M (list B) :=
  mapiFromM f 0 l.

End RegexState.

Notation "x <- c ;; k" := (RegexState.bind c (fun x => k))
  (at level 61, c at next level, right associativity).

(** ** The first revision of [index.ts] (one matcher, no merging)

    The matcher in use is the module's [OPENCODE_REGEX]. *)
Module IndexV1.
Import RegexState.

(** Fourth alternative of this revision's [PATH_REGEX]: a slash, then
    one or more non-terminators. *)
Definition absolutePathAt (t : text) : option nat :=
  literalThenRun false 0 (lit "/") t.

Definition pathMatchAt (prev : option ascii) (t : text) : option nat :=
  orElse (drivePathAt prev t)
    (orElse (homePathAt t) (orElse (relativePathAt t) (absolutePathAt t))).

Definition replaceOpencode (t : text) (replacement : text) : M text :=
  match t with
  | [] => ret t
  | _ => replace t OPENCODE_REGEX replacement
  end.

Definition outsideStep (t replacement : text) (state : text * Z) (r : range)
  : M (text * Z) :=
  let '(result, cursor) := state in
  let '(start, stop) := r in
  result <- (if (start >? cursor)%Z
             then (piece <- replaceOpencode (slice t cursor start) replacement ;;
                   ret (result ++ piece))
             else ret result) ;;
  ret (result ++ slice t start stop, Z.max cursor stop).

Definition replaceOutsideRanges (t replacement : text) (ranges : list range)
  : M text :=
  match ranges with
  | [] => replaceOpencode t replacement
  | _ =>
      let sorted :=
        sortByStart (filter nonEmptyRange (map clampRange ranges)) in
      state <- foldM (outsideStep t replacement) sorted ([], 0%Z) ;;
      let '(result, cursor) := state in
      if (cursor <? Z.of_nat (length t))%Z
      then (piece <- replaceOpencode (sliceFrom t cursor) replacement ;;
            ret (result ++ piece))
      else ret result
  end.

Definition protectedRanges (t : text) : list range :=
  matchAll urlMatchAt t ++ matchAll pathMatchAt t.

Definition replaceExcludingUrlsAndPaths (t replacement : text) : M text :=
  replaceOutsideRanges t replacement (protectedRanges t).

Definition replaceInInlineCodeSegments (t replacement : text) : M text :=
  let segments := split TICK t in
  outs <- mapiM (fun segment index =>
                   if (index mod 2 =? 1)%nat then ret segment
                   else replaceExcludingUrlsAndPaths segment replacement)
                segments ;;
  ret (join TICK outs).

Definition replaceInText (t replacement : text) : M text :=
  match t with
  | [] => ret t
  | _ =>
      let blocks := split FENCE t in
      outs <- mapiM (fun block index =>
                       if (index mod 2 =? 1)%nat then ret block
                       else replaceInInlineCodeSegments block replacement)
                    blocks ;;
      ret (join FENCE outs)
  end.

(** [title] is [string | undefined]: [None] is [undefined]. *)
Definition updateSessionTitleIfNeeded (title : option text)
  (replacement : text) : M (option text) :=
  match title with
  | None | Some [] => ret title
  | Some t =>
      found <- test OPENCODE_REGEX t ;;
      if negb found then ret title
      else (out <- replaceInText t replacement ;; ret (Some out))
  end.

End IndexV1.

(** ** The current revision of [index.ts] (optional matcher, merging)

    The matcher in use is [regex ?? OPENCODE_REGEX], the same object in
    [test] and in every [replace] of a call. *)
Module IndexV2.
Import RegexState.

(** The matcher a call works on: [regex ?? OPENCODE_REGEX]. *)
Definition matcherOf (regex : option RegExp) : RegExp :=
  match regex with
  | Some re => re
  | None => OPENCODE_REGEX
  end.

Definition replaceOpencode (t : text) (replacement : text)
  (regex : option RegExp) : M text :=
  match t with
  | [] => ret t
  | _ => replace t (matcherOf regex) replacement
  end.

Definition outsideStep (t replacement : text) (regex : option RegExp)
  (state : text * Z) (r : range) : M (text * Z) :=
  let '(result, cursor) := state in
  let '(start, stop) := r in
  result <- (if (start >? cursor)%Z
             then (piece <- replaceOpencode (slice t cursor start)
                              replacement regex ;;
                   ret (result ++ piece))
             else ret result) ;;
  ret (result ++ slice t start stop, Z.max cursor stop).

Definition replaceOutsideRanges (t replacement : text) (ranges : list range)
  (regex : option RegExp) : M text :=
  match ranges with
  | [] => replaceOpencode t replacement regex
  | _ =>
      let sorted := sanitizeRanges ranges in
      state <- foldM (outsideStep t replacement regex) sorted ([], 0%Z) ;;
      let '(result, cursor) := state in
      if (cursor <? Z.of_nat (length t))%Z
      then (piece <- replaceOpencode (sliceFrom t cursor) replacement regex ;;
            ret (result ++ piece))
      else ret result
  end.

Definition replaceExcludingUrlsAndPaths (t replacement : text)
  (regex : option RegExp) : M text :=
  replaceOutsideRanges t replacement (protectedRanges t) regex.

Definition replaceInInlineCodeSegments (t replacement : text)
  (regex : option RegExp) : M text :=
  let segments := split TICK t in
  outs <- mapiM (fun segment index =>
                   if (index mod 2 =? 1)%nat then ret segment
                   else replaceExcludingUrlsAndPaths segment replacement regex)
                segments ;;
  ret (join TICK outs).

Definition replaceInText (t replacement : text) (regex : option RegExp)
  : M text :=
  match t with
  | [] => ret t
  | _ =>
      let blocks := split FENCE t in
      outs <- mapiM (fun block index =>
                       if (index mod 2 =? 1)%nat then ret block
                       else replaceInInlineCodeSegments block replacement regex)
                    blocks ;;
      ret (join FENCE outs)
  end.

Definition updateSessionTitleIfNeeded (title : option text)
  (replacement : text) (regex : option RegExp) : M (option text) :=
  match title with
  | None | Some [] => ret title
  | Some t =>
      let testRegex := matcherOf regex in
      found <- test testRegex t ;;
      if negb found then ret title
      else (_ <- setLastIndex 0 ;;
            out <- replaceInText t replacement regex ;;
            ret (Some out))
  end.

End IndexV2.

(** ** The rest of the current revision: configuration and messages

    What the plugin reads from outside (the clock, the two configuration
    files, the environment) is given to [loadConfig] as a [World]; a
    configuration file is what [readConfigFile] returns for it, an
    object of the declared type or [None] for [undefined].  Objects of
    type [Record<string, unknown>] are lists of keys with their values,
    held in a heap and referred to by their index there, so that an
    assignment to a property is seen through every reference.  A call
    of [loadConfig] is taken as one step: two calls that wait for their
    files at the same time are not interleaved. *)
Module Plugin.
Import RegexState.

Record ReplaceConfig := mkReplaceConfig {
  enabled : bool;
  replacement : text;
  hooks : HooksConfig;
  caseVariants : bool
}.

(** [Partial<ReplaceConfig>], with [hooks] read as
    [Partial<HooksConfig>] as [loadConfig] does. *)
Record OptionalReplaceConfig := mkOptionalReplaceConfig {
  enabled_opt : option bool;
  replacement_opt : option text;
  hooks_opt : option PartialHooks;
  caseVariants_opt : option bool
}.

Record ReplaceState := mkReplaceState {
  cachedConfig : option ReplaceConfig;
  lastLoaded : option Z;
  projectConfigPath : option text;
  globalConfigPath : option text;
  variantRegex : option RegExp
}.

Definition DEFAULT_CONFIG : ReplaceConfig :=
  mkReplaceConfig true (lit "Renamer") DEFAULT_HOOKS_CONFIG false.

Record World := mkWorld {
  (** [Date.now()] in [shouldReloadConfig] *)
  now : Z;
  (** [Date.now()] when the configuration has been read *)
  nowLoaded : Z;
  (** what [readConfigFile] returns for a path *)
  readConfigFile : text -> option OptionalReplaceConfig;
  (** [process.env[ENV_ENABLED]] and [process.env[ENV_REPLACEMENT]] *)
  envEnabled : option text;
  envReplacement : option text
}.

Fixpoint trimStart (t : text) : text :=
  match t with
  | [] => []
  | c :: t' => if isSpace c then trimStart t' else t
  end.

(** [String.prototype.trim] *)
Definition trim (t : text) : text := rev (trimStart (rev (trimStart t))).

(** [list.includes(x)] *)
Definition includes (l : list text) (x : text) : bool :=
  existsb (text_eqb x) l.

Definition parseBool (value : option text) : option bool :=
  match value with
  | None => None
  | Some v =>
      let normalized := toLowerCase (trim v) in
      if includes [lit "true"; lit "1"; lit "yes"; lit "y"; lit "on"]
           normalized
      then Some true
      else if includes [lit "false"; lit "0"; lit "no"; lit "n"; lit "off"]
                normalized
      then Some false
      else None
  end.

(** A string is truthy when it is not empty. *)
Definition nonEmpty (t : text) : bool :=
  match t with
  | [] => false
  | _ :: _ => true
  end.

(** [!state.lastLoaded]: [undefined] and 0 are falsy. *)
Definition shouldReloadConfig (state : ReplaceState) (w : World) : bool :=
  match lastLoaded state with
  | None => true
  | Some last => if (last =? 0)%Z then true else (now w - last >? 1000)%Z
  end.

(** [path ? await readConfigFile(path) : undefined]: the empty string is
    falsy. *)
Definition readIfSet (w : World) (path : option text)
  : option OptionalReplaceConfig :=
  match path with
  | Some p => if nonEmpty p then readConfigFile w p else None
  | None => None
  end.

Definition noConfig : OptionalReplaceConfig :=
  mkOptionalReplaceConfig None None None None.

(** [(config as Record<string, unknown> | undefined)?.hooks] *)
Definition hooksOf (config : option OptionalReplaceConfig)
  : option PartialHooks :=
  match config with
  | Some c => hooks_opt c
  | None => None
  end.

(** The object literal of [loadConfig]: the two spreads over the
    defaults, then [hooks]. *)
Definition mergedConfig (globalConfig projectConfig
  : option OptionalReplaceConfig) : ReplaceConfig :=
  let g := spreadKey noConfig globalConfig in
  let p := spreadKey noConfig projectConfig in
  mkReplaceConfig
    (spreadKey (spreadKey (enabled DEFAULT_CONFIG) (enabled_opt g))
       (enabled_opt p))
    (spreadKey (spreadKey (replacement DEFAULT_CONFIG) (replacement_opt g))
       (replacement_opt p))
    (mergeHooksConfig (hooksOf globalConfig) (hooksOf projectConfig))
    (spreadKey (spreadKey (caseVariants DEFAULT_CONFIG) (caseVariants_opt g))
       (caseVariants_opt p)).

(** The variants of the target word with the four base spellings pushed
    after them, compiled; [None] when a step throws. *)
Definition compileVariants : option RegExp :=
  match generateCaseVariants (splitIntoWords (lit "opencode")) with
  | None => None
  | Some variants =>
      buildVariantRegex
        (variants ++ [lit "opencode"; lit "Opencode"; lit "OpenCode";
                      lit "OPENCODE"])
  end.

(** [loadConfig]: the configuration returned and the state left.  What
    is thrown inside is caught, and then the defaults are returned. *)
Definition loadConfig (state : ReplaceState) (w : World)
  : ReplaceConfig * ReplaceState :=
  match (if shouldReloadConfig state w then None else cachedConfig state) with
  | Some cached => (cached, state)
  | None =>
      let projectConfig := readIfSet w (projectConfigPath state) in
      let globalConfig := readIfSet w (globalConfigPath state) in
      let merged := mergedConfig globalConfig projectConfig in
      let merged :=
        match parseBool (envEnabled w) with
        | Some b =>
            mkReplaceConfig b (replacement merged) (hooks merged)
              (caseVariants merged)
        | None => merged
        end in
      let merged :=
        match envReplacement w with
        | Some r =>
            if nonEmpty r && (0 <? length (trim r))%nat
            then mkReplaceConfig (enabled merged) r (hooks merged)
                   (caseVariants merged)
            else merged
        | None => merged
        end in
      (* the matcher to store; nothing when compiling it throws, which
         happens before the state is written *)
      match (if caseVariants merged
             then option_map Some compileVariants
             else Some None) with
      | None => (DEFAULT_CONFIG, state)
      | Some regex =>
          (merged,
           mkReplaceState (Some merged) (Some (nowLoaded w))
             (projectConfigPath state) (globalConfigPath state) regex)
      end
  end.

(** The first part of the [event] hook, for an event of type
    [file.edited] or [file.watcher.updated] with the path [filePath]. *)
Definition onFileEvent (filePath : option text) (state : ReplaceState)
  : ReplaceState :=
  match filePath with
  | None => state
  | Some path =>
      if nonEmpty path
         && (match projectConfigPath state with
             | Some p => text_eqb path p
             | None => false
             end
             || match globalConfigPath state with
                | Some p => text_eqb path p
                | None => false
                end)
      then mkReplaceState (cachedConfig state) (Some 0%Z)
             (projectConfigPath state) (globalConfigPath state)
             (variantRegex state)
      else state
  end.

(** A value of type [unknown]: a string, or something else, which the
    code only passes along. *)
Inductive JsValue :=
| JString (s : text)
| JOther (tag : nat).

(** An object: its own keys, in order, each with its value. *)
Definition JsObject := list (String.string * JsValue).

(** [o[key]] *)
Fixpoint getProp (key : String.string) (o : JsObject) : option JsValue :=
  match o with
  | [] => None
  | (k, v) :: o' => if String.eqb key k then Some v else getProp key o'
  end.

Arguments getProp key%_string o.

(** [o[key] = v] *)
Fixpoint setProp (key : String.string) (v : JsValue) (o : JsObject)
  : JsObject :=
  match o with
  | [] => [(key, v)]
  | (k, old) :: o' =>
      if String.eqb key k then (k, v) :: o' else (k, old) :: setProp key v o'
  end.

Arguments setProp key%_string v o.

(** [if (typeof o[key] === "string") o[key] = replaceInText(o[key], ...)] *)
Definition rewriteProp (key : String.string) (replacement : text)
  (regex : option RegExp) (o : JsObject) : M JsObject :=
  match getProp key o with
  | Some (JString s) =>
      out <- IndexV2.replaceInText s replacement regex ;;
      ret (setProp key (JString out) o)
  | _ => ret o
  end.

Arguments rewriteProp key%_string replacement regex o.

(** [o.type === name] *)
Definition hasType (name : text) (o : JsObject) : bool :=
  match getProp "type" o with
  | Some (JString s) => text_eqb s name
  | _ => false
  end.

(** The body of the loop of [replaceInParts], on one part. *)
Definition replaceInPart (replacement : text) (regex : option RegExp)
  (part : JsObject) : M JsObject :=
  part <- (if hasType (lit "text") part
           then rewriteProp "text" replacement regex part
           else ret part) ;;
  part <- (if hasType (lit "subtask") part
           then (part <- rewriteProp "prompt" replacement regex part ;;
                 rewriteProp "description" replacement regex part)
           else ret part) ;;
  part <- rewriteProp "title" replacement regex part ;;
  rewriteProp "description" replacement regex part.

Definition Heap := list JsObject.

(** [heap[address] = o]; nothing happens outside the heap. *)
Fixpoint store (address : nat) (o : JsObject) (heap : Heap) : Heap :=
  match heap, address with
  | [], _ => []
  | _ :: rest, O => o :: rest
  | x :: rest, S a => x :: store a o rest
  end.

(** The same body on the object a reference points to. *)
Definition replaceInPartAt (replacement : text) (regex : option RegExp)
  (heap : Heap) (address : nat) : M Heap :=
  match nth_error heap address with
  | Some part =>
      part <- replaceInPart replacement regex part ;;
      ret (store address part heap)
  | None => ret heap
  end.

(** [replaceInParts]: [parts] is the array of references, or [None] for
    a value that is not an array. *)
Definition replaceInParts (parts : option (list nat)) (replacement : text)
  (regex : option RegExp) (heap : Heap) : M Heap :=
  match parts with
  | None => ret heap
  | Some refs => foldM (replaceInPartAt replacement regex) refs heap
  end.

(** A message: the references of its [info] object and of its parts. *)
Record Message := mkMessage {
  info : option nat;
  parts : option (list nat)
}.

(** The body of the loop of [replaceInMessages]. *)
Definition replaceInMessage (replacement : text) (regex : option RegExp)
  (heap : Heap) (message : Message) : M Heap :=
  heap <- replaceInParts (parts message) replacement regex heap ;;
  match info message with
  | Some address =>
      match nth_error heap address with
      | Some o =>
          o <- rewriteProp "title" replacement regex o ;;
          ret (store address o heap)
      | None => ret heap
      end
  | None => ret heap
  end.

Definition replaceInMessages (messages : option (list Message))
  (replacement : text) (regex : option RegExp) (heap : Heap) : M Heap :=
  match messages with
  | None => ret heap
  | Some l => foldM (replaceInMessage replacement regex) l heap
  end.

End Plugin.

(* ================================================================== *)
(** * Part V: vocabulary of the properties *)
(* ================================================================== *)

(** The seven spellings of the specification, in its order. *)
Definition SEVEN_VARIANTS : list text :=
  [ lit "openCode"; lit "OpenCode"; lit "open-code"; lit "open_code";
    lit "OPEN_CODE"; lit "OPEN-CODE"; lit "open.code" ].

(** The matcher the tests build: [splitIntoWords], then
    [generateCaseVariants], then [buildVariantRegex]. *)
Definition makeVariantRegex : option RegExp :=
  match generateCaseVariants (splitIntoWords (lit "opencode")) with
  | Some variants => buildVariantRegex variants
  | None => None
  end.

Definition VARIANT_REGEX : RegExp := mkRegExp SEVEN_VARIANTS false.

(** A code unit as the escaping leaves it: behind a backslash when it is
    a metacharacter. *)
Definition escapedChar (c : ascii) : text :=
  if isMetaChar c then ["\"; c] else [c].

(** [t.match(re)] is truthy: [re] matches somewhere in [t]. *)
Definition matchesSomewhere (re : RegExp) (t : text) : bool :=
  match execFrom re 0 t with
  | Some _ => true
  | None => false
  end.

(** The number of positions at which two strings of the same length
    differ. *)
Fixpoint mismatches (a b : text) : nat :=
  match a, b with
  | x :: a', y :: b' => (if Ascii.eqb x y then 0 else 1) + mismatches a' b'
  | _, _ => 0
  end.

(** A text as the [i] flag compares it: every code unit in its
    canonical form. *)
Definition foldCase (t : text) : text := map (canonicalize true) t.

(** [w] spells [p] up to the case of its letters. *)
Definition sameWordIgnoringCase (w p : text) : Prop :=
  foldCase w = foldCase p.

(** A replacement string without a dollar: its substitution is itself. *)
Definition dollarFree (replacement : text) : Prop :=
  Forall (fun c => c <> "$") replacement.

(** Adjacent ranges are strictly apart: [ranges[i].end < ranges[i+1].start]. *)
Fixpoint gapped (l : list range) : Prop :=
  match l with
  | r1 :: ((r2 :: _) as rest) => (snd r1 < fst r2)%Z /\ gapped rest
  | _ => True
  end.

(** Ascending by start. *)
Fixpoint startsAscending (l : list range) : Prop :=
  match l with
  | r1 :: ((r2 :: _) as rest) => (fst r1 <= fst r2)%Z /\ startsAscending rest
  | _ => True
  end.

(** [out] is [src] cut into consecutive pieces, each piece either copied
    or handed once to [replaceOpencode]: every code unit of [src] is
    consumed exactly once, in order. *)
Inductive Image (replacement : text) (regex : option RegExp)
  : text -> text -> Prop :=
| Image_nil : Image replacement regex [] []
| Image_copied p src out :
    Image replacement regex src out ->
    Image replacement regex (p ++ src) (p ++ out)
| Image_replaced g src out :
    Image replacement regex src out ->
    Image replacement regex (g ++ src)
      (replaceOpencode g replacement regex ++ out).

(** A decomposition of one replacement pass: consecutive pieces of the
    original text, each tagged with whether the matcher matched it. *)
Definition sourceOfPieces (pieces : list (bool * text)) : text :=
  concat (map snd pieces).

(** Every piece tagged as a match is the match of [re] at its position in
    the original text. *)
Fixpoint matchedInSource (re : RegExp) (pieces : list (bool * text)) : Prop :=
  match pieces with
  | [] => True
  | (true, m) :: rest =>
      matchAt re (m ++ sourceOfPieces rest) = Some (length m) /\
      matchedInSource re rest
  | (false, _) :: rest => matchedInSource re rest
  end.

(** The pieces with every match replaced by one substitution of the
    replacement string, taken in the original text ([before] is the
    original text before the pieces). *)
Fixpoint renderPieces (replacement : text) (before : text)
  (pieces : list (bool * text)) : text :=
  match pieces with
  | [] => []
  | (true, m) :: rest =>
      getSubstitution m before (sourceOfPieces rest) replacement
      ++ renderPieces replacement (before ++ m) rest
  | (false, u) :: rest => u ++ renderPieces replacement (before ++ u) rest
  end.

(** A range with offsets in the text order: [0 <= start < end]. *)
Definition validRange (r : range) : Prop := (0 <= fst r < snd r)%Z.

(** [R] contains [r]. *)
Definition covers (R r : range) : Prop :=
  (fst R <= fst r)%Z /\ (snd r <= snd R)%Z.

(** What the loop of [replaceOutsideRanges] over [l] and its final step
    add to [result] from [cursor] on. *)
Definition walkFrom (t replacement : text) (regex : option RegExp)
  (l : list range) (cursor : Z) : text :=
  outsideFinish t replacement regex
    (fold_left (outsideStep t replacement regex) l ([], cursor)).

(** The ranges ahead of the cursor: valid, apart, and not before it. *)
Definition ahead (cursor : Z) (l : list range) : Prop :=
  Forall validRange l /\ gapped l /\
  match l with [] => True | r :: _ => (cursor <= fst r)%Z end.

(** The target word in upper case, as the [i] flag compares it. *)
Definition OPENCODE_UPPER : text := lit "OPENCODE".

(** What a call of [updateSessionTitleIfNeeded] returns when the matcher
    is fresh. *)
Definition updatedTitle (title : option text) (replacement : text)
  (regex : option RegExp) : option text :=
  match title with
  | None | Some [] => title
  | Some t =>
      if matchesSomewhere (IndexV2.matcherOf regex) t
      then Some (replaceInText t replacement regex)
      else title
  end.

(** The pieces are those of one scan of [re] from left to right: a
    piece tagged as a match is the match of [re] at its position in the
    original text, an unmatched piece is one code unit at which [re]
    has no match, or the code unit stepped over after an empty match,
    and the end of the text is reached with no match left there, or
    with an empty one, which closes the list. *)
Fixpoint scanned (re : RegExp) (pieces : list (bool * text)) : Prop :=
  match pieces with
  | [] => matchAt re [] = None
  | (true, []) :: rest =>
      match rest with
      | [] => matchAt re [] = Some 0%nat
      | (false, [c]) :: rest' =>
          matchAt re (c :: sourceOfPieces rest') = Some 0%nat /\
          scanned re rest'
      | _ => False
      end
  | (true, m) :: rest =>
      matchAt re (m ++ sourceOfPieces rest) = Some (length m) /\
      scanned re rest
  | (false, [c]) :: rest =>
      matchAt re (c :: sourceOfPieces rest) = None /\ scanned re rest
  | (false, _) :: _ => False
  end.

(** [out] is [src] cut into consecutive pieces, each piece either copied
    or scanned once by [re] as it stands in [src], with one substitution
    for every match of the scan: nothing of [out] is scanned. *)
Inductive SinglePass (replacement : text) (re : RegExp)
  : text -> text -> Prop :=
| SinglePass_nil : SinglePass replacement re [] []
| SinglePass_copied p src out :
    SinglePass replacement re src out ->
    SinglePass replacement re (p ++ src) (p ++ out)
| SinglePass_scanned pieces src out :
    sourceOfPieces pieces <> [] -> scanned re pieces ->
    SinglePass replacement re src out ->
    SinglePass replacement re (sourceOfPieces pieces ++ src)
      (renderPieces replacement [] pieces ++ out).

(** The stretches between the ranges of [l] from [cursor] up to [len]:
    what the walk of [replaceOutsideRanges] hands to the matcher. *)
Fixpoint gaps (cursor : Z) (l : list range) (len : Z) : list range :=
  match l with
  | [] => if (cursor <? len)%Z then [(cursor, len)] else []
  | (s, e) :: l' =>
      (if (s >? cursor)%Z then [(cursor, s)] else [])
      ++ gaps (Z.max cursor e) l' len
  end.

(** The offset [x] lies in the half-open range [r]. *)
Definition contains (r : range) (x : Z) : Prop := (fst r <= x < snd r)%Z.

(** The offset [x] lies in one of the ranges of [l]. *)
Definition coveredBy (l : list range) (x : Z) : Prop :=
  exists r, In r l /\ contains r x.

(** The delimiter [sep] occurs somewhere in [t]. *)
Definition occursIn (sep t : text) : Prop :=
  exists a b, t = a ++ sep ++ b.

(** [t] holds no backtick. *)
Definition backtickFree (t : text) : Prop := Forall (fun c => c <> "`") t.

(** The first [n] code units of [t] are a token that ends where it must:
    there is at least one, none of them is a terminator, and what follows
    them, if anything, is a terminator. *)
Definition tokenAt (t : text) (n : nat) : Prop :=
  0 < n /\ n <= length t /\
  forallb nonTerminator (firstn n t) = true /\
  match nth_error t n with
  | Some c => nonTerminator c = false
  | None => True
  end.

(** Consecutive ranges do not overlap: each starts at or after the end
    of the one before. *)
Fixpoint inSuccession (l : list range) : Prop :=
  match l with
  | r1 :: ((r2 :: _) as rest) => (snd r1 <= fst r2)%Z /\ inSuccession rest
  | _ => True
  end.

(** ** Vocabulary of the configuration *)

(** The four spellings [loadConfig] pushes after the generated variants,
    and the matcher it compiles when [caseVariants] is set. *)
Definition BASE_SPELLINGS : list text :=
  [lit "opencode"; lit "Opencode"; lit "OpenCode"; lit "OPENCODE"].

Definition CASE_VARIANTS_REGEX : RegExp :=
  mkRegExp (SEVEN_VARIANTS ++ BASE_SPELLINGS) false.

(** The casings of the target word that the compiled matcher matches. *)
Definition KEPT_SPELLINGS : list text := lit "openCode" :: BASE_SPELLINGS.

(** A string of white space only. *)
Definition blank (t : text) : Prop := forallb isSpace t = true.

Inductive HookName :=
| ChatMessage
| SystemPrompt
| MessageHistory
| TextComplete
| ToolOutput.

Definition hookOf (c : HooksConfig) (h : HookName) : bool :=
  match h with
  | ChatMessage => chatMessage c
  | SystemPrompt => system c
  | MessageHistory => messageHistory c
  | TextComplete => textComplete c
  | ToolOutput => toolOutput c
  end.

(** What a configuration file says about a hook, if anything. *)
Definition hookSetting (h : HookName)
  (file : option Plugin.OptionalReplaceConfig) : option bool :=
  match Plugin.hooksOf file with
  | None => None
  | Some p =>
      match h with
      | ChatMessage => chatMessage_opt p
      | SystemPrompt => system_opt p
      | MessageHistory => messageHistory_opt p
      | TextComplete => textComplete_opt p
      | ToolOutput => toolOutput_opt p
      end
  end.

(** What a configuration file says about a setting, if anything. *)
Definition setting {A : Type}
  (field : Plugin.OptionalReplaceConfig -> option A)
  (file : option Plugin.OptionalReplaceConfig) : option A :=
  match file with
  | Some o => field o
  | None => None
  end.

(** The first candidate that is set, or the default. *)
Fixpoint firstSet {A : Type} (candidates : list (option A)) (default : A) : A :=
  match candidates with
  | [] => default
  | Some a :: _ => a
  | None :: rest => firstSet rest default
  end.

(** An environment value that is set and not blank. *)
Definition notBlank (value : option text) : option text :=
  match value with
  | Some r => if forallb isSpace r then None else Some r
  | None => None
  end.

(** The matcher that goes with a configuration. *)
Definition matcherFor (c : Plugin.ReplaceConfig) : option RegExp :=
  if Plugin.caseVariants c then Some CASE_VARIANTS_REGEX else None.

(** The state the plugin starts with, and the states it can get into:
    the state is written by [loadConfig] and by the file events only. *)
Definition initialState (project global : option text) : Plugin.ReplaceState :=
  Plugin.mkReplaceState None None project global None.

Inductive Reachable (project global : option text)
  : Plugin.ReplaceState -> Prop :=
| Reachable_start : Reachable project global (initialState project global)
| Reachable_load (s : Plugin.ReplaceState) (w : Plugin.World) :
    Reachable project global s ->
    Reachable project global (snd (Plugin.loadConfig s w))
| Reachable_file (s : Plugin.ReplaceState) (filePath : option text) :
    Reachable project global s ->
    Reachable project global (Plugin.onFileEvent filePath s).

(** An example: a project file and a global file that disagree, an
    environment that switches the plugin on and gives a blank
    replacement. *)
Definition exampleWorld : Plugin.World :=
  Plugin.mkWorld 5000 5001
    (fun path =>
       if text_eqb path (lit "/p/.opencode/renamer-config.json")
       then Some (Plugin.mkOptionalReplaceConfig None (Some (lit "Mine"))
                    (Some (mkPartialHooks None (Some false) None None None))
                    None)
       else if text_eqb path (lit "/h/.config/opencode/renamer-config.json")
       then Some (Plugin.mkOptionalReplaceConfig (Some false)
                    (Some (lit "Theirs"))
                    (Some (mkPartialHooks (Some false) (Some true) None None
                             None))
                    (Some true))
       else None)
    (Some (lit " ON "))
    (Some (lit "  ")).

Definition exampleState : Plugin.ReplaceState :=
  initialState (Some (lit "/p/.opencode/renamer-config.json"))
    (Some (lit "/h/.config/opencode/renamer-config.json")).

(** ** Vocabulary of the message parts *)

(** How many times [replaceInParts] passes the value of a key of a part
    through [replaceInText]. *)
Definition passes (part : Plugin.JsObject) (key : String.string) : nat :=
  if String.eqb key "description"
  then (if Plugin.hasType (lit "subtask") part then 2 else 1)
  else if String.eqb key "title" then 1
  else if String.eqb key "prompt"
  then (if Plugin.hasType (lit "subtask") part then 1 else 0)
  else if String.eqb key "text"
  then (if Plugin.hasType (lit "text") part then 1 else 0)
  else 0.

(** A value after [n] passes: a string is rewritten, anything else and
    a missing key stay as they are. *)
Definition rewrittenValue (n : nat) (replacement : text)
  (regex : option RegExp) (v : option Plugin.JsValue)
  : option Plugin.JsValue :=
  match v with
  | Some (Plugin.JString s) =>
      Some (Plugin.JString
              (Nat.iter n (fun x => replaceInText x replacement regex) s))
  | other => other
  end.

Definition REWRITTEN_KEYS : list String.string :=
  ["text"; "prompt"; "description"; "title"]%string.

(** [o'] has the keys of [o] in their order, and the same values but for
    strings under the rewritten keys, which are strings still. *)
Definition sameButTexts (o o' : Plugin.JsObject) : Prop :=
  map fst o' = map fst o /\
  forall key,
    Plugin.getProp key o' = Plugin.getProp key o \/
    (In key REWRITTEN_KEYS /\
     exists s s', Plugin.getProp key o = Some (Plugin.JString s) /\
                  Plugin.getProp key o' = Some (Plugin.JString s')).

(** [heap'] holds the objects of [heap] at their addresses, each the
    same but for its texts, and identical where [touched] does not
    hold. *)
Definition heapFrame (touched : nat -> Prop) (heap heap' : Plugin.Heap)
  : Prop :=
  length heap' = length heap /\
  forall a o, nth_error heap a = Some o ->
    exists o', nth_error heap' a = Some o' /\ sameButTexts o o' /\
               (~ touched a -> o' = o).

(** The objects a list of messages refers to. *)
Definition referenced (messages : list Plugin.Message) (a : nat) : Prop :=
  exists m, In m messages /\
    (Plugin.info m = Some a \/
     exists refs, Plugin.parts m = Some refs /\ In a refs).

(* ================================================================== *)
(** * Part VI: properties *)
(* ================================================================== *)

(** ** The repository's tests, replayed on the embedding *)

(** [tests/replace.test.ts] *)
Example test_replaces_in_plain_text :
  replaceInText (lit "hello opencode") (lit "Renamer") None
  = lit "hello Renamer".
Proof. vm_compute. reflexivity. Qed.

Example test_url_not_duplicated :
  replaceOutsideRanges (lit "Visit https://opencode.ai/docs for more")
    (lit "Renamer") [(6, 29); (12, 29)]%Z None
  = lit "Visit https://opencode.ai/docs for more".
Proof. vm_compute. reflexivity. Qed.

Example test_text_around_url_replaced :
  replaceExcludingUrlsAndPaths
    (lit "opencode is at https://opencode.ai/docs and opencode rocks")
    (lit "Renamer") None
  = lit "Renamer is at https://opencode.ai/docs and Renamer rocks".
Proof. vm_compute. reflexivity. Qed.

Example test_multiple_urls_untouched :
  replaceInText (lit "See https://opencode.ai and https://docs.opencode.ai/api")
    (lit "Renamer") None
  = lit "See https://opencode.ai and https://docs.opencode.ai/api".
Proof. vm_compute. reflexivity. Qed.

(** [tests/integration.test.ts] and the variant tests *)
Example test_url_and_variant :
  replaceInText (lit "Visit https://opencode.ai and use open-code library")
    (lit "Renamer") (Some VARIANT_REGEX)
  = lit "Visit https://opencode.ai and use Renamer library".
Proof. vm_compute. reflexivity. Qed.

Example test_multiple_variants :
  replaceInText (lit "use openCode, open-code, and open_code together")
    (lit "Renamer") (Some VARIANT_REGEX)
  = lit "use Renamer, Renamer, and Renamer together".
Proof. vm_compute. reflexivity. Qed.

Example test_path_protected :
  replaceInText (lit "Config at ./open_code/config.json uses open_code library")
    (lit "Renamer") (Some VARIANT_REGEX)
  = lit "Config at ./open_code/config.json uses Renamer library".
Proof. vm_compute. reflexivity. Qed.

Example test_inline_code_protected :
  replaceInText (lit "use `open_code` variable") (lit "Renamer")
    (Some VARIANT_REGEX)
  = lit "use `open_code` variable".
Proof. vm_compute. reflexivity. Qed.

Example test_fenced_code_protected :
  replaceInText (lit "text ```const open_code = 1;``` more open_code")
    (lit "Renamer") (Some VARIANT_REGEX)
  = lit "text ```const open_code = 1;``` more Renamer".
Proof. vm_compute. reflexivity. Qed.

Example test_dot_is_escaped :
  match buildVariantRegex [lit "open.code"] with
  | Some re =>
      matchesSomewhere re (lit "open.code") = true /\
      matchesSomewhere re (lit "openXcode") = false
  | None => False
  end.
Proof. vm_compute. split; reflexivity. Qed.

Example test_variant_matcher_is_case_sensitive :
  match buildVariantRegex [lit "openCode"] with
  | Some re => matchesSomewhere re (lit "OPENCODE") = false
  | None => False
  end.
Proof. vm_compute. reflexivity. Qed.

Example test_splitIntoWords :
  splitIntoWords (lit "opencode") = [lit "open"; lit "code"].
Proof. reflexivity. Qed.

(** ** Variant generator *)

Lemma litPrefix_self (ic : bool) (v post : text) :
  litPrefix ic v (v ++ post) = true.
Proof.
  induction v as [|c v IH]; simpl; [reflexivity|].
  rewrite Ascii.eqb_refl. exact IH.
Qed.

Lemma firstAlternative_member (ic : bool) (alts : list text) (v post : text) :
  In v alts -> exists n, firstAlternative ic alts (v ++ post) = Some n.
Proof.
  induction alts as [|a alts IH]; simpl; [intros []|].
  intros [-> | Hin].
  - rewrite litPrefix_self. eauto.
  - destruct (litPrefix ic a (v ++ post)); eauto.
Qed.

Lemma execFrom_reaches (re : RegExp) (t : text) (n : nat) :
  matchAt re t = Some n ->
  forall pre pos, exists hit, execFrom re pos (pre ++ t) = Some hit.
Proof.
  intros Hm pre. induction pre as [|c pre IH]; intros pos; simpl.
  - destruct t; simpl; rewrite Hm; eauto.
  - destruct (matchAt re (c :: pre ++ t)); eauto.
Qed.

Lemma alternative_matches_somewhere (re : RegExp) (v pre post : text) :
  In v (alternatives re) -> matchesSomewhere re (pre ++ v ++ post) = true.
Proof.
  intros Hin. unfold matchesSomewhere.
  destruct (firstAlternative_member (ignoreCase re) _ v post Hin) as [n Hn].
  destruct (execFrom_reaches re (v ++ post) n Hn pre 0) as [hit ->].
  reflexivity.
Qed.

(** C7.  [generateCaseVariants] on the decomposition [["open", "code"]]
    returns exactly the seven spellings openCode, OpenCode, open-code,
    open_code, OPEN_CODE, OPEN-CODE, open.code in this order; the pattern
    [buildVariantRegex] compiles from them matches each spelling (whole,
    and wherever it stands in a text), and it matches nowhere in
    openXcode, a string that is none of the seven and differs from
    open.code in exactly one position. *)
Theorem variant_completeness :
  generateCaseVariants [lit "open"; lit "code"] = Some SEVEN_VARIANTS /\
  buildVariantRegex SEVEN_VARIANTS = Some VARIANT_REGEX /\
  Forall (fun v => matchAt VARIANT_REGEX v = Some (length v)) SEVEN_VARIANTS /\
  Forall (fun v => forall pre post,
            matchesSomewhere VARIANT_REGEX (pre ++ v ++ post) = true)
         SEVEN_VARIANTS /\
  matchesSomewhere VARIANT_REGEX (lit "openXcode") = false /\
  ~ In (lit "openXcode") SEVEN_VARIANTS /\
  length (lit "openXcode") = length (lit "open.code") /\
  mismatches (lit "openXcode") (lit "open.code") = 1.
Proof.
  split; [reflexivity|].
  split; [vm_compute; reflexivity|].
  split; [repeat constructor|].
  split.
  - apply Forall_forall. intros v Hv pre post.
    apply alternative_matches_somewhere. exact Hv.
  - split; [vm_compute; reflexivity|].
    split; [|split; reflexivity].
    intros Hin. vm_compute in Hin.
    repeat (destruct Hin as [Hin | Hin]; [discriminate Hin|]). exact Hin.
Qed.

(** C9.  With the matcher built from the seven variants, [replaceInText]
    on hello open-code with the empty replacement returns hello followed
    by one space: the match is deleted and nothing is thrown (the result
    is a value). *)
Theorem empty_replacement_deletes :
  makeVariantRegex = Some VARIANT_REGEX /\
  replaceInText (lit "hello open-code") (lit "") (Some VARIANT_REGEX)
  = lit "hello ".
Proof.
  split; vm_compute; reflexivity.
Qed.

(** Without a matcher the same call changes nothing: the default pattern
    does not match the kebab-case spelling. *)
Example empty_replacement_default_matcher :
  replaceInText (lit "hello open-code") (lit "") None = lit "hello open-code".
Proof. vm_compute. reflexivity. Qed.

Lemma mapCapitalize_total (words : list text) :
  Forall (fun w => w <> []) words ->
  exists caps, mapCapitalize words = Some caps.
Proof.
  induction 1 as [|w words Hw _ [caps IH]]; simpl; [eauto|].
  destruct w as [|c w]; [congruence|]. simpl. rewrite IH. eauto.
Qed.

Lemma mapCapitalize_fails (words : list text) :
  In [] words -> mapCapitalize words = None.
Proof.
  induction words as [|w words IH]; simpl; [intros []|].
  intros [-> | Hin]; [reflexivity|].
  destruct (capitalize w); [|reflexivity]. rewrite (IH Hin). reflexivity.
Qed.

Lemma all_nonempty_or_empty_member (words : list text) :
  Forall (fun w => w <> []) words \/ In [] words.
Proof.
  induction words as [|w words [IH | IH]].
  - left. constructor.
  - destruct w as [|c w].
    + right. left. reflexivity.
    + left. constructor; [discriminate | exact IH].
  - right. right. exact IH.
Qed.

(** C10.  [generateCaseVariants] returns (seven strings) exactly on the
    decompositions whose parts are all non-empty; on a decomposition that
    holds the empty string the capitalisation reads the first character
    of an empty part and throws.  [splitIntoWords] of the empty string is
    such a decomposition, so the pipeline throws on the empty target
    word. *)
Theorem variants_total_iff_parts_nonempty :
  (forall words : list text,
     (exists vs, generateCaseVariants words = Some vs /\ length vs = 7)
     <-> Forall (fun w => w <> []) words) /\
  (forall words : list text,
     In [] words -> generateCaseVariants words = None) /\
  splitIntoWords (lit "") = [lit ""] /\
  generateCaseVariants (splitIntoWords (lit "")) = None.
Proof.
  assert (Hfail : forall words : list text,
             In [] words -> generateCaseVariants words = None).
  { intros words Hin. unfold generateCaseVariants.
    destruct (mapCapitalize (tl words)); [|reflexivity].
    rewrite (mapCapitalize_fails words Hin). reflexivity. }
  split; [|split; [exact Hfail | split; reflexivity]].
  intros words. split.
  - intros [vs [Hvs _]].
    destruct (all_nonempty_or_empty_member words) as [H | H]; [exact H|].
    rewrite (Hfail words H) in Hvs. discriminate.
  - intros Hall. unfold generateCaseVariants.
    assert (Htl : Forall (fun w : text => w <> []) (tl words)).
    { destruct Hall; [constructor | assumption]. }
    destruct (mapCapitalize_total _ Htl) as [capsTail ->].
    destruct (mapCapitalize_total _ Hall) as [caps ->].
    eexists. split; reflexivity.
Qed.

(** ** Interval merger *)

Local Open Scope Z_scope.

Lemma startsAscending_cons (x : range) (l : list range) :
  startsAscending (x :: l) <->
  (match l with [] => True | y :: _ => fst x <= fst y end) /\ startsAscending l.
Proof.
  destruct l as [|y l]; simpl; tauto.
Qed.

Lemma gapped_cons (x : range) (l : list range) :
  gapped (x :: l) <->
  (match l with [] => True | y :: _ => snd x < fst y end) /\ gapped l.
Proof.
  destruct l as [|y l]; simpl; tauto.
Qed.

Lemma insertByStart_head (r x : range) (l : list range) :
  exists h tl, insertByStart r (x :: l) = h :: tl /\
               (fst h = fst r \/ fst h = fst x).
Proof.
  simpl. destruct (fst r <=? fst x); eauto.
Qed.

Lemma insertByStart_ascending (r : range) (l : list range) :
  startsAscending l -> startsAscending (insertByStart r l).
Proof.
  induction l as [|x l IH]; intros Hl; [exact I|].
  simpl. destruct (fst r <=? fst x) eqn:Hlt.
  - apply startsAscending_cons. split; [apply Z.leb_le in Hlt; lia | exact Hl].
  - apply Z.leb_gt in Hlt.
    apply startsAscending_cons in Hl. destruct Hl as [Hhd Htl].
    apply startsAscending_cons. split; [|exact (IH Htl)].
    destruct l as [|y l]; [simpl; lia|].
    destruct (insertByStart_head r y l) as [h [tl [-> [-> | ->]]]]; lia.
Qed.

Lemma sortByStart_ascending (l : list range) : startsAscending (sortByStart l).
Proof.
  induction l as [|r l IH]; [exact I|].
  simpl. apply insertByStart_ascending. exact IH.
Qed.

Lemma insertByStart_In (r x : range) (l : list range) :
  In x (insertByStart r l) <-> x = r \/ In x l.
Proof.
  induction l as [|y l IH]; simpl; [intuition congruence|].
  destruct (fst r <=? fst y); simpl; rewrite ?IH; intuition congruence.
Qed.

Lemma sortByStart_In (x : range) (l : list range) :
  In x (sortByStart l) <-> In x l.
Proof.
  induction l as [|r l IH]; simpl; [tauto|].
  rewrite insertByStart_In, IH. intuition congruence.
Qed.

Lemma sortByStart_Forall (P : range -> Prop) (l : list range) :
  Forall P l -> Forall P (sortByStart l).
Proof.
  rewrite !Forall_forall. intros H x Hx. apply H, sortByStart_In, Hx.
Qed.

Lemma mergeLoop_head (last : range) (rest : list range) :
  exists e tl, mergeLoop last rest = (fst last, e) :: tl /\ snd last <= e.
Proof.
  revert last. induction rest as [|cur rest IH]; intros last; simpl.
  - exists (snd last), []. destruct last; simpl. split; [reflexivity | lia].
  - destruct (fst cur <=? snd last).
    + destruct (IH (fst last, Z.max (snd last) (snd cur))) as [e [tl [-> He]]].
      simpl in *. exists e, tl. split; [reflexivity | lia].
    + exists (snd last), (mergeLoop cur rest). destruct last; simpl.
      split; [reflexivity | lia].
Qed.

Lemma mergeLoop_gapped (last : range) (rest : list range) :
  gapped (mergeLoop last rest).
Proof.
  revert last. induction rest as [|cur rest IH]; intros last; simpl; [exact I|].
  destruct (fst cur <=? snd last) eqn:Hle; [apply IH|].
  apply Z.leb_gt in Hle. apply gapped_cons. split; [|apply IH].
  destruct (mergeLoop_head cur rest) as [e [tl [-> _]]]. simpl. exact Hle.
Qed.

Lemma mergeLoop_ascending (last : range) (rest : list range) :
  startsAscending (last :: rest) -> startsAscending (mergeLoop last rest).
Proof.
  revert last. induction rest as [|cur rest IH]; intros last Hs; [exact I|].
  simpl. apply startsAscending_cons in Hs. destruct Hs as [Hhd Htl].
  destruct (fst cur <=? snd last).
  - apply IH. apply startsAscending_cons.
    apply startsAscending_cons in Htl. destruct Htl as [Hhd' Htl].
    split; [|exact Htl]. destruct rest; simpl in *; [exact I | lia].
  - apply startsAscending_cons. split; [|apply IH; exact Htl].
    destruct (mergeLoop_head cur rest) as [e [tl [-> _]]]. simpl. exact Hhd.
Qed.

Lemma mergeLoop_valid (last : range) (rest : list range) :
  validRange last -> Forall validRange rest ->
  Forall validRange (mergeLoop last rest).
Proof.
  revert last. induction rest as [|cur rest IH]; intros last Hl Hr; simpl.
  - constructor; [exact Hl | constructor].
  - inversion Hr as [|? ? Hcur Hrest]; subst.
    destruct (fst cur <=? snd last).
    + apply IH; [|exact Hrest]. unfold validRange in *. simpl. lia.
    + constructor; [exact Hl | apply IH; assumption].
Qed.

Lemma mergeRanges_gapped (ranges : list range) : gapped (mergeRanges ranges).
Proof.
  unfold mergeRanges. destruct (sortByStart ranges); [exact I|].
  apply mergeLoop_gapped.
Qed.

Lemma mergeRanges_ascending (ranges : list range) :
  startsAscending (mergeRanges ranges).
Proof.
  unfold mergeRanges. pose proof (sortByStart_ascending ranges) as Hs.
  destruct (sortByStart ranges); [exact I|].
  apply mergeLoop_ascending. exact Hs.
Qed.

Lemma mergeRanges_valid (ranges : list range) :
  Forall validRange ranges -> Forall validRange (mergeRanges ranges).
Proof.
  intros H. apply sortByStart_Forall in H. unfold mergeRanges.
  destruct (sortByStart ranges); [constructor|].
  inversion H; subst. apply mergeLoop_valid; assumption.
Qed.

Lemma clamped_nonEmpty_valid (ranges : list range) :
  Forall validRange (filter nonEmptyRange (map clampRange ranges)).
Proof.
  apply Forall_forall. intros r Hr. apply filter_In in Hr.
  destruct Hr as [Hin Hne]. apply in_map_iff in Hin.
  destruct Hin as [[a b] [<- _]].
  unfold nonEmptyRange, clampRange, validRange in *. simpl in *. lia.
Qed.

Lemma sanitizeRanges_valid (ranges : list range) :
  Forall validRange (sanitizeRanges ranges).
Proof.
  unfold sanitizeRanges. apply mergeRanges_valid, sortByStart_Forall.
  apply clamped_nonEmpty_valid.
Qed.

Lemma clamped_drops_inverted (ranges : list range) :
  filter nonEmptyRange
    (map clampRange (filter (fun r => fst r <? snd r) ranges))
  = filter nonEmptyRange (map clampRange ranges).
Proof.
  induction ranges as [|[a b] ranges IH]; [reflexivity|].
  simpl. destruct (a <? b) eqn:Hab; simpl; rewrite IH; [reflexivity|].
  apply Z.ltb_ge in Hab.
  replace (nonEmptyRange (clampRange (a, b))) with false; [reflexivity|].
  unfold nonEmptyRange, clampRange. simpl. symmetry. lia.
Qed.

Lemma clampRange_idempotent (ranges : list range) :
  map clampRange (map clampRange ranges) = map clampRange ranges.
Proof.
  rewrite map_map. apply map_ext. intros [a b].
  unfold clampRange. simpl. f_equal; lia.
Qed.

Lemma sortByStart_ascending_id (l : list range) :
  startsAscending l -> sortByStart l = l.
Proof.
  induction l as [|r l IH]; intros Hl; [reflexivity|].
  apply startsAscending_cons in Hl. destruct Hl as [Hhd Htl].
  simpl. rewrite (IH Htl). destruct l as [|x l]; [reflexivity|].
  simpl. apply Z.leb_le in Hhd. rewrite Hhd. reflexivity.
Qed.

Lemma mergeLoop_gapped_id (rest : list range) :
  forall last, gapped (last :: rest) -> mergeLoop last rest = last :: rest.
Proof.
  induction rest as [|cur rest IH]; intros last Hg; [reflexivity|].
  apply gapped_cons in Hg. destruct Hg as [Hhd Htl].
  simpl. apply Z.leb_gt in Hhd. rewrite Hhd. rewrite (IH cur Htl). reflexivity.
Qed.

(** Merging is idempotent (the first testable property of the
    specification), for every list of ranges. *)
Theorem mergeRanges_idempotent (ranges : list range) :
  mergeRanges (mergeRanges ranges) = mergeRanges ranges.
Proof.
  pose proof (mergeRanges_ascending ranges) as Ha.
  pose proof (mergeRanges_gapped ranges) as Hg.
  unfold mergeRanges at 1. rewrite (sortByStart_ascending_id _ Ha).
  destruct (mergeRanges ranges) as [|first rest]; [reflexivity|].
  apply mergeLoop_gapped_id. exact Hg.
Qed.

(** ** Slices *)

Lemma firstn_plus (m n : nat) (u : text) :
  firstn (m + n) u = firstn m u ++ firstn n (skipn m u).
Proof.
  revert u. induction m as [|m IH]; intros u; [reflexivity|].
  destruct u as [|c u]; simpl.
  - rewrite firstn_nil. reflexivity.
  - rewrite IH. reflexivity.
Qed.

Lemma skipn_plus (m n : nat) (u : text) :
  skipn (m + n) u = skipn n (skipn m u).
Proof.
  revert u. induction m as [|m IH]; intros u; [reflexivity|].
  destruct u as [|c u]; simpl; [rewrite skipn_nil; reflexivity | apply IH].
Qed.

(** On offsets that are not negative, [slice] is [firstn] of [skipn]. *)
Lemma slice_nonneg (t : text) (a b : Z) :
  0 <= a -> 0 <= b ->
  slice t a b = firstn (Z.to_nat b - Z.to_nat a) (skipn (Z.to_nat a) t).
Proof.
  intros Ha Hb. unfold slice, relIndex.
  destruct (a <? 0) eqn:Ea; [apply Z.ltb_lt in Ea; lia|].
  destruct (b <? 0) eqn:Eb; [apply Z.ltb_lt in Eb; lia|].
  set (len := length t).
  destruct (Z_lt_le_dec a (Z.of_nat len)) as [Hlt | Hge].
  - rewrite (Z.min_l a) by lia.
    assert (Hlen : length (skipn (Z.to_nat a) t) = (len - Z.to_nat a)%nat)
      by apply length_skipn.
    destruct (Z_lt_le_dec b (Z.of_nat len)) as [Hb' | Hb'].
    + rewrite (Z.min_l b) by lia. f_equal. lia.
    + rewrite (Z.min_r b) by lia.
      rewrite !firstn_all2; [reflexivity | lia | lia].
  - rewrite (Z.min_r a) by lia.
    rewrite !(skipn_all2 t); [rewrite !firstn_nil; reflexivity | | ];
      fold len; lia.
Qed.

Lemma slice_split (t : text) (a b c : Z) :
  0 <= a -> a <= b -> b <= c ->
  slice t a c = slice t a b ++ slice t b c.
Proof.
  intros Ha Hab Hbc. rewrite !slice_nonneg by lia.
  replace (Z.to_nat c - Z.to_nat a)%nat
    with ((Z.to_nat b - Z.to_nat a) + (Z.to_nat c - Z.to_nat b))%nat by lia.
  rewrite firstn_plus. f_equal. f_equal.
  rewrite <- skipn_plus. f_equal. lia.
Qed.

Lemma slice_empty (t : text) (a : Z) : 0 <= a -> slice t a a = [].
Proof.
  intros Ha. rewrite slice_nonneg by lia. rewrite Nat.sub_diag. reflexivity.
Qed.

Lemma slice_from_zero (t : text) (b : Z) :
  0 <= b -> slice t 0 b = firstn (Z.to_nat b) t.
Proof.
  intros Hb. rewrite slice_nonneg by lia. simpl. rewrite Nat.sub_0_r.
  reflexivity.
Qed.

Lemma skipn_slice (t : text) (a b : Z) :
  0 <= a -> a <= b ->
  skipn (Z.to_nat a) t = slice t a b ++ skipn (Z.to_nat b) t.
Proof.
  intros Ha Hab. rewrite slice_nonneg by lia.
  replace (Z.to_nat b) with (Z.to_nat a + (Z.to_nat b - Z.to_nat a))%nat
    at 2 by lia.
  rewrite skipn_plus. symmetry. apply firstn_skipn.
Qed.

Lemma sliceFrom_skipn (t : text) (a : Z) :
  0 <= a -> sliceFrom t a = skipn (Z.to_nat a) t.
Proof.
  intros Ha. unfold sliceFrom. rewrite slice_nonneg by lia.
  apply firstn_all2. rewrite length_skipn. lia.
Qed.

(** ** The walk of [replaceOutsideRanges] *)

Lemma Image_app (replacement : text) (regex : option RegExp)
  (a A b B : text) :
  Image replacement regex a A -> Image replacement regex b B ->
  Image replacement regex (a ++ b) (A ++ B).
Proof.
  intros Ha Hb. induction Ha as [|p src out _ IH|g src out _ IH].
  - exact Hb.
  - rewrite <- !app_assoc. apply Image_copied. exact IH.
  - rewrite <- !app_assoc. apply Image_replaced. exact IH.
Qed.

Lemma Image_copy (replacement : text) (regex : option RegExp) (p : text) :
  Image replacement regex p p.
Proof.
  rewrite <- (app_nil_r p). apply Image_copied. constructor.
Qed.

Lemma Image_replace (replacement : text) (regex : option RegExp) (g : text) :
  Image replacement regex g (replaceOpencode g replacement regex).
Proof.
  rewrite <- (app_nil_r g) at 1.
  rewrite <- (app_nil_r (replaceOpencode g replacement regex)).
  apply Image_replaced. constructor.
Qed.

Section Walk.

Variables (t replacement : text) (regex : option RegExp).

Lemma outsideStep_result (acc : text) (st : text * Z) (r : range) :
  outsideStep t replacement regex (acc ++ fst st, snd st) r
  = (acc ++ fst (outsideStep t replacement regex st r),
     snd (outsideStep t replacement regex st r)).
Proof.
  destruct st as [res c], r as [s e]. simpl.
  destruct (s >? c); simpl; rewrite <- ?app_assoc; reflexivity.
Qed.

Lemma fold_outsideStep_result (l : list range) (acc : text) (st : text * Z) :
  fold_left (outsideStep t replacement regex) l (acc ++ fst st, snd st)
  = (acc ++ fst (fold_left (outsideStep t replacement regex) l st),
     snd (fold_left (outsideStep t replacement regex) l st)).
Proof.
  revert st. induction l as [|r l IH]; intros st; cbn [fold_left].
  - reflexivity.
  - rewrite outsideStep_result. apply IH.
Qed.

Lemma outsideFinish_result (acc : text) (st : text * Z) :
  outsideFinish t replacement regex (acc ++ fst st, snd st)
  = acc ++ outsideFinish t replacement regex st.
Proof.
  destruct st as [res c]. simpl.
  destruct (c <? Z.of_nat (length t)); [rewrite app_assoc|]; reflexivity.
Qed.

Lemma walkFrom_cons (s e : Z) (l : list range) (cursor : Z) :
  walkFrom t replacement regex ((s, e) :: l) cursor
  = (if s >? cursor
     then replaceOpencode (slice t cursor s) replacement regex else [])
    ++ slice t s e ++ walkFrom t replacement regex l (Z.max cursor e).
Proof.
  unfold walkFrom. cbn [fold_left].
  set (gap := if s >? cursor
              then replaceOpencode (slice t cursor s) replacement regex
              else []).
  replace (outsideStep t replacement regex ([], cursor) (s, e))
    with ((gap ++ slice t s e) ++ fst (@nil ascii, Z.max cursor e),
          snd (@nil ascii, Z.max cursor e)).
  - rewrite fold_outsideStep_result, outsideFinish_result.
    rewrite <- app_assoc. reflexivity.
  - unfold outsideStep, gap. simpl. rewrite app_nil_r.
    destruct (s >? cursor); reflexivity.
Qed.

Lemma walkFrom_nil (cursor : Z) :
  0 <= cursor ->
  walkFrom t replacement regex [] cursor
  = if cursor <? Z.of_nat (length t)
    then replaceOpencode (skipn (Z.to_nat cursor) t) replacement regex
    else [].
Proof.
  intros Hc. unfold walkFrom. simpl.
  rewrite sliceFrom_skipn by exact Hc. reflexivity.
Qed.

Lemma ahead_tail (cursor s e : Z) (l : list range) :
  ahead cursor ((s, e) :: l) ->
  cursor <= s /\ s < e /\ 0 <= s /\ ahead e l.
Proof.
  intros [Hv [Hg Hc]]. inversion Hv as [|? ? Hr Hl]; subst.
  apply gapped_cons in Hg. destruct Hg as [Hhd Hg].
  unfold validRange in Hr. simpl in Hr, Hc, Hhd.
  repeat split; try lia; try assumption.
  destruct l as [|r l]; [exact I | lia].
Qed.

Lemma gap_image (cursor s : Z) :
  0 <= cursor -> cursor <= s ->
  Image replacement regex (slice t cursor s)
    (if s >? cursor
     then replaceOpencode (slice t cursor s) replacement regex else []).
Proof.
  intros Hc Hs. destruct (s >? cursor) eqn:E.
  - apply Image_replace.
  - assert (s = cursor) by lia. subst. rewrite slice_empty by lia.
    constructor.
Qed.

Lemma walkFrom_image (l : list range) :
  forall cursor, 0 <= cursor -> ahead cursor l ->
  Image replacement regex (skipn (Z.to_nat cursor) t) (walkFrom t replacement regex l cursor).
Proof.
  induction l as [|[s e] l IH]; intros cursor Hc Ha.
  - rewrite walkFrom_nil by exact Hc.
    destruct (cursor <? Z.of_nat (length t)) eqn:E.
    + apply Image_replace.
    + rewrite skipn_all2 by lia. constructor.
  - apply ahead_tail in Ha. destruct Ha as [Hcs [Hse [Hs Ha]]].
    rewrite walkFrom_cons.
    rewrite (skipn_slice t cursor s) by lia.
    rewrite (skipn_slice t s e) by lia.
    rewrite Z.max_r by lia.
    apply Image_app; [apply gap_image; lia|].
    apply Image_copied. apply IH; [lia | exact Ha].
Qed.

Lemma ahead_In (l : list range) :
  forall cursor R, ahead cursor l -> In R l -> cursor <= fst R.
Proof.
  induction l as [|[s e] l IH]; intros cursor R Ha Hin; [destruct Hin|].
  apply ahead_tail in Ha. destruct Ha as [Hcs [Hse [Hs Ha]]].
  destruct Hin as [<- | Hin]; [exact Hcs|].
  specialize (IH e R Ha Hin). lia.
Qed.

(** A range of the walk is copied, between the image of what stands
    before it and the image of what stands after it. *)
Lemma walkFrom_keeps (l : list range) :
  forall cursor R, 0 <= cursor -> ahead cursor l -> In R l ->
  exists A B,
    walkFrom t replacement regex l cursor = A ++ slice t (fst R) (snd R) ++ B /\
    Image replacement regex (slice t cursor (fst R)) A /\
    Image replacement regex (skipn (Z.to_nat (snd R)) t) B.
Proof.
  induction l as [|[s e] l IH]; intros cursor R Hc Ha Hin; [destruct Hin|].
  pose proof (ahead_tail _ _ _ _ Ha) as [Hcs [Hse [Hs Ha']]].
  rewrite walkFrom_cons. rewrite Z.max_r by lia.
  destruct Hin as [<- | Hin]; simpl.
  - eexists _, _. split; [reflexivity|].
    split; [apply gap_image; lia | apply walkFrom_image; [lia | exact Ha']].
  - destruct (IH e R ltac:(lia) Ha' Hin) as [A [B [Heq [HA HB]]]].
    pose proof (ahead_In l e R Ha' Hin) as HR.
    rewrite Heq.
    exists ((if s >? cursor
             then replaceOpencode (slice t cursor s) replacement regex
             else []) ++ slice t s e ++ A), B.
    split; [rewrite <- !app_assoc; reflexivity|].
    split; [|exact HB].
    rewrite (slice_split t cursor s (fst R)) by lia.
    rewrite (slice_split t s e (fst R)) by lia.
    apply Image_app; [apply gap_image; lia|].
    apply Image_copied. exact HA.
Qed.

End Walk.

(** ** Coverage by the merged ranges *)

Lemma mergeLoop_covers (rest : list range) :
  forall last, startsAscending (last :: rest) ->
  forall x, In x (last :: rest) ->
  exists R, In R (mergeLoop last rest) /\ covers R x.
Proof.
  induction rest as [|cur rest IH]; intros last Hs x Hin.
  - destruct Hin as [<- | []]. exists last.
    split; [left; reflexivity | unfold covers; lia].
  - apply startsAscending_cons in Hs. destruct Hs as [Hhd Htl].
    simpl. destruct (fst cur <=? snd last) eqn:Hle.
    + set (last' := (fst last, Z.max (snd last) (snd cur))).
      assert (Hs' : startsAscending (last' :: rest)).
      { apply startsAscending_cons.
        apply startsAscending_cons in Htl. destruct Htl as [Hhd' Htl].
        split; [|exact Htl]. destruct rest; simpl in *; [exact I | lia]. }
      assert (Hvia : forall y, covers last' y ->
                exists R, In R (mergeLoop last' rest) /\ covers R y).
      { intros y Hy. destruct (IH last' Hs' last' (or_introl eq_refl))
          as [R [HR HRc]].
        exists R. split; [exact HR|].
        unfold covers in *. destruct HRc, Hy. split; eapply Z.le_trans; eauto. }
      destruct Hin as [<- | [<- | Hin]].
      * apply Hvia. unfold covers, last'. simpl. lia.
      * apply Hvia. unfold covers, last'. simpl. lia.
      * apply (IH last' Hs'). right. exact Hin.
    + destruct Hin as [<- | Hin].
      * exists last. split; [left; reflexivity | unfold covers; lia].
      * destruct (IH cur Htl x Hin) as [R [HR HRc]].
        exists R. split; [right; exact HR | exact HRc].
Qed.

Lemma mergeRanges_covers (ranges : list range) (x : range) :
  In x ranges -> exists R, In R (mergeRanges ranges) /\ covers R x.
Proof.
  intros Hin. apply sortByStart_In in Hin. unfold mergeRanges.
  pose proof (sortByStart_ascending ranges) as Hs.
  destruct (sortByStart ranges) as [|first rest]; [destruct Hin|].
  apply mergeLoop_covers; assumption.
Qed.

Lemma sanitizeRanges_covers (ranges : list range) (x : range) :
  In x ranges -> validRange x ->
  exists R, In R (sanitizeRanges ranges) /\ covers R x.
Proof.
  intros Hin Hv. unfold sanitizeRanges. apply mergeRanges_covers.
  apply sortByStart_In. apply filter_In. split.
  - apply in_map_iff. exists x. split; [|exact Hin].
    destruct x as [a b]. unfold clampRange, validRange in *. simpl in *.
    f_equal; lia.
  - unfold nonEmptyRange, validRange in *. lia.
Qed.

Lemma sanitizeRanges_ahead (ranges : list range) :
  ahead 0 (sanitizeRanges ranges).
Proof.
  pose proof (sanitizeRanges_valid ranges) as Hv.
  split; [exact Hv|]. split; [apply mergeRanges_gapped|].
  destruct (sanitizeRanges ranges) as [|r l]; [exact I|].
  inversion Hv as [|? ? Hr _]; subst. unfold validRange in Hr. lia.
Qed.

Lemma replaceOutsideRanges_walk (t replacement : text) (ranges : list range)
  (regex : option RegExp) :
  ranges <> [] ->
  replaceOutsideRanges t replacement ranges regex
  = walkFrom t replacement regex (sanitizeRanges ranges) 0.
Proof.
  destruct ranges; [congruence | reflexivity].
Qed.

Lemma replaceOutsideRanges_image (t replacement : text)
  (ranges : list range) (regex : option RegExp) :
  Image replacement regex t (replaceOutsideRanges t replacement ranges regex).
Proof.
  destruct ranges as [|r ranges].
  - apply Image_replace.
  - rewrite replaceOutsideRanges_walk by discriminate.
    apply (walkFrom_image t replacement regex _ 0); [lia|].
    apply sanitizeRanges_ahead.
Qed.

(** The walk of [replaceOutsideRanges] (as [helpers.ts] and the current
    [index.ts] have it) consumes every code unit of the text exactly
    once, whatever the ranges: the result is the text cut into
    consecutive pieces, each copied or replaced once. *)
Theorem replaceOutsideRanges_partitions (t replacement : text)
  (ranges : list range) (regex : option RegExp) :
  Image replacement regex t (replaceOutsideRanges t replacement ranges regex).
Proof.
  apply replaceOutsideRanges_image.
Qed.

(** A range handed to [replaceOutsideRanges] is copied to the result,
    between an image of the text before it and an image of the text after
    it. *)
Lemma replaceOutsideRanges_keeps (t replacement : text) (ranges : list range)
  (regex : option RegExp) (s e : Z) :
  In (s, e) ranges -> 0 <= s -> s < e ->
  exists A B,
    replaceOutsideRanges t replacement ranges regex = A ++ slice t s e ++ B /\
    Image replacement regex (firstn (Z.to_nat s) t) A /\
    Image replacement regex (skipn (Z.to_nat e) t) B.
Proof.
  intros Hin Hs Hse.
  rewrite replaceOutsideRanges_walk by (intros ->; destruct Hin).
  destruct (sanitizeRanges_covers ranges (s, e) Hin) as [[S E] [HR [HS HE]]];
    [unfold validRange; simpl; lia|].
  simpl in HS, HE.
  pose proof (sanitizeRanges_ahead ranges) as Ha.
  pose proof (ahead_In _ _ _ Ha HR) as HS0. simpl in HS0.
  destruct (walkFrom_keeps t replacement regex _ 0 (S, E) ltac:(lia) Ha HR)
    as [A [B [Heq [HA HB]]]].
  simpl in Heq, HA, HB. rewrite Heq.
  rewrite (slice_split t S s E) by lia.
  rewrite (slice_split t s e E) by lia.
  exists (A ++ slice t S s), (slice t e E ++ B).
  split; [rewrite <- !app_assoc; reflexivity|].
  split.
  - rewrite <- slice_from_zero by lia.
    rewrite (slice_split t 0 S s) by lia.
    apply Image_app; [exact HA | apply Image_copy].
  - rewrite (skipn_slice t e E) by lia.
    apply Image_copied. exact HB.
Qed.

(** ** Detected ranges *)

Local Close Scope Z_scope.

Lemma tailRun_positive (consumed : nat) (t : text) (n : nat) :
  tailRun consumed t = Some n -> 0 < n.
Proof.
  unfold tailRun. destruct (runLength nonTerminator t =? 0)%nat eqn:E;
    [discriminate|].
  apply Nat.eqb_neq in E. intros [= <-]. lia.
Qed.

Lemma literalThenRun_positive (ic : bool) (consumed : nat) (p t : text)
  (n : nat) :
  literalThenRun ic consumed p t = Some n -> 0 < n.
Proof.
  unfold literalThenRun. destruct (stripPrefix ic p t); [|discriminate].
  apply tailRun_positive.
Qed.

Lemma optionalChar_positive (ic : bool) (x : ascii) (consumed : nat)
  (t : text) (k : nat -> text -> option nat) (n : nat) :
  (forall c u m, k c u = Some m -> 0 < m) ->
  optionalChar ic x consumed t k = Some n -> 0 < n.
Proof.
  intros Hk. unfold optionalChar. destruct t as [|c t]; [apply Hk|].
  destruct (Ascii.eqb (canonicalize ic x) (canonicalize ic c)); [|apply Hk].
  destruct (k (S consumed) t) eqn:E; [|apply Hk].
  intros [= <-]. eapply Hk, E.
Qed.

Lemma urlMatchAt_positive (prev : option ascii) (t : text) (n : nat) :
  urlMatchAt prev t = Some n -> 0 < n.
Proof.
  unfold urlMatchAt. destruct (stripPrefix true (lit "http") t); [|discriminate].
  apply optionalChar_positive. intros c u m. apply literalThenRun_positive.
Qed.

Lemma orElse_positive (a b : option nat) (n : nat) :
  (forall m, a = Some m -> 0 < m) -> (forall m, b = Some m -> 0 < m) ->
  orElse a b = Some n -> 0 < n.
Proof.
  destruct a; simpl; auto.
Qed.

Lemma drivePathAt_positive (prev : option ascii) (t : text) (n : nat) :
  drivePathAt prev t = Some n -> 0 < n.
Proof.
  unfold drivePathAt. destruct t as [|c t]; [discriminate|].
  destruct (wordBoundaryBefore prev && isAlpha c); [|discriminate].
  apply literalThenRun_positive.
Qed.

Lemma relativePathAt_positive (t : text) (n : nat) :
  relativePathAt t = Some n -> 0 < n.
Proof.
  unfold relativePathAt. destruct t as [|c t]; [discriminate|].
  destruct (Ascii.eqb c ".") eqn:E.
  - apply Ascii.eqb_eq in E. subst c.
    apply optionalChar_positive. intros c u m. apply literalThenRun_positive.
  - intros H. exfalso. revert H.
    destruct c as [[] [] [] [] [] [] [] []]; discriminate.
Qed.

Lemma pathMatchAt_positive (prev : option ascii) (t : text) (n : nat) :
  pathMatchAt prev t = Some n -> 0 < n.
Proof.
  unfold pathMatchAt. apply orElse_positive.
  - intros m. apply drivePathAt_positive.
  - intros m. apply orElse_positive.
    + intros m'. apply literalThenRun_positive.
    + intros m'. apply relativePathAt_positive.
Qed.

Lemma matchAllLoop_valid (matcher : option ascii -> text -> option nat) :
  (forall prev t n, matcher prev t = Some n -> 0 < n) ->
  forall t pos skip prev s e,
    In (s, e) (matchAllLoop matcher pos skip prev t) ->
    (Z.of_nat pos <= s /\ s < e)%Z.
Proof.
  intros Hm. induction t as [|c t IH]; intros pos skip prev s e Hin;
    [destruct Hin|].
  simpl in Hin. destruct skip as [|k].
  - destruct (matcher prev (c :: t)) as [len|] eqn:E.
    + destruct Hin as [[= <- <-] | Hin].
      * apply Hm in E. lia.
      * apply IH in Hin. lia.
    + apply IH in Hin. lia.
  - apply IH in Hin. lia.
Qed.

Lemma protectedRanges_valid (t : text) (s e : Z) :
  In (s, e) (protectedRanges t) -> (0 <= s /\ s < e)%Z.
Proof.
  unfold protectedRanges, matchAll. intros Hin. apply in_app_or in Hin.
  destruct Hin as [Hin | Hin].
  - apply (matchAllLoop_valid urlMatchAt urlMatchAt_positive) in Hin. lia.
  - apply (matchAllLoop_valid pathMatchAt pathMatchAt_positive) in Hin. lia.
Qed.

(** ** Splitting on a delimiter and joining again *)

Lemma isPrefix_split (p t : text) :
  isPrefix p t = true -> t = p ++ skipn (length p) t.
Proof.
  revert t. induction p as [|a p IH]; intros t H; [reflexivity|].
  destruct t as [|b t]; [discriminate|].
  simpl in H. apply andb_prop in H. destruct H as [Hab Hp].
  apply Ascii.eqb_eq in Hab. subst b. simpl. f_equal. apply IH, Hp.
Qed.

Lemma isPrefix_length (p t : text) :
  isPrefix p t = true -> length p <= length t.
Proof.
  revert t. induction p as [|a p IH]; intros t H; simpl; [lia|].
  destruct t as [|b t]; [discriminate|].
  simpl in H. apply andb_prop in H. destruct H as [_ Hp].
  apply IH in Hp. simpl. lia.
Qed.

Lemma splitLoop_nonempty (sep : text) (t : text) :
  forall skip cur, splitLoop sep skip cur t <> [].
Proof.
  induction t as [|c t IH]; intros skip cur; simpl; [discriminate|].
  destruct skip; [|apply IH].
  destruct (isPrefix sep (c :: t)); [discriminate | apply IH].
Qed.

Lemma join_cons (sep p : text) (rest : list text) :
  rest <> [] -> join sep (p :: rest) = p ++ sep ++ join sep rest.
Proof.
  destruct rest; [congruence | reflexivity].
Qed.

Lemma join_splitLoop (sep : text) :
  sep <> [] ->
  forall t skip cur, skip <= length t ->
  join sep (splitLoop sep skip cur t) = cur ++ skipn skip t.
Proof.
  intros Hsep. induction t as [|c t IH]; intros skip cur Hskip.
  - simpl in Hskip. replace skip with 0 by lia. simpl.
    rewrite app_nil_r. reflexivity.
  - destruct skip as [|k].
    + cbn [splitLoop skipn].
      destruct (isPrefix sep (c :: t)) eqn:Hp.
      * rewrite join_cons by apply splitLoop_nonempty.
        pose proof (isPrefix_length _ _ Hp) as Hlen.
        destruct sep as [|s0 sep]; [congruence|].
        rewrite IH by (simpl in *; lia). f_equal.
        etransitivity; [|symmetry; apply (isPrefix_split _ _ Hp)].
        simpl. rewrite Nat.sub_0_r. reflexivity.
      * rewrite IH by lia. simpl. rewrite <- app_assoc. reflexivity.
    + cbn [splitLoop skipn]. apply IH. simpl in Hskip. lia.
Qed.

(** Joining the pieces of a split with the delimiter gives the text
    back: the pieces are what stands between the delimiters. *)
Lemma join_split (sep t : text) : sep <> [] -> join sep (split sep t) = t.
Proof.
  intros Hsep. unfold split. rewrite join_splitLoop by (exact Hsep || lia).
  reflexivity.
Qed.

Lemma mapiFrom_length {A B : Type} (f : A -> nat -> B) (l : list A) :
  forall i, length (mapiFrom f i l) = length l.
Proof.
  induction l as [|x l IH]; intros i; simpl; [reflexivity|].
  rewrite IH. reflexivity.
Qed.

Lemma mapiFrom_nth {A B : Type} (f : A -> nat -> B) (l : list A) :
  forall i j x, nth_error l j = Some x ->
  nth_error (mapiFrom f i l) j = Some (f x (i + j)).
Proof.
  induction l as [|y l IH]; intros i j x Hj; [destruct j; discriminate|].
  destruct j as [|j]; simpl in *.
  - injection Hj as ->. rewrite Nat.add_0_r. reflexivity.
  - rewrite (IH (S i) j x Hj). f_equal. f_equal. lia.
Qed.

Lemma mapi_nth {A B : Type} (f : A -> nat -> B) (l : list A) (j : nat) (x : A) :
  nth_error l j = Some x -> nth_error (mapi f l) j = Some (f x j).
Proof.
  intros H. unfold mapi. rewrite (mapiFrom_nth f l 0 j x H). reflexivity.
Qed.

Lemma join_member (sep : text) (parts : list text) :
  forall j x, nth_error parts j = Some x ->
  exists A B, join sep parts = A ++ x ++ B.
Proof.
  induction parts as [|p parts IH]; intros j x Hj; [destruct j; discriminate|].
  destruct j as [|j]; simpl in Hj.
  - injection Hj as ->. destruct parts as [|q parts].
    + exists [], []. simpl. rewrite app_nil_r. reflexivity.
    + exists [], (sep ++ join sep (q :: parts)). reflexivity.
  - destruct (IH j x Hj) as [A [B Heq]].
    destruct parts as [|q parts]; [destruct j; discriminate|].
    rewrite join_cons by discriminate. rewrite Heq.
    exists (p ++ sep ++ A), B. rewrite <- !app_assoc. reflexivity.
Qed.

Lemma TICK_nonempty : TICK <> [].
Proof. discriminate. Qed.

Lemma FENCE_nonempty : FENCE <> [].
Proof. discriminate. Qed.

(** The guard of [replaceInText] on the empty string returns what the
    general path would. *)
Lemma replaceInText_blocks (t replacement : text) (regex : option RegExp) :
  replaceInText t replacement regex
  = join FENCE
      (mapi (fun block index =>
               if (index mod 2 =? 1)%nat then block
               else replaceInInlineCodeSegments block replacement regex)
            (split FENCE t)).
Proof.
  destruct t; reflexivity.
Qed.

(** Mapping the pieces to images of themselves and joining them with the
    same delimiter gives an image of the joined pieces. *)
Lemma mapiFrom_nonempty {A B : Type} (f : A -> nat -> B) (i : nat) (x : A)
  (l : list A) :
  mapiFrom f i (x :: l) <> [].
Proof. discriminate. Qed.

Lemma mapiFrom_cons {A B : Type} (f : A -> nat -> B) (i : nat) (x : A)
  (l : list A) :
  mapiFrom f i (x :: l) = f x i :: mapiFrom f (S i) l.
Proof. reflexivity. Qed.

Section JoinImages.

Variables (replacement : text) (regex : option RegExp).
Variables (sep : text) (f : text -> nat -> text).
Hypothesis f_image : forall x i, Image replacement regex x (f x i).

Lemma Image_join_mapi (parts : list text) :
  forall i, Image replacement regex (join sep parts)
              (join sep (mapiFrom f i parts)).
Proof.
  induction parts as [|p parts IH]; intros i; [constructor|].
  destruct parts as [|q parts]; [apply f_image|].
  rewrite mapiFrom_cons.
  rewrite (join_cons sep p (q :: parts)) by discriminate.
  rewrite (join_cons sep (f p i) (mapiFrom f (S i) (q :: parts)))
    by apply mapiFrom_nonempty.
  apply Image_app; [apply f_image|].
  apply Image_copied. apply (IH (S i)).
Qed.

Lemma join_mapi_member (parts : list text) :
  forall i j x, nth_error parts j = Some x ->
  exists P Q A B,
    join sep parts = P ++ x ++ Q /\
    join sep (mapiFrom f i parts) = A ++ f x (i + j) ++ B /\
    Image replacement regex P A /\ Image replacement regex Q B.
Proof.
  induction parts as [|p parts IH]; intros i j x Hj; [destruct j; discriminate|].
  destruct j as [|j]; simpl in Hj.
  - injection Hj as ->. rewrite Nat.add_0_r.
    destruct parts as [|q parts].
    + exists [], [], [], []. cbn. rewrite !app_nil_r.
      repeat split; constructor.
    + exists [], (sep ++ join sep (q :: parts)), [],
        (sep ++ join sep (mapiFrom f (S i) (q :: parts))).
      rewrite mapiFrom_cons.
      rewrite (join_cons sep x (q :: parts)) by discriminate.
      rewrite (join_cons sep (f x i) (mapiFrom f (S i) (q :: parts)))
        by apply mapiFrom_nonempty.
      repeat split; [constructor|].
      apply Image_copied. apply Image_join_mapi.
  - destruct (IH (S i) j x Hj) as [P [Q [A [B [HP [HA [HPA HQB]]]]]]].
    destruct parts as [|q parts]; [destruct j; discriminate|].
    exists (p ++ sep ++ P), Q, (f p i ++ sep ++ A), B.
    rewrite (mapiFrom_cons f i p).
    rewrite (join_cons sep p (q :: parts)) by discriminate.
    rewrite (join_cons sep (f p i) (mapiFrom f (S i) (q :: parts)))
      by apply mapiFrom_nonempty.
    rewrite HP, HA. replace (i + S j) with (S i + j) by lia.
    rewrite <- !app_assoc. repeat split; [|exact HQB].
    apply Image_app; [apply f_image|]. apply Image_copied. exact HPA.
Qed.

End JoinImages.

Lemma replaceInInlineCodeSegments_partitions (b replacement : text)
  (regex : option RegExp) :
  Image replacement regex b (replaceInInlineCodeSegments b replacement regex).
Proof.
  rewrite <- (join_split TICK b TICK_nonempty) at 1.
  unfold replaceInInlineCodeSegments, mapi. apply Image_join_mapi.
  intros x i. destruct (i mod 2 =? 1)%nat; [apply Image_copy|].
  apply replaceOutsideRanges_image.
Qed.

(** The whole of [replaceInText] consumes every code unit of the text
    exactly once: delimiters, code and protected ranges are copied,
    everything else goes once through [replaceOpencode]. *)
Theorem replaceInText_partitions (t replacement : text)
  (regex : option RegExp) :
  Image replacement regex t (replaceInText t replacement regex).
Proof.
  rewrite replaceInText_blocks.
  rewrite <- (join_split FENCE t FENCE_nonempty) at 1.
  unfold mapi. apply Image_join_mapi.
  intros x i. destruct (i mod 2 =? 1)%nat; [apply Image_copy|].
  apply replaceInInlineCodeSegments_partitions.
Qed.

(** ** Code fences and inline code *)

(** C2.  Let [b] be the piece number [i] of the text split on the triple
    backtick.  The text is its pieces joined by the delimiter, and the
    result of [replaceInText] is as many pieces joined by the same
    delimiter.  When [i] is odd (inside a fence), piece [i] of the result
    is [b] itself.  When [i] is even, piece [i] of the result is in turn
    as many pieces as [b] has when split on the single backtick, joined
    by it, and each odd-indexed one (inline code) is the piece of [b]
    itself.  Delimiters are only ever put back between pieces, never
    rewritten. *)
Theorem code_segments_untouched (t replacement : text)
  (regex : option RegExp) (i : nat) (b : text) :
  nth_error (split FENCE t) i = Some b ->
  join FENCE (split FENCE t) = t /\
  join TICK (split TICK b) = b /\
  exists outs,
    replaceInText t replacement regex = join FENCE outs /\
    length outs = length (split FENCE t) /\
    (i mod 2 = 1 -> nth_error outs i = Some b) /\
    (i mod 2 <> 1 ->
     exists inner,
       nth_error outs i = Some (join TICK inner) /\
       length inner = length (split TICK b) /\
       forall j g, nth_error (split TICK b) j = Some g -> j mod 2 = 1 ->
                   nth_error inner j = Some g).
Proof.
  intros Hb.
  split; [apply join_split, FENCE_nonempty|].
  split; [apply join_split, TICK_nonempty|].
  eexists. split; [apply replaceInText_blocks|].
  split; [apply mapiFrom_length|].
  split.
  - intros Hodd. rewrite (mapi_nth _ _ i b Hb).
    apply Nat.eqb_eq in Hodd. rewrite Hodd. reflexivity.
  - intros Heven. rewrite (mapi_nth _ _ i b Hb).
    apply Nat.eqb_neq in Heven. rewrite Heven.
    eexists. split; [reflexivity|].
    split; [apply mapiFrom_length|].
    intros j g Hg Hodd. rewrite (mapi_nth _ _ j g Hg).
    apply Nat.eqb_eq in Hodd. rewrite Hodd. reflexivity.
Qed.

(** The hypothesis of [code_segments_untouched] at a text with a fenced
    block and an inline span. *)
Lemma code_segments_untouched_witness :
  let t := lit "a `opencode` b ```opencode``` c" in
  join FENCE (split FENCE t) = t /\
  join TICK (split TICK (lit "opencode")) = lit "opencode" /\
  exists outs,
    replaceInText t (lit "Renamer") None = join FENCE outs /\
    length outs = length (split FENCE t) /\
    (1 mod 2 = 1 -> nth_error outs 1 = Some (lit "opencode")) /\
    (1 mod 2 <> 1 ->
     exists inner,
       nth_error outs 1 = Some (join TICK inner) /\
       length inner = length (split TICK (lit "opencode")) /\
       forall j g, nth_error (split TICK (lit "opencode")) j = Some g ->
                   j mod 2 = 1 -> nth_error inner j = Some g).
Proof.
  exact (code_segments_untouched
           (lit "a `opencode` b ```opencode``` c") (lit "Renamer") None 1
           (lit "opencode") eq_refl).
Defined.

(** ** Protection of URLs and paths *)

(** C1.  Let [g] be a plain piece of the text: an even-indexed piece (on
    the single backtick) of an even-indexed piece (on the triple
    backtick).  Every range the URL pattern or the path pattern matches
    in [g] is copied, whatever the replacement and the matcher.  The
    result of [replaceExcludingUrlsAndPaths] on [g] is an image of the
    text before the range, then the matched substring unchanged, then an
    image of the text after it.  So is the result of [replaceInText] on
    the whole text: the text is [P], the matched substring, [Q], and the
    result is an image of [P], the matched substring, an image of [Q]. *)
Theorem protected_substrings_survive (t replacement : text)
  (regex : option RegExp) (i j : nat) (b g : text) (s e : Z) :
  nth_error (split FENCE t) i = Some b -> i mod 2 = 0 ->
  nth_error (split TICK b) j = Some g -> j mod 2 = 0 ->
  In (s, e) (protectedRanges g) ->
  (exists A B,
     replaceExcludingUrlsAndPaths g replacement regex
       = A ++ slice g s e ++ B /\
     Image replacement regex (firstn (Z.to_nat s) g) A /\
     Image replacement regex (skipn (Z.to_nat e) g) B) /\
  (exists P Q A B,
     t = P ++ slice g s e ++ Q /\
     replaceInText t replacement regex = A ++ slice g s e ++ B /\
     Image replacement regex P A /\ Image replacement regex Q B).
Proof.
  intros Hb Hi Hg Hj Hin.
  destruct (protectedRanges_valid g s e Hin) as [Hs Hse].
  destruct (replaceOutsideRanges_keeps g replacement (protectedRanges g)
              regex s e Hin Hs Hse) as [A0 [B0 [Heq [HA0 HB0]]]].
  split; [exists A0, B0; auto|].
  assert (Hcut : g = firstn (Z.to_nat s) g ++ slice g s e
                     ++ skipn (Z.to_nat e) g).
  { rewrite <- (skipn_slice g s e) by lia. symmetry. apply firstn_skipn. }
  destruct (join_mapi_member replacement regex TICK
              (fun segment index =>
                 if (index mod 2 =? 1)%nat then segment
                 else replaceExcludingUrlsAndPaths segment replacement regex)
              ltac:(intros x k; cbv beta; destruct (k mod 2 =? 1)%nat;
                    [apply Image_copy | apply replaceOutsideRanges_image])
              (split TICK b) 0 j g Hg)
    as [P1 [Q1 [A1 [B1 [HP1 [HO1 [HI1 HJ1]]]]]]].
  rewrite join_split in HP1 by apply TICK_nonempty.
  cbn [Nat.add] in HO1. rewrite Hj in HO1. cbn [Nat.eqb] in HO1.
  destruct (join_mapi_member replacement regex FENCE
              (fun block index =>
                 if (index mod 2 =? 1)%nat then block
                 else replaceInInlineCodeSegments block replacement regex)
              ltac:(intros x k; cbv beta; destruct (k mod 2 =? 1)%nat;
                    [apply Image_copy
                    | apply replaceInInlineCodeSegments_partitions])
              (split FENCE t) 0 i b Hb)
    as [P2 [Q2 [A2 [B2 [HP2 [HO2 [HI2 HJ2]]]]]]].
  rewrite join_split in HP2 by apply FENCE_nonempty.
  cbn [Nat.add] in HO2. rewrite Hi in HO2. cbn [Nat.eqb] in HO2.
  exists (P2 ++ P1 ++ firstn (Z.to_nat s) g),
         (skipn (Z.to_nat e) g ++ Q1 ++ Q2),
         (A2 ++ A1 ++ A0), (B0 ++ B1 ++ B2).
  split; [|split; [|split]].
  - rewrite HP2, HP1 at 1. rewrite Hcut at 1.
    rewrite <- !app_assoc. reflexivity.
  - rewrite replaceInText_blocks. unfold mapi. rewrite HO2.
    unfold replaceInInlineCodeSegments, mapi. rewrite HO1.
    unfold replaceExcludingUrlsAndPaths in Heq |- *. rewrite Heq.
    rewrite <- !app_assoc. reflexivity.
  - repeat apply Image_app; assumption.
  - repeat apply Image_app; assumption.
Qed.

(** The hypotheses of [protected_substrings_survive] at a text with a URL
    between two occurrences of the target word. *)
Lemma protected_substrings_survive_witness :
  let t := lit "opencode at https://opencode.ai now" in
  (exists A B,
     replaceExcludingUrlsAndPaths t (lit "Renamer") None
       = A ++ lit "https://opencode.ai" ++ B /\
     Image (lit "Renamer") None (lit "opencode at ") A /\
     Image (lit "Renamer") None (lit " now") B) /\
  (exists P Q A B,
     t = P ++ lit "https://opencode.ai" ++ Q /\
     replaceInText t (lit "Renamer") None
       = A ++ lit "https://opencode.ai" ++ B /\
     Image (lit "Renamer") None P A /\ Image (lit "Renamer") None Q B).
Proof.
  exact (protected_substrings_survive
           (lit "opencode at https://opencode.ai now") (lit "Renamer") None
           0 0 _ _ 12%Z 31%Z eq_refl eq_refl eq_refl eq_refl
           (or_introl eq_refl)).
Defined.

(** ** One pass of [replace] *)

Lemma litPrefix_length (ic : bool) (p t : text) :
  litPrefix ic p t = true -> length p <= length t.
Proof.
  revert t. induction p as [|a p IH]; intros t H; simpl; [lia|].
  destruct t as [|b t]; [discriminate|].
  simpl in H. apply andb_prop in H. destruct H as [_ Hp].
  apply IH in Hp. simpl. lia.
Qed.

Lemma matchAt_length (re : RegExp) (t : text) (len : nat) :
  matchAt re t = Some len -> len <= length t.
Proof.
  unfold matchAt. generalize (alternatives re) as alts.
  induction alts as [|a alts IH]; simpl; [discriminate|].
  destruct (litPrefix (ignoreCase re) a t) eqn:E; [|exact IH].
  intros [= <-]. eapply litPrefix_length, E.
Qed.

Lemma replaceLoop_pieces (re : RegExp) (replacement : text) (t : text) :
  forall skip before, skip <= length t ->
  exists pieces,
    sourceOfPieces pieces = skipn skip t /\
    matchedInSource re pieces /\
    replaceLoop re replacement skip before t
    = renderPieces replacement (rev before ++ firstn skip t) pieces.
Proof.
  induction t as [|c t IH]; intros skip before Hskip.
  - simpl in Hskip. replace skip with 0 by lia. cbn [replaceLoop skipn firstn].
    rewrite app_nil_r.
    destruct (matchAt re []) as [len|] eqn:E.
    + pose proof (matchAt_length _ _ _ E) as Hlen. simpl in Hlen.
      replace len with 0 in * by lia.
      exists [(true, [])]. cbn. rewrite !app_nil_r. auto.
    + exists []. cbn. auto.
  - destruct skip as [|k].
    + cbn [replaceLoop skipn firstn]. rewrite app_nil_r.
      destruct (matchAt re (c :: t)) as [len|] eqn:E.
      * pose proof (matchAt_length _ _ _ E) as Hlen.
        destruct len as [|n].
        -- destruct (IH 0 (c :: before) ltac:(lia)) as [ps [Hsrc [Hm Hout]]].
           exists ((true, []) :: (false, [c]) :: ps).
           cbn in Hsrc, Hout. rewrite app_nil_r in Hout.
           cbn. unfold sourceOfPieces in *. cbn. rewrite Hsrc.
           split; [reflexivity|]. split; [auto|].
           rewrite Hout, !app_nil_r. reflexivity.
        -- simpl in Hlen.
           destruct (IH n (c :: before) ltac:(lia)) as [ps [Hsrc [Hm Hout]]].
           exists ((true, firstn (S n) (c :: t)) :: ps).
           assert (Hsplit : firstn (S n) (c :: t) ++ sourceOfPieces ps = c :: t).
           { rewrite Hsrc. apply (firstn_skipn (S n) (c :: t)). }
           split; [exact Hsplit|]. split.
           ++ cbn [matchedInSource]. rewrite Hsplit, E.
              rewrite length_firstn. split; [f_equal; simpl; lia | exact Hm].
           ++ cbn [renderPieces Nat.eqb]. rewrite Hsrc.
              replace (S n - 1) with n by lia. rewrite Hout.
              cbn [rev firstn skipn]. rewrite <- !app_assoc. reflexivity.
      * destruct (IH 0 (c :: before) ltac:(lia)) as [ps [Hsrc [Hm Hout]]].
        exists ((false, [c]) :: ps).
        cbn in Hsrc, Hout. rewrite app_nil_r in Hout.
        unfold sourceOfPieces in *. cbn. rewrite Hsrc.
        split; [reflexivity|]. split; [exact Hm|].
        rewrite Hout. reflexivity.
    + cbn [replaceLoop skipn firstn].
      destruct (IH k (c :: before) ltac:(simpl in Hskip; lia))
        as [ps [Hsrc [Hm Hout]]].
      exists ps. split; [exact Hsrc|]. split; [exact Hm|].
      rewrite Hout. cbn [rev]. rewrite <- !app_assoc. reflexivity.
Qed.

(** C6 as stated fails: with the variant matcher and the replacement
    NewOpenCode, the result of a first call on hello open-code is changed
    by a second call. *)
Lemma second_pass_changes_output :
  replaceInText (lit "hello open-code") (lit "NewOpenCode")
    (Some VARIANT_REGEX) = lit "hello NewOpenCode" /\
  replaceInText (lit "hello NewOpenCode") (lit "NewOpenCode")
    (Some VARIANT_REGEX) = lit "hello NewNewOpenCode" /\
  replaceInText
    (replaceInText (lit "hello open-code") (lit "NewOpenCode")
       (Some VARIANT_REGEX))
    (lit "NewOpenCode") (Some VARIANT_REGEX)
  <> replaceInText (lit "hello open-code") (lit "NewOpenCode")
       (Some VARIANT_REGEX).
Proof.
  split; [vm_compute; reflexivity|].
  split; [vm_compute; reflexivity|].
  vm_compute. discriminate.
Qed.

(** ** The default matcher *)

Lemma litPrefix_upper (p t : text) :
  litPrefix true p t = isPrefix (foldCase p) (foldCase t).
Proof.
  revert t. induction p as [|a p IH]; intros t; [reflexivity|].
  destruct t as [|b t]; [reflexivity|].
  cbn [litPrefix foldCase map isPrefix canonicalize].
  rewrite IH. reflexivity.
Qed.

Lemma matchAt_default (t : text) :
  matchAt OPENCODE_REGEX t
  = if isPrefix OPENCODE_UPPER (foldCase t) then Some 8 else None.
Proof.
  unfold matchAt, OPENCODE_REGEX. cbn [alternatives ignoreCase firstAlternative].
  rewrite litPrefix_upper. reflexivity.
Qed.

Lemma isPrefix_app (p x y : text) :
  length p <= length x -> isPrefix p (x ++ y) = isPrefix p x.
Proof.
  revert x. induction p as [|a p IH]; intros x Hlen; [reflexivity|].
  destruct x as [|b x]; [simpl in Hlen; lia|].
  simpl. rewrite IH by (simpl in Hlen; lia). reflexivity.
Qed.

Lemma isPrefix_self (p y : text) : isPrefix p (p ++ y) = true.
Proof.
  induction p as [|a p IH]; [reflexivity|].
  simpl. rewrite Ascii.eqb_refl. exact IH.
Qed.

(** The word has no border: an occurrence cannot start inside another
    one, so no match of the default pattern runs from [x] into a
    following occurrence. *)
Lemma no_match_into_occurrence (x y : text) :
  x <> [] ->
  isPrefix OPENCODE_UPPER (x ++ OPENCODE_UPPER ++ y) = isPrefix OPENCODE_UPPER x.
Proof.
  intros Hx.
  destruct (le_lt_dec (length OPENCODE_UPPER) (length x)) as [Hge | Hlt].
  - apply isPrefix_app. exact Hge.
  - transitivity false.
    + destruct (isPrefix OPENCODE_UPPER (x ++ OPENCODE_UPPER ++ y)) eqn:E;
        [|reflexivity].
      exfalso. apply isPrefix_split in E. revert E.
      change (length OPENCODE_UPPER) with 8 in *.
      do 8 (destruct x as [|? x]; [try congruence; vm_compute; discriminate|]).
      simpl in Hlt. lia.
    + symmetry. destruct (isPrefix OPENCODE_UPPER x) eqn:E; [|reflexivity].
      apply isPrefix_length in E. lia.
Qed.

Lemma getSubstitution_dollarFree (matched before after replacement : text) :
  dollarFree replacement ->
  getSubstitution matched before after replacement = replacement.
Proof.
  induction 1 as [|c rest Hc _ IH]; [reflexivity|].
  transitivity (c :: getSubstitution matched before after rest);
    [|rewrite IH; reflexivity].
  destruct c as [[] [] [] [] [] [] [] []]; try reflexivity.
  exfalso. apply Hc. reflexivity.
Qed.

Lemma replaceLoop_before (re : RegExp) (replacement : text) :
  dollarFree replacement ->
  forall t skip b1 b2,
    replaceLoop re replacement skip b1 t = replaceLoop re replacement skip b2 t.
Proof.
  intros Hr. induction t as [|c t IH]; intros skip b1 b2.
  - destruct skip; [|reflexivity]. cbn [replaceLoop].
    destruct (matchAt re []); [|reflexivity].
    rewrite !getSubstitution_dollarFree by exact Hr. reflexivity.
  - destruct skip as [|k]; cbn [replaceLoop]; [|apply IH].
    destruct (matchAt re (c :: t)) as [len|].
    + rewrite !getSubstitution_dollarFree by exact Hr. f_equal.
      destruct (len =? 0)%nat; [f_equal|]; apply IH.
    + f_equal. apply IH.
Qed.

Lemma replaceLoop_skip (re : RegExp) (replacement : text) (y : text) :
  forall x before,
    replaceLoop re replacement (length x) before (x ++ y)
    = replaceLoop re replacement 0 (rev x ++ before) y.
Proof.
  induction x as [|c x IH]; intros before; [reflexivity|].
  cbn [length app replaceLoop rev]. rewrite IH, <- app_assoc. reflexivity.
Qed.

Lemma sameWord_upper (w : text) :
  sameWordIgnoringCase w (lit "opencode") -> foldCase w = OPENCODE_UPPER.
Proof.
  intros H. exact H.
Qed.

Lemma replaceLoop_hit (re : RegExp) (replacement : text) (c : ascii)
  (t before : text) (len : nat) :
  matchAt re (c :: t) = Some (S len) ->
  replaceLoop re replacement 0 before (c :: t)
  = getSubstitution (firstn (S len) (c :: t)) (rev before)
      (skipn (S len) (c :: t)) replacement
    ++ replaceLoop re replacement len (c :: before) t.
Proof.
  intros H. cbn [replaceLoop]. rewrite H. cbn [Nat.eqb Nat.sub].
  rewrite Nat.sub_0_r. reflexivity.
Qed.

Lemma replaceLoop_miss (re : RegExp) (replacement : text) (c : ascii)
  (t before : text) :
  matchAt re (c :: t) = None ->
  replaceLoop re replacement 0 before (c :: t)
  = c :: replaceLoop re replacement 0 (c :: before) t.
Proof.
  intros H. cbn [replaceLoop]. rewrite H. reflexivity.
Qed.

Lemma matchAt_occurrence (w post : text) :
  foldCase w = OPENCODE_UPPER ->
  matchAt OPENCODE_REGEX (w ++ post) = Some 8.
Proof.
  intros Hw. rewrite matchAt_default. unfold foldCase. rewrite map_app.
  fold (foldCase w). rewrite Hw, isPrefix_self. reflexivity.
Qed.

Lemma matchAt_before_occurrence (pre w post : text) :
  pre <> [] -> foldCase w = OPENCODE_UPPER ->
  matchAt OPENCODE_REGEX (pre ++ w ++ post) = matchAt OPENCODE_REGEX pre.
Proof.
  intros Hpre Hw. rewrite !matchAt_default. unfold foldCase.
  rewrite !map_app. fold (foldCase w). rewrite Hw.
  rewrite no_match_into_occurrence; [reflexivity|].
  destruct pre; [congruence | discriminate].
Qed.

Lemma matchAt_default_cases (t : text) :
  (matchAt OPENCODE_REGEX t = Some 8 /\ 8 <= length t) \/
  matchAt OPENCODE_REGEX t = None.
Proof.
  rewrite matchAt_default.
  destruct (isPrefix OPENCODE_UPPER (foldCase t)) eqn:E; [left | right; auto].
  split; [reflexivity|]. apply isPrefix_length in E.
  unfold foldCase in E. rewrite length_map in E. exact E.
Qed.

Lemma replaceLoop_occurrence (replacement w post : text) :
  dollarFree replacement ->
  sameWordIgnoringCase w (lit "opencode") ->
  forall pre skip before, skip <= length pre ->
  replaceLoop OPENCODE_REGEX replacement skip before (pre ++ w ++ post)
  = replaceLoop OPENCODE_REGEX replacement skip before pre
    ++ replacement ++ replaceLoop OPENCODE_REGEX replacement 0 [] post.
Proof.
  intros Hr Hw. apply sameWord_upper in Hw.
  assert (Hlen : length w = 8).
  { rewrite <- (length_map (canonicalize true)). fold (foldCase w).
    rewrite Hw. reflexivity. }
  induction pre as [|c pre IH]; intros skip before Hskip.
  - simpl in Hskip. replace skip with 0 by lia.
    change (replaceLoop OPENCODE_REGEX replacement 0 before []) with (@nil ascii).
    destruct w as [|c w]; [discriminate|].
    simpl in Hlen. injection Hlen as Hlen.
    cbn [app]. change (c :: w ++ post) with ((c :: w) ++ post).
    pose proof (matchAt_occurrence (c :: w) post Hw) as Hm.
    cbn [app] in Hm |- *. rewrite (replaceLoop_hit _ _ _ _ _ 7 Hm).
    rewrite getSubstitution_dollarFree by exact Hr. f_equal.
    rewrite <- Hlen, replaceLoop_skip. apply replaceLoop_before. exact Hr.
  - destruct skip as [|k].
    + pose proof (matchAt_before_occurrence (c :: pre) w post
                    ltac:(discriminate) Hw) as Hsame.
      cbn [app] in Hsame |- *.
      destruct (matchAt_default_cases (c :: pre)) as [[Hm Hlong] | Hm].
      * rewrite (replaceLoop_hit _ _ _ _ _ 7 Hm).
        rewrite Hm in Hsame. rewrite (replaceLoop_hit _ _ _ _ _ 7 Hsame).
        rewrite !getSubstitution_dollarFree by exact Hr.
        simpl in Hlong. rewrite IH by lia.
        rewrite <- !app_assoc. reflexivity.
      * rewrite (replaceLoop_miss _ _ _ _ _ Hm).
        rewrite Hm in Hsame. rewrite (replaceLoop_miss _ _ _ _ _ Hsame).
        rewrite IH by lia. reflexivity.
    + cbn [app replaceLoop]. apply IH. simpl in Hskip. lia.
Qed.

Lemma replaceOpencode_default (t replacement : text) :
  replaceOpencode t replacement None = str_replace t OPENCODE_REGEX replacement.
Proof.
  destruct t; reflexivity.
Qed.

Lemma splitLoop_no_backtick (sep : text) (t : text) :
  Forall (fun c => c <> "`") t ->
  forall cur, splitLoop ("`" :: sep) 0 cur t = [cur ++ t].
Proof.
  induction 1 as [|c t Hc _ IH]; intros cur; cbn [splitLoop isPrefix].
  - rewrite app_nil_r. reflexivity.
  - destruct (Ascii.eqb "`" c) eqn:E.
    + apply Ascii.eqb_eq in E. congruence.
    + cbn [andb]. rewrite IH, <- app_assoc. reflexivity.
Qed.

(** A text without a backtick and without a URL or a path goes to the
    matcher as a whole. *)
Lemma replaceInText_plain (t replacement : text) (regex : option RegExp) :
  Forall (fun c => c <> "`") t -> protectedRanges t = [] ->
  replaceInText t replacement regex = replaceOpencode t replacement regex.
Proof.
  intros Hplain Hranges. rewrite replaceInText_blocks.
  unfold split, FENCE. change (lit "```") with ("`" :: lit "``").
  rewrite splitLoop_no_backtick by exact Hplain. cbn [app mapi mapiFrom join].
  unfold replaceInInlineCodeSegments, split, TICK.
  change (lit "`") with ("`" :: lit "").
  rewrite splitLoop_no_backtick by exact Hplain. cbn [app mapi mapiFrom join].
  unfold replaceExcludingUrlsAndPaths. rewrite Hranges. reflexivity.
Qed.

(** C4 as stated fails: in myopencodes the target word stands between two
    word characters, and the call without a matcher rewrites it. *)
Lemma embedded_occurrence_is_replaced :
  isWordChar "y" = true /\ isWordChar "s" = true /\
  replaceInText (lit "myopencodes") (lit "Renamer") None = lit "myRenamers" /\
  replaceInText (lit "myopencodes") (lit "Renamer") None <> lit "myopencodes".
Proof.
  split; [reflexivity|]. split; [reflexivity|].
  split; [vm_compute; reflexivity|]. vm_compute. discriminate.
Qed.

(** ** The first revision of [index.ts] *)

(** C3, at the input of the repository's own test (contained overlapping
    range is emitted only once): the first revision of
    [replaceOutsideRanges] in [index.ts] does not merge, and copies the
    overlap of the two ranges twice, where the test expects, and
    [helpers.ts] returns, opencode Renamer.  Through [replaceInText], a
    URL (whose tail the fourth path alternative of that revision matches
    again) is emitted with its tail doubled. *)
Theorem first_revision_emits_overlap_twice :
  fst (IndexV1.replaceOutsideRanges (lit "opencode opencode") (lit "Renamer")
         [(0, 8); (2, 8)]%Z 0)
  = lit "opencodeencode Renamer" /\
  replaceOutsideRanges (lit "opencode opencode") (lit "Renamer")
    [(0, 8); (2, 8)]%Z None
  = lit "opencode Renamer" /\
  fst (IndexV1.replaceInText (lit "Visit https://opencode.ai/docs for more")
         (lit "Renamer") 0)
  = lit "Visit https://opencode.ai/docs//opencode.ai/docs for more".
Proof.
  repeat split; vm_compute; reflexivity.
Qed.

(** C8, on the first revision of [updateSessionTitleIfNeeded]: [test]
    leaves [lastIndex] at the end of its match, and nothing resets it
    when the title never reaches [replace].  Two calls in succession with
    the title https://opencode.ai then differ: the first returns the
    title with its tail doubled and leaves [lastIndex] at 16, the second
    searches from 16, finds nothing and returns the title.  In the same
    way a title that is all inline code leaves [lastIndex] at 9, and the
    title opencode, rewritten from a fresh matcher, is then returned as
    it is. *)
Theorem first_revision_title_update_keeps_scan_position :
  IndexV1.updateSessionTitleIfNeeded (Some (lit "https://opencode.ai"))
    (lit "Renamer") 0
  = (Some (lit "https://opencode.ai//opencode.ai"), 16) /\
  IndexV1.updateSessionTitleIfNeeded (Some (lit "https://opencode.ai"))
    (lit "Renamer") 16
  = (Some (lit "https://opencode.ai"), 0) /\
  IndexV1.updateSessionTitleIfNeeded (Some (lit "`opencode`"))
    (lit "Renamer") 0
  = (Some (lit "`opencode`"), 9) /\
  IndexV1.updateSessionTitleIfNeeded (Some (lit "opencode"))
    (lit "Renamer") 9
  = (Some (lit "opencode"), 0) /\
  IndexV1.updateSessionTitleIfNeeded (Some (lit "opencode"))
    (lit "Renamer") 0
  = (Some (lit "Renamer"), 0).
Proof.
  repeat split; vm_compute; reflexivity.
Qed.

(** ** The current revision of [index.ts] *)

Section FreshMatcher.
Import RegexState.

Variables (replacement : text) (regex : option RegExp).

Lemma foldM_fresh {A S : Type} (f : S -> A -> M S) (g : S -> A -> S)
  (l : list A) :
  (forall s x, f s x 0 = (g s x, 0)) ->
  forall s, foldM f l s 0 = (fold_left g l s, 0).
Proof.
  intros Hf. induction l as [|x l IH]; intros s; [reflexivity|].
  cbn [foldM fold_left]. unfold bind. rewrite Hf. apply IH.
Qed.

Lemma mapiFromM_fresh {A B : Type} (f : A -> nat -> M B) (g : A -> nat -> B)
  (l : list A) :
  (forall x i, f x i 0 = (g x i, 0)) ->
  forall i, mapiFromM f i l 0 = (mapiFrom g i l, 0).
Proof.
  intros Hf. induction l as [|x l IH]; intros i; [reflexivity|].
  cbn [mapiFromM mapiFrom]. unfold bind. rewrite Hf, IH. reflexivity.
Qed.

Lemma replaceOpencode_fresh (t : text) :
  IndexV2.replaceOpencode t replacement regex 0
  = (replaceOpencode t replacement regex, 0).
Proof.
  destruct t; reflexivity.
Qed.

Lemma outsideStep_fresh (t : text) (st : text * Z) (r : range) :
  IndexV2.outsideStep t replacement regex st r 0
  = (outsideStep t replacement regex st r, 0).
Proof.
  destruct st as [res c], r as [s e].
  unfold IndexV2.outsideStep, outsideStep, bind.
  destruct (s >? c)%Z.
  - rewrite replaceOpencode_fresh. reflexivity.
  - reflexivity.
Qed.

Lemma replaceOutsideRanges_fresh (t : text) (ranges : list range) :
  IndexV2.replaceOutsideRanges t replacement ranges regex 0
  = (replaceOutsideRanges t replacement ranges regex, 0).
Proof.
  destruct ranges as [|r ranges]; [apply replaceOpencode_fresh|].
  unfold IndexV2.replaceOutsideRanges, replaceOutsideRanges, bind.
  rewrite (foldM_fresh _ (outsideStep t replacement regex))
    by apply outsideStep_fresh.
  destruct (fold_left _ _ _) as [res c]. unfold outsideFinish.
  destruct (c <? Z.of_nat (length t))%Z; [|reflexivity].
  rewrite replaceOpencode_fresh. reflexivity.
Qed.

Lemma replaceInInlineCodeSegments_fresh (t : text) :
  IndexV2.replaceInInlineCodeSegments t replacement regex 0
  = (replaceInInlineCodeSegments t replacement regex, 0).
Proof.
  unfold IndexV2.replaceInInlineCodeSegments, replaceInInlineCodeSegments,
    bind, mapiM, mapi.
  rewrite (mapiFromM_fresh _
    (fun segment index =>
       if (index mod 2 =? 1)%nat then segment
       else replaceExcludingUrlsAndPaths segment replacement regex)).
  - reflexivity.
  - intros x i. destruct (i mod 2 =? 1)%nat; [reflexivity|].
    apply replaceOutsideRanges_fresh.
Qed.

Lemma replaceInText_fresh (t : text) :
  IndexV2.replaceInText t replacement regex 0
  = (replaceInText t replacement regex, 0).
Proof.
  destruct t as [|c t]; [reflexivity|].
  unfold IndexV2.replaceInText, replaceInText, bind, mapiM, mapi.
  rewrite (mapiFromM_fresh _
    (fun block index =>
       if (index mod 2 =? 1)%nat then block
       else replaceInInlineCodeSegments block replacement regex)).
  - reflexivity.
  - intros x i. destruct (i mod 2 =? 1)%nat; [reflexivity|].
    apply replaceInInlineCodeSegments_fresh.
Qed.

End FreshMatcher.

(** In the current revision of [index.ts], a call of
    [updateSessionTitleIfNeeded] on a matcher whose [lastIndex] is 0
    (as it is when the matcher is created) returns the title rewritten by
    [replaceInText] when the matcher matches somewhere in it, the title
    itself otherwise, and leaves [lastIndex] at 0; so a second call with
    the same arguments returns the same result.  Whatever [lastIndex]
    was, a call on a non-empty title leaves it at 0. *)
Theorem title_update_is_repeatable (title : option text) (replacement : text)
  (regex : option RegExp) :
  IndexV2.updateSessionTitleIfNeeded title replacement regex 0
  = (updatedTitle title replacement regex, 0) /\
  (let '(first, lastIndex) :=
     IndexV2.updateSessionTitleIfNeeded title replacement regex 0 in
   IndexV2.updateSessionTitleIfNeeded title replacement regex lastIndex
   = (first, 0)) /\
  (forall c t lastIndex,
     snd (IndexV2.updateSessionTitleIfNeeded (Some (c :: t)) replacement
            regex lastIndex) = 0).
Proof.
  assert (H : IndexV2.updateSessionTitleIfNeeded title replacement regex 0
              = (updatedTitle title replacement regex, 0)).
  { destruct title as [[|c t]|]; try reflexivity.
    unfold IndexV2.updateSessionTitleIfNeeded, updatedTitle, RegexState.bind,
      RegexState.test, regexTest, matchesSomewhere.
    cbn [length Nat.ltb Nat.leb skipn].
    destruct (execFrom (IndexV2.matcherOf regex) 0 (c :: t)) as [[p len]|].
    - cbn [negb RegexState.setLastIndex].
      rewrite replaceInText_fresh. reflexivity.
    - reflexivity. }
  split; [exact H|]. split; [rewrite H; exact H|].
  intros c t lastIndex.
  unfold IndexV2.updateSessionTitleIfNeeded, RegexState.bind, RegexState.test.
  destruct (regexTest (IndexV2.matcherOf regex) (c :: t) lastIndex)
    as [found li] eqn:E.
  destruct found; cbn [negb RegexState.setLastIndex].
  - rewrite replaceInText_fresh. reflexivity.
  - unfold regexTest in E.
    destruct (length (c :: t) <? lastIndex)%nat;
      [inversion E; reflexivity|].
    destruct (execFrom _ _ _) as [[p len]|]; [discriminate|].
    inversion E. reflexivity.
Qed.

(** ** Compiling the variants *)

Lemma matchAt_escape (c : ascii) (t : text) :
  matchAt ESCAPE_REGEX (c :: t) = if isMetaChar c then Some 1 else None.
Proof.
  destruct c as [[] [] [] [] [] [] [] []]; reflexivity.
Qed.

Lemma replaceLoop_escape (v : text) :
  forall before,
    replaceLoop ESCAPE_REGEX (lit "\$&") 0 before v = flat_map escapedChar v.
Proof.
  induction v as [|c v IH]; intros before; [reflexivity|].
  pose proof (matchAt_escape c v) as Hm. cbn [flat_map]. unfold escapedChar at 1.
  destruct (isMetaChar c).
  - rewrite (replaceLoop_hit _ _ _ _ _ 0 Hm), IH. reflexivity.
  - rewrite (replaceLoop_miss _ _ _ _ _ Hm), IH. reflexivity.
Qed.

Lemma parseAlternation_plain (c : ascii) (cur rest : text) :
  isMetaChar c = false ->
  parseAlternation cur (c :: rest) = parseAlternation (cur ++ [c]) rest.
Proof.
  destruct c as [[] [] [] [] [] [] [] []]; intros H;
    try discriminate H; reflexivity.
Qed.

Lemma parseAlternation_escaped (v : text) :
  forall cur rest,
    parseAlternation cur (flat_map escapedChar v ++ rest)
    = parseAlternation (cur ++ v) rest.
Proof.
  induction v as [|c v IH]; intros cur rest.
  - rewrite app_nil_r. reflexivity.
  - cbn [flat_map]. unfold escapedChar at 1.
    replace (cur ++ c :: v) with ((cur ++ [c]) ++ v)
      by (rewrite <- app_assoc; reflexivity).
    destruct (isMetaChar c) eqn:E.
    + cbn [app parseAlternation]. rewrite E. apply IH.
    + cbn [app]. rewrite (parseAlternation_plain c _ _ E). apply IH.
Qed.

Lemma parseAlternation_join (variants : list text) :
  variants <> [] ->
  parseAlternation [] (join (lit "|") (map (flat_map escapedChar) variants))
  = Some variants.
Proof.
  induction variants as [|v variants IH]; [congruence|]. intros _.
  destruct variants as [|w variants].
  - cbn [map join]. rewrite <- (app_nil_r (flat_map escapedChar v)).
    rewrite parseAlternation_escaped. reflexivity.
  - cbn [map]. rewrite join_cons by discriminate.
    rewrite parseAlternation_escaped.
    change (lit "|") with ["|"] at 1.
    cbn [app parseAlternation]. cbn [map] in IH.
    rewrite IH by discriminate. reflexivity.
Qed.

(** [buildVariantRegex] never throws and drops nothing: for every list of
    variants, whatever characters they hold, the compiled pattern is the
    case-sensitive alternation of exactly these literals, in their order
    (of the empty literal alone when the list is empty). *)
Theorem buildVariantRegex_exact (variants : list text) :
  buildVariantRegex variants
  = Some (mkRegExp (match variants with [] => [[]] | _ => variants end) false).
Proof.
  unfold buildVariantRegex, newRegExp.
  replace (map escapeVariant variants)
    with (map (flat_map escapedChar) variants)
    by (apply map_ext; intros v; symmetry; apply replaceLoop_escape).
  destruct variants as [|v variants]; [reflexivity|].
  rewrite parseAlternation_join by discriminate. reflexivity.
Qed.

(* ================================================================== *)
(** * Part VII: further properties of the code *)
(* ================================================================== *)

(** ** What the merged ranges cover *)

Local Open Scope Z_scope.

Lemma mergeLoop_covered_only (rest : list range) :
  forall last x,
    coveredBy (mergeLoop last rest) x -> coveredBy (last :: rest) x.
Proof.
  induction rest as [|cur rest IH]; intros last x H; [exact H|].
  simpl in H. destruct (fst cur <=? snd last) eqn:Hle.
  - apply Z.leb_le in Hle. apply IH in H.
    destruct H as [r [[<- | Hin] Hx]].
    + unfold contains in Hx. simpl in Hx.
      destruct (Z_lt_le_dec x (snd last)) as [Hlt | Hge].
      * exists last. split; [left; reflexivity | unfold contains; lia].
      * exists cur. split; [right; left; reflexivity | unfold contains; lia].
    + exists r. split; [right; right; exact Hin | exact Hx].
  - destruct H as [r [[<- | Hin] Hx]].
    + exists last. split; [left; reflexivity | exact Hx].
    + destruct (IH cur x (ex_intro _ r (conj Hin Hx))) as [r' [Hin' Hx']].
      exists r'. split; [right; exact Hin' | exact Hx'].
Qed.

Lemma covers_contains (R r : range) (x : Z) :
  covers R r -> contains r x -> contains R x.
Proof.
  unfold covers, contains. lia.
Qed.

Lemma mergeRanges_same_offsets (ranges : list range) (x : Z) :
  coveredBy (mergeRanges ranges) x <-> coveredBy ranges x.
Proof.
  split.
  - unfold mergeRanges. intros H.
    destruct (sortByStart ranges) as [|first rest] eqn:E;
      [destruct H as [r [[] _]]|].
    apply mergeLoop_covered_only in H. rewrite <- E in H.
    destruct H as [r [Hin Hx]]. exists r.
    split; [apply sortByStart_In, Hin | exact Hx].
  - intros [r [Hin Hx]].
    destruct (mergeRanges_covers ranges r Hin) as [R [HR Hc]].
    exists R. split; [exact HR | eapply covers_contains; eauto].
Qed.

Lemma clamped_same_offsets (ranges : list range) (x : Z) :
  coveredBy (filter nonEmptyRange (map clampRange ranges)) x
  <-> 0 <= x /\ coveredBy ranges x.
Proof.
  split.
  - intros [r [Hin Hx]]. apply filter_In in Hin. destruct Hin as [Hin _].
    apply in_map_iff in Hin. destruct Hin as [[a b] [<- Hin]].
    unfold contains, clampRange in Hx. simpl in Hx.
    split; [lia|]. exists (a, b). split; [exact Hin|].
    unfold contains. simpl. lia.
  - intros [Hx [[a b] [Hin Hc]]]. unfold contains in Hc. simpl in Hc.
    exists (clampRange (a, b)). split.
    + apply filter_In. split; [apply in_map, Hin|].
      unfold nonEmptyRange, clampRange. simpl. lia.
    + unfold contains, clampRange. simpl. lia.
Qed.

Lemma sanitizeRanges_same_offsets (ranges : list range) (x : Z) :
  coveredBy (sanitizeRanges ranges) x <-> 0 <= x /\ coveredBy ranges x.
Proof.
  unfold sanitizeRanges. rewrite mergeRanges_same_offsets.
  rewrite <- clamped_same_offsets.
  split; intros [r [Hin Hx]]; exists r; (split; [|exact Hx]);
    apply sortByStart_In; exact Hin.
Qed.

(** Merging neither loses nor invents an offset: an offset lies in a
    range returned by [mergeRanges] exactly when it lies in a range given
    to it, for every list of ranges; and the ranges [replaceOutsideRanges]
    walks cover exactly the offsets from 0 on that the ranges given to it
    cover. *)
Theorem merged_ranges_cover_the_same_offsets (ranges : list range) (x : Z) :
  (coveredBy (mergeRanges ranges) x <-> coveredBy ranges x) /\
  (coveredBy (sanitizeRanges ranges) x <-> 0 <= x /\ coveredBy ranges x).
Proof.
  split; [apply mergeRanges_same_offsets | apply sanitizeRanges_same_offsets].
Qed.

(** A list of ranges that are valid and strictly apart is determined by
    the offsets it covers. *)
Lemma apart_head_least (s e : Z) (l : list range) (x : Z) :
  Forall validRange ((s, e) :: l) -> gapped ((s, e) :: l) ->
  coveredBy l x -> e < x.
Proof.
  intros Hv Hg [r [Hin Hx]].
  assert (Ha : ahead e l).
  { apply (ahead_tail s s e l). split; [exact Hv|]. split; [exact Hg|].
    simpl. lia. }
  pose proof (ahead_In l e r Ha Hin) as Hle.
  destruct Ha as [Hvl [Hgl Hhd]].
  unfold contains in Hx.
  destruct l as [|r0 l]; [destruct Hin|].
  apply gapped_cons in Hg. destruct Hg as [Hlt _]. simpl in Hlt.
  assert (Hr0 : fst r0 <= fst r).
  { apply (ahead_In (r0 :: l) (fst r0) r); [|exact Hin].
    split; [exact Hvl|]. split; [exact Hgl|]. simpl. lia. }
  lia.
Qed.

Lemma apart_ranges_unique (l1 : list range) :
  forall l2,
    Forall validRange l1 -> gapped l1 ->
    Forall validRange l2 -> gapped l2 ->
    (forall x, coveredBy l1 x <-> coveredBy l2 x) ->
    l1 = l2.
Proof.
  induction l1 as [|[s1 e1] t1 IH]; intros l2 Hv1 Hg1 Hv2 Hg2 Hsame.
  - destruct l2 as [|[s2 e2] t2]; [reflexivity|]. exfalso.
    inversion Hv2 as [|? ? Hr _]; subst. unfold validRange in Hr. simpl in Hr.
    destruct (proj2 (Hsame s2)) as [r [[] _]].
    exists (s2, e2). split; [left; reflexivity | unfold contains; simpl; lia].
  - destruct l2 as [|[s2 e2] t2].
    + exfalso. inversion Hv1 as [|? ? Hr _]; subst.
      unfold validRange in Hr. simpl in Hr.
      destruct (proj1 (Hsame s1)) as [r [[] _]].
      exists (s1, e1). split; [left; reflexivity | unfold contains; simpl; lia].
    + pose proof Hv1 as Hv1'. pose proof Hv2 as Hv2'.
      inversion Hv1 as [|? ? Hr1 Ht1]; subst.
      inversion Hv2 as [|? ? Hr2 Ht2]; subst.
      unfold validRange in Hr1, Hr2. simpl in Hr1, Hr2.
      assert (Hin1 : forall x, s1 <= x < e1 -> coveredBy ((s1, e1) :: t1) x).
      { intros x Hx. exists (s1, e1). split; [left; reflexivity | exact Hx]. }
      assert (Hin2 : forall x, s2 <= x < e2 -> coveredBy ((s2, e2) :: t2) x).
      { intros x Hx. exists (s2, e2). split; [left; reflexivity | exact Hx]. }
      assert (Hout1 : forall x, coveredBy ((s1, e1) :: t1) x ->
                                s1 <= x /\ (x < e1 \/ e1 < x)).
      { intros x [r [[<- | Hin] Hx]].
        - unfold contains in Hx. simpl in Hx. lia.
        - pose proof (apart_head_least s1 e1 t1 x Hv1' Hg1
                        (ex_intro _ r (conj Hin Hx))). lia. }
      assert (Hout2 : forall x, coveredBy ((s2, e2) :: t2) x ->
                                s2 <= x /\ (x < e2 \/ e2 < x)).
      { intros x [r [[<- | Hin] Hx]].
        - unfold contains in Hx. simpl in Hx. lia.
        - pose proof (apart_head_least s2 e2 t2 x Hv2' Hg2
                        (ex_intro _ r (conj Hin Hx))). lia. }
      assert (Hs : s1 = s2).
      { pose proof (Hout2 s1 (proj1 (Hsame s1) (Hin1 s1 ltac:(lia)))).
        pose proof (Hout1 s2 (proj2 (Hsame s2) (Hin2 s2 ltac:(lia)))). lia. }
      subst s2.
      assert (He : e1 = e2).
      { destruct (Z.lt_trichotomy e1 e2) as [Hlt | [Heq | Hgt]];
          [exfalso | exact Heq | exfalso].
        - pose proof (Hout1 e1 (proj2 (Hsame e1) (Hin2 e1 ltac:(lia)))). lia.
        - pose proof (Hout2 e2 (proj1 (Hsame e2) (Hin1 e2 ltac:(lia)))). lia. }
      subst e2. f_equal.
      apply gapped_cons in Hg1. apply gapped_cons in Hg2.
      apply IH; try tauto.
      intros x. split; intros Hx.
      * pose proof (apart_head_least s1 e1 t1 x Hv1' ltac:(apply gapped_cons; tauto) Hx).
        destruct Hx as [r [Hin Hx]].
        destruct (proj1 (Hsame x) (ex_intro _ r (conj (or_intror Hin) Hx)))
          as [r' [[<- | Hin'] Hx']].
        -- unfold contains in Hx'. simpl in Hx'. lia.
        -- exists r'. split; assumption.
      * pose proof (apart_head_least s1 e1 t2 x Hv2' ltac:(apply gapped_cons; tauto) Hx).
        destruct Hx as [r [Hin Hx]].
        destruct (proj2 (Hsame x) (ex_intro _ r (conj (or_intror Hin) Hx)))
          as [r' [[<- | Hin'] Hx']].
        -- unfold contains in Hx'. simpl in Hx'. lia.
        -- exists r'. split; assumption.
Qed.

Lemma sanitizeRanges_extensional (ranges ranges' : list range) :
  (forall x, 0 <= x -> (coveredBy ranges x <-> coveredBy ranges' x)) ->
  sanitizeRanges ranges = sanitizeRanges ranges'.
Proof.
  intros Hsame. apply apart_ranges_unique.
  - apply sanitizeRanges_valid.
  - apply mergeRanges_gapped.
  - apply sanitizeRanges_valid.
  - apply mergeRanges_gapped.
  - intros x. rewrite !sanitizeRanges_same_offsets.
    split; intros [Hx Hc]; (split; [exact Hx|]); apply (Hsame x Hx); exact Hc.
Qed.

Lemma walkFrom_no_ranges (t replacement : text) (regex : option RegExp) :
  walkFrom t replacement regex [] 0 = replaceOpencode t replacement regex.
Proof.
  rewrite walkFrom_nil by lia. destruct t as [|c t]; reflexivity.
Qed.

Lemma replaceOutsideRanges_sanitized (t replacement : text)
  (ranges : list range) (regex : option RegExp) :
  replaceOutsideRanges t replacement ranges regex
  = walkFrom t replacement regex (sanitizeRanges ranges) 0.
Proof.
  destruct ranges as [|r ranges]; [|reflexivity].
  symmetry. apply walkFrom_no_ranges.
Qed.

(** The result of [replaceOutsideRanges] depends only on the offsets
    (from 0 on) that the given ranges cover: two lists of ranges that
    cover the same offsets give the same result, whatever their order,
    and with duplicates, overlaps, empty or inverted ranges in them. *)
Theorem replaceOutsideRanges_depends_on_covered_offsets
  (t replacement : text) (regex : option RegExp)
  (ranges ranges' : list range) :
  (forall x, 0 <= x -> (coveredBy ranges x <-> coveredBy ranges' x)) ->
  replaceOutsideRanges t replacement ranges regex
  = replaceOutsideRanges t replacement ranges' regex.
Proof.
  intros Hsame. rewrite !replaceOutsideRanges_sanitized.
  rewrite (sanitizeRanges_extensional ranges ranges' Hsame). reflexivity.
Qed.

(** The hypothesis of [replaceOutsideRanges_depends_on_covered_offsets]
    at two ways of covering the offsets 0 to 7. *)
Lemma replaceOutsideRanges_depends_on_covered_offsets_witness :
  replaceOutsideRanges (lit "opencode opencode") (lit "Renamer")
    [(2, 8); (0, 3); (5, 5)] None
  = replaceOutsideRanges (lit "opencode opencode") (lit "Renamer")
      [(0, 8)] None.
Proof.
  apply replaceOutsideRanges_depends_on_covered_offsets.
  intros x Hx. split; intros [r [Hin Hc]]; unfold contains in Hc.
  - exists (0, 8). split; [left; reflexivity|].
    unfold contains. simpl in Hin.
    destruct Hin as [<- | [<- | [<- | []]]]; simpl in *; lia.
  - simpl in Hin. destruct Hin as [<- | []]. simpl in Hc.
    destruct (Z_lt_le_dec x 3).
    + exists (0, 3). split; [right; left; reflexivity | unfold contains; simpl; lia].
    + exists (2, 8). split; [left; reflexivity | unfold contains; simpl; lia].
Defined.

Local Close Scope Z_scope.

(** ** Ranges given to [replaceOutsideRanges] *)

(** Every range given to [replaceOutsideRanges] that starts at or after
    0 and is not empty is copied to the result, whatever else is in the
    list (overlapping, nested or inverted ranges, ranges beyond the end
    of the text): the result is an image of the text before the range,
    the slice of the range, and an image of the text after it. *)
Theorem given_ranges_are_copied (t replacement : text) (ranges : list range)
  (regex : option RegExp) (s e : Z) :
  In (s, e) ranges -> (0 <= s)%Z -> (s < e)%Z ->
  exists A B,
    replaceOutsideRanges t replacement ranges regex = A ++ slice t s e ++ B /\
    Image replacement regex (firstn (Z.to_nat s) t) A /\
    Image replacement regex (skipn (Z.to_nat e) t) B.
Proof.
  apply replaceOutsideRanges_keeps.
Qed.

(** The hypotheses of [given_ranges_are_copied] at a range nested in
    another one. *)
Lemma given_ranges_are_copied_witness :
  exists A B,
    replaceOutsideRanges (lit "opencode opencode opencode") (lit "Renamer")
      [(7, 12); (9, 11)]%Z None
    = A ++ lit "op" ++ B /\
    Image (lit "Renamer") None (lit "opencode ") A /\
    Image (lit "Renamer") None (lit "encode opencode") B.
Proof.
  exact (given_ranges_are_copied (lit "opencode opencode opencode")
           (lit "Renamer") [(7, 12); (9, 11)]%Z None 9%Z 11%Z
           (or_intror (or_introl eq_refl)) ltac:(lia) ltac:(lia)).
Defined.

(** ** Texts the matcher does not match *)

Lemma replaceInText_image (t replacement : text) (regex : option RegExp) :
  Image replacement regex t (replaceInText t replacement regex).
Proof.
  rewrite replaceInText_blocks.
  rewrite <- (join_split FENCE t FENCE_nonempty) at 1.
  unfold mapi. apply Image_join_mapi.
  intros x i. destruct (i mod 2 =? 1)%nat; [apply Image_copy|].
  apply replaceInInlineCodeSegments_partitions.
Qed.

Lemma litPrefix_app (ic : bool) (a g c : text) :
  litPrefix ic a g = true -> litPrefix ic a (g ++ c) = true.
Proof.
  revert g. induction a as [|x a IH]; intros g H; [reflexivity|].
  destruct g as [|y g]; [discriminate|].
  cbn [litPrefix app] in *. apply andb_prop in H. destruct H as [H1 H2].
  rewrite H1, (IH g H2). reflexivity.
Qed.

Lemma matchAt_app_None (re : RegExp) (g c : text) :
  matchAt re (g ++ c) = None -> matchAt re g = None.
Proof.
  unfold matchAt. generalize (alternatives re) as alts.
  induction alts as [|a alts IH]; [reflexivity|].
  cbn [firstAlternative]. destruct (litPrefix (ignoreCase re) a g) eqn:E.
  - rewrite (litPrefix_app _ _ _ c E). discriminate.
  - destruct (litPrefix (ignoreCase re) a (g ++ c)); [discriminate | exact IH].
Qed.

Lemma execFrom_None_prefix (re : RegExp) (c : text) :
  forall g p q, execFrom re p (g ++ c) = None -> execFrom re q g = None.
Proof.
  induction g as [|x g IH]; intros p q H.
  - cbn [execFrom]. rewrite (matchAt_app_None re [] c); [reflexivity|].
    destruct c; cbn [app execFrom] in H;
      destruct (matchAt re _); [discriminate | reflexivity
                               | discriminate | reflexivity].
  - cbn [app execFrom] in H |- *.
    destruct (matchAt re (x :: g ++ c)) eqn:E; [discriminate|].
    rewrite (matchAt_app_None re (x :: g) c E).
    apply (IH (S p)). exact H.
Qed.

Lemma execFrom_None_suffix (re : RegExp) (t : text) :
  forall a p q, execFrom re p (a ++ t) = None -> execFrom re q t = None.
Proof.
  induction a as [|x a IH]; intros p q H.
  - apply (execFrom_None_prefix re [] t p q). rewrite app_nil_r. exact H.
  - cbn [app execFrom] in H.
    destruct (matchAt re (x :: a ++ t)); [discriminate|].
    apply (IH (S p)). exact H.
Qed.

Lemma replaceLoop_no_match (re : RegExp) (replacement : text) :
  forall t p before,
    execFrom re p t = None -> replaceLoop re replacement 0 before t = t.
Proof.
  induction t as [|c t IH]; intros p before H; cbn [execFrom replaceLoop] in *.
  - destruct (matchAt re []); [discriminate | reflexivity].
  - destruct (matchAt re (c :: t)); [discriminate|].
    f_equal. apply (IH (S p)). exact H.
Qed.

Lemma replaceOpencode_no_match (g replacement : text)
  (regex : option RegExp) :
  execFrom (IndexV2.matcherOf regex) 0 g = None ->
  replaceOpencode g replacement regex = g.
Proof.
  intros H. destruct g as [|c g]; [reflexivity|].
  apply (replaceLoop_no_match _ _ _ 0). exact H.
Qed.

Lemma Image_no_match (replacement : text) (regex : option RegExp)
  (src out : text) :
  Image replacement regex src out ->
  execFrom (IndexV2.matcherOf regex) 0 src = None -> out = src.
Proof.
  induction 1 as [|p src out _ IH|g src out _ IH]; intros H; [reflexivity| |].
  - f_equal. apply IH. apply (execFrom_None_suffix _ _ p 0 0 H).
  - rewrite IH by apply (execFrom_None_suffix _ _ g 0 0 H).
    rewrite replaceOpencode_no_match; [reflexivity|].
    apply (execFrom_None_prefix _ src g 0 0 H).
Qed.

(** A text in which the matcher in use matches nowhere is returned as it
    is, by [replaceInText] and by [replaceOutsideRanges] on any ranges:
    nothing but a match of the matcher is ever rewritten. *)
Theorem unmatched_text_is_unchanged (t replacement : text)
  (regex : option RegExp) (ranges : list range) :
  matchesSomewhere (IndexV2.matcherOf regex) t = false ->
  replaceInText t replacement regex = t /\
  replaceOutsideRanges t replacement ranges regex = t.
Proof.
  unfold matchesSomewhere. intros H.
  destruct (execFrom (IndexV2.matcherOf regex) 0 t) eqn:E; [discriminate|].
  split.
  - apply (Image_no_match replacement regex); [apply replaceInText_image | exact E].
  - apply (Image_no_match replacement regex);
      [apply replaceOutsideRanges_image | exact E].
Qed.

(** The hypothesis of [unmatched_text_is_unchanged] at a text with the
    kebab-case spelling, which the default matcher does not match. *)
Lemma unmatched_text_is_unchanged_witness :
  replaceInText (lit "use `x` and open-code") (lit "Renamer") None
  = lit "use `x` and open-code" /\
  replaceOutsideRanges (lit "use `x` and open-code") (lit "Renamer")
    [(0, 3)]%Z None
  = lit "use `x` and open-code".
Proof.
  exact (unmatched_text_is_unchanged (lit "use `x` and open-code")
           (lit "Renamer") None [(0, 3)]%Z eq_refl).
Defined.

(** ** The replacement string as a substitution template *)

Lemma renderPieces_self (pieces : list (bool * text)) :
  forall before, renderPieces (lit "$&") before pieces = sourceOfPieces pieces.
Proof.
  induction pieces as [|[[] m] pieces IH]; intros before;
    [reflexivity | |]; cbn [renderPieces]; rewrite IH.
  - change (getSubstitution m before (sourceOfPieces pieces) (lit "$&"))
      with (m ++ []).
    rewrite app_nil_r. reflexivity.
  - reflexivity.
Qed.

Lemma replaceOpencode_self (g : text) (regex : option RegExp) :
  replaceOpencode g (lit "$&") regex = g.
Proof.
  destruct g as [|c g]; [reflexivity|].
  destruct (replaceLoop_pieces (IndexV2.matcherOf regex) (lit "$&") (c :: g)
              0 [] ltac:(lia)) as [ps [Hsrc [_ Hout]]].
  unfold replaceOpencode, str_replace.
  change (match regex with Some re => re | None => OPENCODE_REGEX end)
    with (IndexV2.matcherOf regex).
  rewrite Hout, renderPieces_self. exact Hsrc.
Qed.

Lemma Image_identity (replacement : text) (regex : option RegExp)
  (src out : text) :
  (forall g, replaceOpencode g replacement regex = g) ->
  Image replacement regex src out -> out = src.
Proof.
  intros Hid. induction 1 as [|p src out _ IH|g src out _ IH];
    [reflexivity | rewrite IH; reflexivity | rewrite IH, Hid; reflexivity].
Qed.

(** The replacement string is handed to [String.prototype.replace] as it
    is, so its dollar patterns are interpreted: with the replacement
    string dollar-ampersand every match is replaced by itself and
    [replaceInText] returns every text unchanged, for every matcher; and
    a doubled dollar inserts a single one. *)
Theorem replacement_is_a_template (t : text) (regex : option RegExp) :
  replaceInText t (lit "$&") regex = t /\
  replaceInText (lit "pay opencode") (lit "US$$") None = lit "pay US$".
Proof.
  split; [|vm_compute; reflexivity].
  apply (Image_identity (lit "$&") regex);
    [intros g; apply replaceOpencode_self | apply replaceInText_image].
Qed.

(** ** Delimited code, piece by piece *)

Lemma splitLoop_skip (sep : text) (b : text) :
  forall x cur, splitLoop sep (length x) cur (x ++ b) = splitLoop sep 0 cur b.
Proof.
  induction x as [|c x IH]; intros cur; [reflexivity|].
  cbn [length app splitLoop]. apply IH.
Qed.

Lemma splitLoop_no_occurrence (sep : text) (b : text) :
  (forall k, isPrefix sep (skipn k b) = false) ->
  forall cur, splitLoop sep 0 cur b = [cur ++ b].
Proof.
  induction b as [|c b IH]; intros Hno cur; cbn [splitLoop].
  - rewrite app_nil_r. reflexivity.
  - pose proof (Hno 0) as H0. cbn [skipn] in H0. rewrite H0. rewrite IH.
    + rewrite <- app_assoc. reflexivity.
    + intros k. exact (Hno (S k)).
Qed.

Lemma no_occurrence_no_prefix (sep b : text) :
  ~ occursIn sep b -> forall k, isPrefix sep (skipn k b) = false.
Proof.
  intros Hno k. destruct (isPrefix sep (skipn k b)) eqn:E; [|reflexivity].
  exfalso. apply Hno. apply isPrefix_split in E.
  exists (firstn k b), (skipn (length sep) (skipn k b)).
  rewrite <- E. symmetry. apply firstn_skipn.
Qed.

Lemma split_at_first_delimiter (sep' a b : text) :
  backtickFree a ->
  forall cur,
    splitLoop ("`" :: sep') 0 cur (a ++ ("`" :: sep') ++ b)
    = (cur ++ a) :: splitLoop ("`" :: sep') 0 [] b.
Proof.
  induction 1 as [|c a Hc _ IH]; intros cur.
  - cbn [app splitLoop]. change ("`" :: sep' ++ b) with (("`" :: sep') ++ b).
    rewrite isPrefix_self. cbn [length Nat.sub app]. rewrite Nat.sub_0_r.
    rewrite app_nil_r. f_equal. apply splitLoop_skip.
  - cbn [app splitLoop isPrefix].
    destruct (Ascii.eqb "`" c) eqn:E.
    + apply Ascii.eqb_eq in E. congruence.
    + cbn [andb]. rewrite IH, <- app_assoc. reflexivity.
Qed.

Lemma mapiFrom_parity {A : Type} (f : A -> A) (l : list A) :
  forall i,
    mapiFrom (fun x index => if (index mod 2 =? 1)%nat then x else f x)
      (S (S i)) l
    = mapiFrom (fun x index => if (index mod 2 =? 1)%nat then x else f x) i l.
Proof.
  induction l as [|x l IH]; intros i; [reflexivity|].
  cbn [mapiFrom]. rewrite IH. f_equal.
  replace (S (S i)) with (i + 1 * 2) by lia.
  rewrite Nat.Div0.mod_add. reflexivity.
Qed.

Section Delimited.

Variables (sep' : text) (f : text -> text).

Let sep : text := "`" :: sep'.

(** What [replaceInText] (on the triple backtick) and
    [replaceInInlineCodeSegments] (on the single one) do with a
    delimiter and the function for the pieces outside the delimiters. *)
Let pass (t : text) : text :=
  join sep
    (mapi (fun x index => if (index mod 2 =? 1)%nat then x else f x)
       (split sep t)).

Lemma pass_plain (a : text) : backtickFree a -> pass a = f a.
Proof.
  intros Ha. unfold pass, split, sep.
  rewrite splitLoop_no_backtick by exact Ha. reflexivity.
Qed.

Lemma pass_unterminated (a b : text) :
  backtickFree a -> ~ occursIn sep b ->
  pass (a ++ sep ++ b) = f a ++ sep ++ b.
Proof.
  intros Ha Hb. unfold pass, split, sep.
  rewrite split_at_first_delimiter by exact Ha.
  rewrite splitLoop_no_occurrence by (apply no_occurrence_no_prefix; exact Hb).
  reflexivity.
Qed.

Lemma pass_delimited (a inner rest : text) :
  backtickFree a -> backtickFree inner ->
  pass (a ++ sep ++ inner ++ sep ++ rest)
  = f a ++ sep ++ inner ++ sep ++ pass rest.
Proof.
  intros Ha Hi. unfold pass, split, sep.
  rewrite split_at_first_delimiter by exact Ha.
  rewrite split_at_first_delimiter by exact Hi.
  unfold mapi. rewrite !mapiFrom_cons, mapiFrom_parity.
  cbn [app Nat.modulo Nat.divmod fst snd Nat.eqb Nat.sub].
  destruct (mapiFrom _ 0 (splitLoop ("`" :: sep') 0 [] rest)) eqn:E.
  - exfalso. apply (f_equal (@length text)) in E.
    rewrite mapiFrom_length in E.
    destruct (splitLoop ("`" :: sep') 0 [] rest) eqn:E';
      [apply splitLoop_nonempty in E'; exact E' | discriminate].
  - reflexivity.
Qed.

End Delimited.

Lemma backtickFree_no_tick (b : text) : backtickFree b -> ~ occursIn TICK b.
Proof.
  intros Hb [x [y ->]]. apply Forall_app in Hb. destruct Hb as [_ Hb].
  inversion Hb as [|? ? Hc _]. apply Hc. reflexivity.
Qed.

(** A fenced block without a backtick in it is skipped: [replaceInText]
    works on the text before the opening fence (which has no backtick)
    and on the text after the closing fence independently of each other,
    and copies the two fences and what stands between them. *)
Theorem fenced_block_is_skipped (a inner rest replacement : text)
  (regex : option RegExp) :
  backtickFree a -> backtickFree inner ->
  replaceInText (a ++ FENCE ++ inner ++ FENCE ++ rest) replacement regex
  = replaceInText a replacement regex ++ FENCE ++ inner ++ FENCE
    ++ replaceInText rest replacement regex.
Proof.
  intros Ha Hi. rewrite !replaceInText_blocks.
  change FENCE with ("`" :: lit "``").
  rewrite (pass_delimited (lit "``")
             (fun b => replaceInInlineCodeSegments b replacement regex)
             a inner rest Ha Hi).
  rewrite (pass_plain (lit "``")
             (fun b => replaceInInlineCodeSegments b replacement regex)
             a Ha).
  reflexivity.
Qed.

(** The hypotheses of [fenced_block_is_skipped] at a block between two
    occurrences of the target word. *)
Lemma fenced_block_is_skipped_witness :
  replaceInText
    (lit "opencode " ++ FENCE ++ lit "opencode" ++ FENCE ++ lit " opencode")
    (lit "Renamer") None
  = replaceInText (lit "opencode ") (lit "Renamer") None ++ FENCE
    ++ lit "opencode" ++ FENCE
    ++ replaceInText (lit " opencode") (lit "Renamer") None.
Proof.
  apply fenced_block_is_skipped; repeat constructor; discriminate.
Defined.

(** A fence that is never closed protects the rest of the text: after an
    opening fence with no fence behind it, everything up to the end is
    copied, the target word included. *)
Theorem unterminated_fence_protects_the_rest (a b replacement : text)
  (regex : option RegExp) :
  backtickFree a -> ~ occursIn FENCE b ->
  replaceInText (a ++ FENCE ++ b) replacement regex
  = replaceInText a replacement regex ++ FENCE ++ b.
Proof.
  intros Ha Hb. rewrite !replaceInText_blocks.
  change FENCE with ("`" :: lit "``") in *.
  rewrite (pass_unterminated (lit "``")
             (fun x => replaceInInlineCodeSegments x replacement regex)
             a b Ha Hb).
  rewrite (pass_plain (lit "``")
             (fun x => replaceInInlineCodeSegments x replacement regex)
             a Ha).
  reflexivity.
Qed.

(** The hypotheses of [unterminated_fence_protects_the_rest] at a text
    whose fence is not closed. *)
Lemma unterminated_fence_protects_the_rest_witness :
  replaceInText (lit "opencode " ++ FENCE ++ lit "js and opencode")
    (lit "Renamer") None
  = replaceInText (lit "opencode ") (lit "Renamer") None ++ FENCE
    ++ lit "js and opencode".
Proof.
  apply unterminated_fence_protects_the_rest.
  - repeat constructor; discriminate.
  - intros [x [y H]].
    assert (Hb : backtickFree (lit "js and opencode"))
      by (repeat constructor; discriminate).
    rewrite H in Hb. apply Forall_app in Hb. destruct Hb as [_ Hb].
    inversion Hb as [|? ? Hc _]. apply Hc. reflexivity.
Defined.

(** Inline code is skipped in the same way by
    [replaceInInlineCodeSegments]: a span between two single backticks
    is copied and the texts around it are handled independently; and
    after a single backtick that is never closed the rest is copied. *)
Theorem inline_code_is_skipped (a inner rest replacement : text)
  (regex : option RegExp) :
  backtickFree a -> backtickFree inner ->
  replaceInInlineCodeSegments (a ++ TICK ++ inner ++ TICK ++ rest)
    replacement regex
  = replaceExcludingUrlsAndPaths a replacement regex ++ TICK ++ inner ++ TICK
    ++ replaceInInlineCodeSegments rest replacement regex /\
  replaceInInlineCodeSegments (a ++ TICK ++ inner) replacement regex
  = replaceExcludingUrlsAndPaths a replacement regex ++ TICK ++ inner.
Proof.
  intros Ha Hi. unfold replaceInInlineCodeSegments.
  change TICK with ("`" :: lit "") in *. split.
  - apply (pass_delimited (lit "")
             (fun x => replaceExcludingUrlsAndPaths x replacement regex)
             a inner rest Ha Hi).
  - apply (pass_unterminated (lit "")
             (fun x => replaceExcludingUrlsAndPaths x replacement regex)
             a inner Ha).
    apply (backtickFree_no_tick inner Hi).
Qed.

(** The hypotheses of [inline_code_is_skipped] at an inline span. *)
Lemma inline_code_is_skipped_witness :
  replaceInInlineCodeSegments
    (lit "run " ++ TICK ++ lit "opencode" ++ TICK ++ lit " in opencode")
    (lit "Renamer") None
  = replaceExcludingUrlsAndPaths (lit "run ") (lit "Renamer") None ++ TICK
    ++ lit "opencode" ++ TICK
    ++ replaceInInlineCodeSegments (lit " in opencode") (lit "Renamer") None /\
  replaceInInlineCodeSegments (lit "run " ++ TICK ++ lit "opencode")
    (lit "Renamer") None
  = replaceExcludingUrlsAndPaths (lit "run ") (lit "Renamer") None ++ TICK
    ++ lit "opencode".
Proof.
  apply inline_code_is_skipped; repeat constructor; discriminate.
Defined.

(** ** What a protected range looks like *)

Lemma runLength_spec (p : ascii -> bool) (u : text) :
  runLength p u <= length u /\
  forallb p (firstn (runLength p u) u) = true /\
  match nth_error u (runLength p u) with
  | Some c => p c = false
  | None => True
  end.
Proof.
  induction u as [|c u [IH1 [IH2 IH3]]]; [repeat split; auto|].
  cbn [runLength]. destruct (p c) eqn:E.
  - cbn [length firstn forallb nth_error]. rewrite E, IH2.
    repeat split; [lia | exact IH3].
  - cbn [length firstn forallb nth_error]. repeat split; [lia | exact E].
Qed.

Lemma tokenAt_after (q u : text) (n : nat) :
  forallb nonTerminator q = true -> tokenAt u n ->
  tokenAt (q ++ u) (length q + n).
Proof.
  intros Hq [Hn [Hlen [Hall Hnext]]]. unfold tokenAt.
  rewrite length_app. repeat split; try lia.
  - rewrite firstn_app. replace (length q + n - length q) with n by lia.
    rewrite firstn_all2 by lia. rewrite forallb_app, Hq, Hall. reflexivity.
  - rewrite nth_error_app2 by lia.
    replace (length q + n - length q) with n by lia. exact Hnext.
Qed.

Lemma tailRun_token (consumed : nat) (u : text) (n : nat) :
  tailRun consumed u = Some n ->
  exists k, n = consumed + k /\ tokenAt u k.
Proof.
  unfold tailRun. destruct (runLength nonTerminator u =? 0)%nat eqn:E;
    [discriminate|].
  apply Nat.eqb_neq in E. intros [= <-].
  exists (runLength nonTerminator u). split; [reflexivity|].
  destruct (runLength_spec nonTerminator u) as [H1 [H2 H3]].
  unfold tokenAt. repeat split; try assumption. lia.
Qed.

(** The code units a literal of the two patterns can stand for. *)
Lemma literal_nonTerminator (ic : bool) (x c : ascii) :
  In x (lit "https:/~.\") ->
  Ascii.eqb (canonicalize ic x) (canonicalize ic c) = true ->
  nonTerminator c = true.
Proof.
  intros Hx Hc. apply Ascii.eqb_eq in Hc. revert Hc.
  cbn in Hx.
  repeat (destruct Hx as [<- | Hx]; [|]); try contradiction;
    destruct ic; destruct c as [[] [] [] [] [] [] [] []];
    intros Hc; try reflexivity; discriminate Hc.
Qed.

Lemma stripPrefix_split (ic : bool) (p : text) :
  (forall x, In x p -> In x (lit "https:/~.\")) ->
  forall t t', stripPrefix ic p t = Some t' ->
  exists q, t = q ++ t' /\ length q = length p /\
            forallb nonTerminator q = true.
Proof.
  induction p as [|x p IH]; intros Hp t t' H.
  - injection H as <-. exists []. auto.
  - destruct t as [|c t]; [discriminate|]. cbn [stripPrefix] in H.
    destruct (Ascii.eqb (canonicalize ic x) (canonicalize ic c)) eqn:E;
      [|discriminate].
    destruct (IH (fun y Hy => Hp y (or_intror Hy)) t t' H)
      as [q [-> [Hlen Hq]]].
    exists (c :: q). cbn [app length forallb].
    rewrite (literal_nonTerminator ic x c (Hp x (or_introl eq_refl)) E), Hq.
    auto.
Qed.

Lemma literalThenRun_token (ic : bool) (consumed : nat) (p t : text)
  (n : nat) :
  (forall x, In x p -> In x (lit "https:/~.\")) ->
  literalThenRun ic consumed p t = Some n ->
  exists k, n = consumed + k /\ tokenAt t k.
Proof.
  intros Hp. unfold literalThenRun.
  destruct (stripPrefix ic p t) as [t'|] eqn:E; [|discriminate].
  intros H. destruct (stripPrefix_split ic p Hp t t' E) as [q [-> [Hlen Hq]]].
  destruct (tailRun_token _ _ _ H) as [k [-> Hk]].
  exists (length q + k). split; [lia|]. apply tokenAt_after; assumption.
Qed.

Lemma tokenAt_cons (c : ascii) (t : text) (k : nat) :
  nonTerminator c = true -> tokenAt t k -> tokenAt (c :: t) (S k).
Proof.
  intros Hc Hk. apply (tokenAt_after [c] t k); [|exact Hk].
  cbn [forallb]. rewrite Hc. reflexivity.
Qed.

Lemma optionalChar_token (ic : bool) (x : ascii) (consumed : nat) (t : text)
  (k : nat -> text -> option nat) (n : nat) :
  In x (lit "https:/~.\") ->
  (forall c u m, k c u = Some m -> exists j, m = c + j /\ tokenAt u j) ->
  optionalChar ic x consumed t k = Some n ->
  exists j, n = consumed + j /\ tokenAt t j.
Proof.
  intros Hx Hk. unfold optionalChar. destruct t as [|c t]; [apply Hk|].
  destruct (Ascii.eqb (canonicalize ic x) (canonicalize ic c)) eqn:E;
    [|apply Hk].
  destruct (k (S consumed) t) as [m|] eqn:Em; [|apply Hk].
  intros [= <-]. destruct (Hk _ _ _ Em) as [j [-> Hj]].
  exists (S j). split; [lia|]. apply tokenAt_cons; [|exact Hj].
  exact (literal_nonTerminator ic x c Hx E).
Qed.

Ltac literal_char := cbn; repeat (first [left; reflexivity | right]).

Ltac literal_chars :=
  let y := fresh "y" in let Hy := fresh "Hy" in
  intros y Hy; cbn in Hy;
  repeat (destruct Hy as [<- | Hy]; [literal_char|]); destruct Hy.

Lemma urlMatchAt_token (prev : option ascii) (t : text) (n : nat) :
  urlMatchAt prev t = Some n -> tokenAt t n.
Proof.
  unfold urlMatchAt.
  destruct (stripPrefix true (lit "http") t) as [t1|] eqn:E; [|discriminate].
  destruct (stripPrefix_split true (lit "http") ltac:(literal_chars) t t1 E)
    as [q [-> [Hlen Hq]]].
  intros H. apply optionalChar_token in H.
  - destruct H as [j [-> Hj]]. change 4 with (length (lit "http")).
    rewrite <- Hlen. apply tokenAt_after; assumption.
  - literal_char.
  - intros c u m. apply literalThenRun_token. literal_chars.
Qed.

Lemma isAlpha_nonTerminator (c : ascii) :
  isAlpha c = true -> nonTerminator c = true.
Proof.
  destruct c as [[] [] [] [] [] [] [] []]; intros H;
    try reflexivity; discriminate H.
Qed.

Lemma pathMatchAt_token (prev : option ascii) (t : text) (n : nat) :
  pathMatchAt prev t = Some n -> tokenAt t n.
Proof.
  unfold pathMatchAt, orElse.
  destruct (drivePathAt prev t) as [m|] eqn:E1.
  - intros [= <-]. unfold drivePathAt in E1. destruct t as [|c t]; [discriminate|].
    destruct (wordBoundaryBefore prev && isAlpha c) eqn:Eb; [|discriminate].
    apply andb_prop in Eb. destruct Eb as [_ Ha].
    apply literalThenRun_token in E1; [|literal_chars].
    destruct E1 as [k [-> Hk]]. apply tokenAt_cons; [|exact Hk].
    apply isAlpha_nonTerminator, Ha.
  - destruct (homePathAt t) as [m|] eqn:E2.
    + intros [= <-]. apply literalThenRun_token in E2; [|literal_chars].
      destruct E2 as [k [-> Hk]]. exact Hk.
    + unfold relativePathAt. destruct t as [|c t]; [discriminate|].
      destruct (Ascii.eqb c ".") eqn:Ec.
      * apply Ascii.eqb_eq in Ec. subst c. intros H.
        apply optionalChar_token in H.
        -- destruct H as [j [-> Hj]]. apply tokenAt_cons; [reflexivity | exact Hj].
        -- literal_char.
        -- intros c u m. apply literalThenRun_token. literal_chars.
      * intros H. exfalso. revert H.
        destruct c as [[] [] [] [] [] [] [] []]; discriminate.
Qed.

Section Scan.

Variable matcher : option ascii -> text -> option nat.
Hypothesis matcher_token :
  forall prev t n, matcher prev t = Some n -> tokenAt t n.

Variable whole : text.

Lemma matchAllLoop_token (t : text) :
  forall pos skip prev s e,
    t = skipn pos whole ->
    In (s, e) (matchAllLoop matcher pos skip prev t) ->
    (Z.of_nat pos <= s)%Z /\
    tokenAt (skipn (Z.to_nat s) whole) (Z.to_nat (e - s)).
Proof.
  induction t as [|c t IH]; intros pos skip prev s e Ht Hin; [destruct Hin|].
  assert (Ht' : t = skipn (S pos) whole).
  { replace (S pos) with (pos + 1) by lia.
    rewrite skipn_plus, <- Ht. reflexivity. }
  cbn [matchAllLoop] in Hin. destruct skip as [|k].
  - destruct (matcher prev (c :: t)) as [len|] eqn:E.
    + destruct Hin as [[= <- <-] | Hin].
      * split; [lia|]. rewrite Nat2Z.id, <- Ht.
        replace (Z.to_nat (Z.of_nat pos + Z.of_nat len - Z.of_nat pos))
          with len by lia.
        apply (matcher_token _ _ _ E).
      * destruct (IH _ _ _ _ _ Ht' Hin). split; [lia | assumption].
    + destruct (IH _ _ _ _ _ Ht' Hin). split; [lia | assumption].
  - destruct (IH _ _ _ _ _ Ht' Hin). split; [lia | assumption].
Qed.

Lemma matchAllLoop_after_skip (t : text) :
  forall pos skip prev s e,
    In (s, e) (matchAllLoop matcher pos skip prev t) ->
    (Z.of_nat pos + Z.of_nat skip <= s)%Z.
Proof.
  induction t as [|c t IH]; intros pos skip prev s e Hin; [destruct Hin|].
  cbn [matchAllLoop] in Hin. destruct skip as [|k].
  - destruct (matcher prev (c :: t)) as [len|] eqn:E.
    + destruct Hin as [[= <- <-] | Hin]; [lia|]. apply IH in Hin. lia.
    + apply IH in Hin. lia.
  - apply IH in Hin. lia.
Qed.

Lemma matchAllLoop_succession (t : text) :
  forall pos skip prev,
    inSuccession (matchAllLoop matcher pos skip prev t).
Proof.
  induction t as [|c t IH]; intros pos skip prev; [exact I|].
  cbn [matchAllLoop]. destruct skip as [|k]; [|apply IH].
  destruct (matcher prev (c :: t)) as [len|] eqn:E; [|apply IH].
  pose proof (IH (S pos) (len - 1) (Some c)) as Hrest.
  pose proof (matchAllLoop_after_skip t (S pos) (len - 1) (Some c)) as Hskip.
  destruct (matchAllLoop matcher (S pos) (len - 1) (Some c) t)
    as [|[s e] rest]; [exact I|].
  split; [|exact Hrest].
  specialize (Hskip s e (or_introl eq_refl)).
  destruct (matcher_token _ _ _ E) as [Hpos _]. cbn [fst snd]. lia.
Qed.

End Scan.

Lemma tokenAt_slice (t : text) (s e : Z) :
  (0 <= s)%Z ->
  tokenAt (skipn (Z.to_nat s) t) (Z.to_nat (e - s)) ->
  (s < e)%Z /\ (e <= Z.of_nat (length t))%Z /\
  forallb nonTerminator (slice t s e) = true /\
  match nth_error t (Z.to_nat e) with
  | Some c => nonTerminator c = false
  | None => True
  end.
Proof.
  intros Hs [Hn [Hlen [Hall Hnext]]]. rewrite length_skipn in Hlen.
  assert (Hse : (s < e)%Z) by lia.
  split; [exact Hse|]. split; [lia|]. split.
  - rewrite slice_nonneg by lia.
    replace (Z.to_nat e - Z.to_nat s) with (Z.to_nat (e - s)) by lia.
    exact Hall.
  - rewrite nth_error_skipn in Hnext.
    replace (Z.to_nat s + Z.to_nat (e - s)) with (Z.to_nat e) in Hnext by lia.
    exact Hnext.
Qed.

(** Every range [replaceExcludingUrlsAndPaths] protects lies within the
    text and is not empty; none of its code units is white space, a
    backtick, a quote, a closing parenthesis or a closing square bracket;
    and it runs up to the end of the text or to such a code unit.  The
    URL matches do not overlap one another, nor do the path matches (a
    URL match and a path match can, which is what the merging is for). *)
Theorem protected_ranges_are_tokens (t : text) :
  (forall s e, In (s, e) (protectedRanges t) ->
     (0 <= s)%Z /\ (s < e)%Z /\ (e <= Z.of_nat (length t))%Z /\
     forallb nonTerminator (slice t s e) = true /\
     match nth_error t (Z.to_nat e) with
     | Some c => nonTerminator c = false
     | None => True
     end) /\
  inSuccession (matchAll urlMatchAt t) /\
  inSuccession (matchAll pathMatchAt t).
Proof.
  split; [|split].
  - intros s e Hin. unfold protectedRanges, matchAll in Hin.
    apply in_app_or in Hin.
    assert (H : (0 <= s)%Z /\
                tokenAt (skipn (Z.to_nat s) t) (Z.to_nat (e - s))).
    { destruct Hin as [Hin | Hin].
      - apply (matchAllLoop_token urlMatchAt urlMatchAt_token t t 0 0 None s e
                 eq_refl) in Hin. destruct Hin. split; [lia | assumption].
      - apply (matchAllLoop_token pathMatchAt pathMatchAt_token t t 0 0 None
                 s e eq_refl) in Hin. destruct Hin. split; [lia | assumption]. }
    destruct H as [Hs Htok]. split; [exact Hs|].
    apply tokenAt_slice; assumption.
  - apply matchAllLoop_succession, urlMatchAt_token.
  - apply matchAllLoop_succession, pathMatchAt_token.
Qed.

(** ** The environment switch *)

Import Plugin.

Lemma isSpace_toLowerCaseChar (c : ascii) :
  isSpace (toLowerCaseChar c) = isSpace c.
Proof.
  destruct c as [[] [] [] [] [] [] [] []]; vm_compute; reflexivity.
Qed.

Lemma toLowerCaseChar_idempotent (c : ascii) :
  toLowerCaseChar (toLowerCaseChar c) = toLowerCaseChar c.
Proof.
  destruct c as [[] [] [] [] [] [] [] []]; vm_compute; reflexivity.
Qed.

Lemma toLowerCase_toUpperCaseChar (c : ascii) :
  toLowerCaseChar (toUpperCaseChar c) = toLowerCaseChar c.
Proof.
  destruct c as [[] [] [] [] [] [] [] []]; vm_compute; reflexivity.
Qed.

Lemma trimStart_same_case (v : text) :
  forall v', toLowerCase v = toLowerCase v' ->
  toLowerCase (trimStart v) = toLowerCase (trimStart v').
Proof.
  induction v as [|c v IH]; intros [|c' v'] H; try discriminate; [reflexivity|].
  cbn [toLowerCase map] in H. injection H as Hc Hv.
  cbn [trimStart].
  rewrite <- (isSpace_toLowerCaseChar c), Hc, isSpace_toLowerCaseChar.
  destruct (isSpace c').
  - apply IH. exact Hv.
  - cbn [toLowerCase map]. rewrite Hc. f_equal. exact Hv.
Qed.

Lemma toLowerCase_rev (v : text) : toLowerCase (rev v) = rev (toLowerCase v).
Proof. unfold toLowerCase. apply map_rev. Qed.

Lemma trim_same_case (v v' : text) :
  toLowerCase v = toLowerCase v' ->
  toLowerCase (trim v) = toLowerCase (trim v').
Proof.
  intros H. unfold trim. rewrite !toLowerCase_rev. f_equal.
  apply trimStart_same_case. rewrite !toLowerCase_rev. f_equal.
  apply trimStart_same_case. exact H.
Qed.

Lemma trimStart_blank_app (p v : text) :
  blank p -> trimStart (p ++ v) = trimStart v.
Proof.
  unfold blank. induction p as [|c p IH]; [reflexivity|].
  cbn [forallb app trimStart]. intros H. apply andb_prop in H.
  destruct H as [Hc Hp]. rewrite Hc. apply IH. exact Hp.
Qed.

Lemma trimStart_blank (p : text) : blank p -> trimStart p = [].
Proof.
  intros H. rewrite <- (app_nil_r p). rewrite trimStart_blank_app by exact H.
  reflexivity.
Qed.

Lemma trimStart_app_blank (v q : text) :
  blank q ->
  trimStart (v ++ q) = match trimStart v with [] => [] | _ :: _ => trimStart v ++ q end.
Proof.
  intros Hq. induction v as [|c v IH].
  - cbn [app trimStart]. apply trimStart_blank. exact Hq.
  - cbn [app trimStart]. destruct (isSpace c); [exact IH | reflexivity].
Qed.

Lemma blank_rev (q : text) : blank q -> blank (rev q).
Proof.
  unfold blank. rewrite !forallb_forall. intros H x Hx. apply H.
  apply in_rev. exact Hx.
Qed.

Lemma trim_padding (p v q : text) :
  blank p -> blank q -> trim (p ++ v ++ q) = trim v.
Proof.
  intros Hp Hq. unfold trim.
  rewrite trimStart_blank_app by exact Hp.
  rewrite trimStart_app_blank by exact Hq.
  destruct (trimStart v) as [|c u] eqn:E; [reflexivity|].
  rewrite rev_app_distr. rewrite trimStart_blank_app by (apply blank_rev; exact Hq).
  reflexivity.
Qed.

(** [parseBool] looks at its argument up to case and to white space
    around it: a value padded with white space on both sides is read as
    the bare value, and as any value that differs from it in case
    only. *)
Theorem parseBool_ignores_case_and_padding (v v' p q : text) :
  blank p -> blank q -> toLowerCase v = toLowerCase v' ->
  parseBool (Some (p ++ v ++ q)) = parseBool (Some v').
Proof.
  intros Hp Hq H. unfold parseBool. cbv zeta.
  rewrite (trim_padding p v q Hp Hq), (trim_same_case v v' H). reflexivity.
Qed.

(** The hypotheses of [parseBool_ignores_case_and_padding] at a padded,
    capitalised yes. *)
Lemma parseBool_ignores_case_and_padding_witness :
  parseBool (Some (lit "  " ++ lit "Yes" ++ lit " ")) = parseBool (Some (lit "yes")).
Proof.
  apply parseBool_ignores_case_and_padding; reflexivity.
Defined.

(** ** Where a setting comes from *)

Example test_hooks_default :
  mergeHooksConfig None None = mkHooksConfig true true true true true.
Proof. reflexivity. Qed.

Example test_project_overrides_global :
  mergeHooksConfig (Some (mkPartialHooks (Some false) (Some false) None None None))
    (Some (mkPartialHooks (Some true) None None None None))
  = mkHooksConfig true false true true true.
Proof. reflexivity. Qed.

Lemma compileVariants_value : compileVariants = Some CASE_VARIANTS_REGEX.
Proof. vm_compute. reflexivity. Qed.

Lemma trimStart_nil_blank (t : text) : trimStart t = [] -> blank t.
Proof.
  unfold blank. induction t as [|c t IH]; [reflexivity|].
  cbn [trimStart forallb]. destruct (isSpace c) eqn:E; [exact IH | discriminate].
Qed.

Lemma trim_blank (t : text) :
  (0 <? length (trim t))%nat = negb (forallb isSpace t).
Proof.
  unfold trim. destruct (forallb isSpace t) eqn:E.
  - rewrite (trimStart_blank t E). reflexivity.
  - destruct (trimStart t) as [|c u] eqn:Et.
    + apply trimStart_nil_blank in Et. unfold blank in Et. congruence.
    + destruct (trimStart (rev (c :: u))) as [|d x] eqn:Er.
      * apply trimStart_nil_blank in Er. apply blank_rev in Er.
        rewrite rev_involutive in Er. unfold blank in Er.
        cbn [forallb] in Er. apply andb_prop in Er. destruct Er as [Hc _].
        assert (Hn : isSpace c = false).
        { clear -Et. induction t as [|a t IH]; [discriminate|].
          cbn [trimStart] in Et. destruct (isSpace a) eqn:Ea.
          - apply IH. exact Et.
          - injection Et as -> _. exact Ea. }
        congruence.
      * rewrite length_rev. reflexivity.
Qed.

Lemma envReplacement_used (r : text) :
  nonEmpty r && (0 <? length (trim r))%nat = negb (forallb isSpace r).
Proof.
  rewrite trim_blank. destruct r; reflexivity.
Qed.

Lemma loadConfig_reload (s : ReplaceState) (w : World) :
  shouldReloadConfig s w = true \/ cachedConfig s = None ->
  exists c,
    loadConfig s w
    = (c, mkReplaceState (Some c) (Some (nowLoaded w)) (projectConfigPath s)
            (globalConfigPath s) (matcherFor c)) /\
    enabled c
    = firstSet [parseBool (envEnabled w);
                setting enabled_opt (readIfSet w (projectConfigPath s));
                setting enabled_opt (readIfSet w (globalConfigPath s))] true /\
    replacement c
    = firstSet [notBlank (envReplacement w);
                setting replacement_opt (readIfSet w (projectConfigPath s));
                setting replacement_opt (readIfSet w (globalConfigPath s))]
        (lit "Renamer") /\
    caseVariants c
    = firstSet [setting caseVariants_opt (readIfSet w (projectConfigPath s));
                setting caseVariants_opt (readIfSet w (globalConfigPath s))]
        false /\
    forall h,
      hookOf (hooks c) h
      = firstSet [hookSetting h (readIfSet w (projectConfigPath s));
                  hookSetting h (readIfSet w (globalConfigPath s))] true.
Proof.
  intros H. unfold loadConfig.
  replace (if shouldReloadConfig s w then None else cachedConfig s)
    with (@None ReplaceConfig)
    by (destruct H as [-> | ->]; [reflexivity | destruct (shouldReloadConfig s w); reflexivity]).
  cbv zeta. rewrite compileVariants_value.
  set (p := readIfSet w (projectConfigPath s)).
  set (g := readIfSet w (globalConfigPath s)).
  set (m0 := mergedConfig g p).
  set (m1 := match parseBool (envEnabled w) with Some b => _ | None => m0 end).
  set (m2 := match envReplacement w with Some r => _ | None => m1 end).
  exists m2.
  assert (Hcv : caseVariants m2 = caseVariants m0).
  { unfold m2, m1. destruct (envReplacement w) as [r|];
      [destruct (nonEmpty r && _)|]; destruct (parseBool (envEnabled w));
      reflexivity. }
  assert (Hh : hooks m2 = hooks m0).
  { unfold m2, m1. destruct (envReplacement w) as [r|];
      [destruct (nonEmpty r && _)|]; destruct (parseBool (envEnabled w));
      reflexivity. }
  split; [|split; [|split; [|split]]].
  - unfold matcherFor. destruct (caseVariants m2); reflexivity.
  - unfold m2, m1. destruct (envReplacement w) as [r|];
      [destruct (nonEmpty r && _)|]; destruct (parseBool (envEnabled w));
      cbn [enabled firstSet]; try reflexivity;
      unfold m0, mergedConfig; cbn [enabled];
      destruct p as [[[] ? ? ?]|], g as [[[] ? ? ?]|]; reflexivity.
  - unfold m2. unfold notBlank. destruct (envReplacement w) as [r|].
    + rewrite envReplacement_used. destruct (forallb isSpace r);
        cbn [negb replacement firstSet]; [|reflexivity].
      unfold m1. destruct (parseBool (envEnabled w)); cbn [replacement];
        unfold m0, mergedConfig; cbn [replacement];
        destruct p as [[? [] ? ?]|], g as [[? [] ? ?]|]; reflexivity.
    + cbn [firstSet].
      unfold m1. destruct (parseBool (envEnabled w)); cbn [replacement];
        unfold m0, mergedConfig; cbn [replacement];
        destruct p as [[? [] ? ?]|], g as [[? [] ? ?]|]; reflexivity.
  - rewrite Hcv. unfold m0, mergedConfig; cbn [caseVariants].
    destruct p as [[? ? ? []]|], g as [[? ? ? []]|]; reflexivity.
  - intros h. rewrite Hh. unfold m0, mergedConfig; cbn [hooks].
    unfold hookSetting, hooksOf.
    destruct p as [[? ? [[? ? ? ? ?]|] ?]|], g as [[? ? [[? ? ? ? ?]|] ?]|];
      destruct h; cbn;
      repeat match goal with
             | |- context [spreadKey _ ?x] => destruct x; cbn
             end; reflexivity.
Qed.

(** When [loadConfig] reads the configuration afresh, every setting is
    taken from the first place that sets it: [enabled] from the
    environment (when [parseBool] reads the value), then the project
    file, then the global file, then [true]; [replacement] from the
    environment (when the value is not blank), then the project file,
    then the global file, then the default word; [caseVariants] from
    the project file, then the global file, then [false]; and every hook
    on its own from the project file, then the global file, then
    [true]. *)
Theorem settings_precedence (s : ReplaceState) (w : World) :
  shouldReloadConfig s w = true ->
  let c := fst (loadConfig s w) in
  let project := readIfSet w (projectConfigPath s) in
  let global := readIfSet w (globalConfigPath s) in
  enabled c
  = firstSet [parseBool (envEnabled w); setting enabled_opt project;
              setting enabled_opt global] true /\
  replacement c
  = firstSet [notBlank (envReplacement w); setting replacement_opt project;
              setting replacement_opt global] (lit "Renamer") /\
  caseVariants c
  = firstSet [setting caseVariants_opt project;
              setting caseVariants_opt global] false /\
  forall h,
    hookOf (hooks c) h
    = firstSet [hookSetting h project; hookSetting h global] true.
Proof.
  intros H.
  destruct (loadConfig_reload s w (or_introl H)) as [c [E Hc]].
  rewrite E. exact Hc.
Qed.

(** The hypothesis of [settings_precedence] at the example: the first
    load. *)
Lemma settings_precedence_witness :
  let c := fst (loadConfig exampleState exampleWorld) in
  enabled c = true /\ replacement c = lit "Mine" /\ caseVariants c = true /\
  hookOf (hooks c) ChatMessage = false /\ hookOf (hooks c) SystemPrompt = false /\
  hookOf (hooks c) ToolOutput = true.
Proof.
  pose proof (settings_precedence exampleState exampleWorld eq_refl) as H.
  cbv zeta in H. destruct H as [He [Hr [Hc Hh]]].
  cbv zeta. rewrite He, Hr, Hc, !Hh. vm_compute. repeat split; reflexivity.
Defined.

(** ** The cache *)

(** A configuration loaded at most 1000 ms ago is returned as it is,
    whatever the files and the environment say by now, and the state is
    left as it was; after a file event for one of the two configuration
    paths the next call reads everything afresh, as the first call
    does. *)
Theorem config_is_cached_until_a_file_event (s : ReplaceState) (w : World)
  (c : ReplaceConfig) (loaded : Z) (filePath : text) :
  cachedConfig s = Some c ->
  lastLoaded s = Some loaded -> loaded <> 0%Z -> (now w - loaded <= 1000)%Z ->
  filePath <> [] ->
  (projectConfigPath s = Some filePath \/ globalConfigPath s = Some filePath) ->
  loadConfig s w = (c, s) /\
  loadConfig (onFileEvent (Some filePath) s) w
  = loadConfig (initialState (projectConfigPath s) (globalConfigPath s)) w.
Proof.
  intros Hc Hl H0 Hnow Hne Hpath. split.
  - unfold loadConfig, shouldReloadConfig. rewrite Hl.
    destruct (Z.eqb_spec loaded 0) as [E | _]; [contradiction|].
    replace (now w - loaded >? 1000)%Z with false by (symmetry; lia).
    rewrite Hc. reflexivity.
  - assert (Hev : onFileEvent (Some filePath) s
                  = mkReplaceState (cachedConfig s) (Some 0%Z)
                      (projectConfigPath s) (globalConfigPath s)
                      (variantRegex s)).
    { unfold onFileEvent.
      assert (Hself : text_eqb filePath filePath = true).
      { unfold text_eqb. destruct (list_eq_dec ascii_dec filePath filePath);
          [reflexivity | contradiction]. }
      destruct filePath as [|a u]; [contradiction|]. cbn [nonEmpty andb].
      destruct Hpath as [-> | ->]; rewrite Hself; [reflexivity|].
      rewrite orb_true_r. reflexivity. }
    rewrite Hev. unfold loadConfig, shouldReloadConfig, initialState.
    cbn [lastLoaded cachedConfig projectConfigPath globalConfigPath Z.eqb].
    cbv zeta. rewrite compileVariants_value.
    match goal with
    | |- context [if caseVariants ?m then _ else _] =>
        destruct (caseVariants m)
    end; reflexivity.
Qed.

(** The hypotheses of [config_is_cached_until_a_file_event] at the state
    the example leaves, 900 ms later, when both files are gone. *)
Lemma config_is_cached_until_a_file_event_witness :
  let s := snd (loadConfig exampleState exampleWorld) in
  let later :=
    mkWorld 5900 5901 (fun _ => None) None None in
  replacement (fst (loadConfig s later)) = lit "Mine" /\
  replacement
    (fst (loadConfig
            (onFileEvent (Some (lit "/p/.opencode/renamer-config.json")) s)
            later))
  = lit "Renamer".
Proof.
  cbv zeta.
  destruct (config_is_cached_until_a_file_event
              (snd (loadConfig exampleState exampleWorld))
              (mkWorld 5900 5901 (fun _ => None) None None)
              (fst (loadConfig exampleState exampleWorld)) 5001
              (lit "/p/.opencode/renamer-config.json")
              eq_refl eq_refl ltac:(discriminate) ltac:(vm_compute; discriminate)
              ltac:(discriminate) (or_introl eq_refl)) as [H1 H2].
  rewrite H1, H2. split; vm_compute; reflexivity.
Defined.

Lemma loadConfig_in_sync (s : ReplaceState) (w : World) :
  (forall c, cachedConfig s = Some c -> variantRegex s = matcherFor c) ->
  cachedConfig (snd (loadConfig s w)) = Some (fst (loadConfig s w)) /\
  variantRegex (snd (loadConfig s w)) = matcherFor (fst (loadConfig s w)) /\
  projectConfigPath (snd (loadConfig s w)) = projectConfigPath s /\
  globalConfigPath (snd (loadConfig s w)) = globalConfigPath s.
Proof.
  intros Hs.
  destruct (shouldReloadConfig s w) eqn:Er;
    [|destruct (cachedConfig s) as [c|] eqn:Ec].
  - destruct (loadConfig_reload s w (or_introl Er)) as [c [E _]].
    rewrite E. repeat split; reflexivity.
  - unfold loadConfig. rewrite Er, Ec. cbn [fst snd].
    repeat split; [exact Ec | apply Hs; reflexivity].
  - destruct (loadConfig_reload s w (or_intror Ec)) as [c [E _]].
    rewrite E. repeat split; reflexivity.
Qed.

Lemma Reachable_in_sync (project global : option text) (s : ReplaceState) :
  Reachable project global s ->
  (forall c, cachedConfig s = Some c -> variantRegex s = matcherFor c) /\
  projectConfigPath s = project /\ globalConfigPath s = global.
Proof.
  induction 1 as [|s w _ [IH [Hp Hg]]|s filePath _ [IH [Hp Hg]]].
  - repeat split. intros c H. discriminate.
  - destruct (loadConfig_in_sync s w IH) as [Hc [Hr [Hp' Hg']]].
    split; [|split; congruence].
    intros c Ec. rewrite Hc in Ec. injection Ec as <-. exact Hr.
  - unfold onFileEvent. destruct filePath as [path|]; [|auto].
    destruct (nonEmpty path && _); [|auto].
    cbn [cachedConfig variantRegex projectConfigPath globalConfigPath]. auto.
Qed.

(** In every state the plugin can get into, [loadConfig] returns the
    configuration it leaves in the cache, and the matcher it leaves in
    the state is the one that goes with the configuration returned: the
    compiled alternation when [caseVariants] is set, none (so the
    default matcher) otherwise.  In particular generating and compiling
    the variants never throws, so the branch that returns the defaults
    is not taken on their account. *)
Theorem matcher_follows_the_configuration (project global : option text)
  (s : ReplaceState) (w : World) :
  Reachable project global s ->
  cachedConfig (snd (loadConfig s w)) = Some (fst (loadConfig s w)) /\
  variantRegex (snd (loadConfig s w))
  = (if caseVariants (fst (loadConfig s w))
     then Some CASE_VARIANTS_REGEX else None) /\
  projectConfigPath (snd (loadConfig s w)) = project /\
  globalConfigPath (snd (loadConfig s w)) = global.
Proof.
  intros H. destruct (Reachable_in_sync project global s H) as [Hs [Hp Hg]].
  destruct (loadConfig_in_sync s w Hs) as [Hc [Hr [Hp' Hg']]].
  repeat split; [exact Hc | exact Hr | congruence | congruence].
Qed.

(** The hypothesis of [matcher_follows_the_configuration] at the
    starting state. *)
Lemma matcher_follows_the_configuration_witness :
  variantRegex (snd (loadConfig exampleState exampleWorld))
  = Some CASE_VARIANTS_REGEX.
Proof.
  destruct (matcher_follows_the_configuration _ _ exampleState exampleWorld
              (Reachable_start _ _)) as [_ [H _]].
  rewrite H. vm_compute. reflexivity.
Defined.

(** ** What [caseVariants] does to the casings of the target word *)

Lemma lower_preimage (c x : ascii) :
  toLowerCaseChar c = x -> isLowerAlpha x = true ->
  c = x \/ c = toUpperCaseChar x.
Proof.
  intros <-. destruct c as [[] [] [] [] [] [] [] []]; vm_compute; intros H;
    first [discriminate | left; reflexivity | right; reflexivity].
Qed.

Lemma existsb_text_In (w : text) (l : list text) :
  existsb (text_eqb w) l = true <-> In w l.
Proof.
  rewrite existsb_exists. unfold text_eqb. split.
  - intros [x [Hin H]]. destruct (list_eq_dec ascii_dec w x); [subst; exact Hin | discriminate].
  - intros H. exists w. split; [exact H|].
    destruct (list_eq_dec ascii_dec w w); [reflexivity | contradiction].
Qed.

Lemma unmatched_word (w replacement : text) (regex : RegExp) :
  execFrom regex 0 w = None -> replaceInText w replacement (Some regex) = w.
Proof.
  intros H. apply (Image_no_match replacement (Some regex));
    [apply replaceInText_image | exact H].
Qed.

(** The default matcher matches every casing of the word opencode.  The
    matcher compiled for [caseVariants] is case-sensitive: of these
    casings it matches five (the four base spellings and the camel-case
    variant), and [replaceInText] returns every other casing as it
    is. *)
Theorem case_variants_narrow_the_matcher (w replacement : text) :
  toLowerCase w = lit "opencode" ->
  matchesSomewhere OPENCODE_REGEX w = true /\
  (matchesSomewhere CASE_VARIANTS_REGEX w = true <-> In w KEPT_SPELLINGS) /\
  (~ In w KEPT_SPELLINGS ->
   replaceInText w replacement (Some CASE_VARIANTS_REGEX) = w).
Proof.
  intros H.
  destruct w as [|c1 [|c2 [|c3 [|c4 [|c5 [|c6 [|c7 [|c8 [|c9 w]]]]]]]]];
    try discriminate H.
  unfold toLowerCase, lit in H. cbn [map String.list_ascii_of_string] in H.
  injection H as H1 H2 H3 H4 H5 H6 H7 H8.
  apply lower_preimage in H1, H2, H3, H4, H5, H6, H7, H8; try reflexivity.
  rewrite <- !existsb_text_In.
  destruct H1 as [-> | ->], H2 as [-> | ->], H3 as [-> | ->], H4 as [-> | ->],
    H5 as [-> | ->], H6 as [-> | ->], H7 as [-> | ->], H8 as [-> | ->];
    (split; [vm_compute; reflexivity|]);
    (split;
     [vm_compute; split; intros E; first [reflexivity | discriminate E]
     | first
         [ intros _; apply unmatched_word; vm_compute; reflexivity
         | intros E; exfalso; apply E; vm_compute; reflexivity ]]).
Qed.

(** The hypothesis of [case_variants_narrow_the_matcher] at a casing
    that is not kept. *)
Lemma case_variants_narrow_the_matcher_witness :
  matchesSomewhere OPENCODE_REGEX (lit "OPENcode") = true /\
  replaceInText (lit "OPENcode") (lit "Renamer") (Some CASE_VARIANTS_REGEX)
  = lit "OPENcode".
Proof.
  destruct (case_variants_narrow_the_matcher (lit "OPENcode") (lit "Renamer")
              eq_refl) as [H1 [_ H3]].
  split; [exact H1|]. apply H3. rewrite <- existsb_text_In. discriminate.
Defined.

(** ** Message parts *)

Import RegexState.
Local Open Scope string_scope.

Lemma getProp_setProp (k k' : String.string) (v : JsValue) (o : JsObject) :
  getProp k' o <> None ->
  getProp k (setProp k' v o) = if String.eqb k k' then Some v else getProp k o.
Proof.
  induction o as [|[k0 v0] o IH]; intros H; [contradiction|].
  cbn [getProp setProp] in *. destruct (String.eqb k' k0) eqn:E'.
  - apply String.eqb_eq in E'. subst k0. cbn [getProp].
    destruct (String.eqb k k'); reflexivity.
  - cbn [getProp]. rewrite (IH H).
    destruct (String.eqb k k0) eqn:E; [|reflexivity].
    apply String.eqb_eq in E. subst k0.
    destruct (String.eqb k k') eqn:E2; [|reflexivity].
    apply String.eqb_eq in E2. subst k'. rewrite String.eqb_refl in E'.
    discriminate.
Qed.

Section Parts.
Variables (replacement : text) (regex : option RegExp).

Let once (k : String.string) (o : JsObject) : JsObject :=
  match getProp k o with
  | Some (JString s) => setProp k (JString (replaceInText s replacement regex)) o
  | _ => o
  end.

Lemma rewriteProp_fresh (k : String.string) (o : JsObject) :
  rewriteProp k replacement regex o 0 = (once k o, 0%nat).
Proof.
  unfold rewriteProp, once. destruct (getProp k o) as [[s|tag]|]; try reflexivity.
  unfold bind. rewrite replaceInText_fresh. reflexivity.
Qed.

Lemma getProp_once (k k' : String.string) (o : JsObject) :
  getProp k (once k' o)
  = if String.eqb k k' then rewrittenValue 1 replacement regex (getProp k o)
    else getProp k o.
Proof.
  unfold once. destruct (getProp k' o) as [[s|tag]|] eqn:E.
  - rewrite getProp_setProp by congruence.
    destruct (String.eqb k k') eqn:Ek; [|reflexivity].
    apply String.eqb_eq in Ek. subst k'. rewrite E. reflexivity.
  - destruct (String.eqb k k') eqn:Ek; [|reflexivity].
    apply String.eqb_eq in Ek. subst k'. rewrite E. reflexivity.
  - destruct (String.eqb k k') eqn:Ek; [|reflexivity].
    apply String.eqb_eq in Ek. subst k'. rewrite E. reflexivity.
Qed.

Lemma hasType_once (name : text) (k' : String.string) (o : JsObject) :
  String.eqb "type" k' = false -> hasType name (once k' o) = hasType name o.
Proof.
  intros H. unfold hasType. rewrite getProp_once, H. reflexivity.
Qed.

Lemma replaceInPart_fresh (part : JsObject) :
  replaceInPart replacement regex part 0
  = (once "description"
       (once "title"
          ((if hasType (lit "subtask") part
            then fun o => once "description" (once "prompt" o)
            else fun o => o)
             (if hasType (lit "text") part then once "text" part else part))),
     0%nat).
Proof.
  unfold replaceInPart, bind.
  destruct (hasType (lit "text") part) eqn:Et.
  - rewrite rewriteProp_fresh. rewrite hasType_once by reflexivity.
    destruct (hasType (lit "subtask") part).
    + rewrite !rewriteProp_fresh. reflexivity.
    + unfold ret. rewrite !rewriteProp_fresh. reflexivity.
  - unfold ret at 1. destruct (hasType (lit "subtask") part).
    + rewrite !rewriteProp_fresh. reflexivity.
    + unfold ret. rewrite !rewriteProp_fresh. reflexivity.
Qed.

Lemma rewrittenValue_twice (v : option JsValue) :
  rewrittenValue 1 replacement regex (rewrittenValue 1 replacement regex v)
  = rewrittenValue 2 replacement regex v.
Proof. destruct v as [[s|tag]|]; reflexivity. Qed.

Lemma rewrittenValue_zero (v : option JsValue) :
  rewrittenValue 0 replacement regex v = v.
Proof. destruct v as [[s|tag]|]; reflexivity. Qed.

Lemma replaceInPart_value (part : JsObject) (key : String.string) :
  getProp key (fst (replaceInPart replacement regex part 0))
  = rewrittenValue (passes part key) replacement regex (getProp key part).
Proof.
  rewrite replaceInPart_fresh. cbn [fst]. unfold passes.
  destruct (hasType (lit "subtask") part), (hasType (lit "text") part);
    rewrite ?getProp_once;
    (destruct (String.eqb key "description") eqn:Ed;
     [apply String.eqb_eq in Ed; subst key; cbn [String.eqb Ascii.eqb Bool.eqb];
      rewrite ?rewrittenValue_twice; reflexivity|]);
    (destruct (String.eqb key "title") eqn:Ei;
     [apply String.eqb_eq in Ei; subst key; cbn [String.eqb Ascii.eqb Bool.eqb];
      reflexivity|]);
    (destruct (String.eqb key "prompt") eqn:Ep;
     [apply String.eqb_eq in Ep; subst key; cbn [String.eqb Ascii.eqb Bool.eqb];
      rewrite ?rewrittenValue_zero; reflexivity|]);
    (destruct (String.eqb key "text") eqn:Ex;
     [apply String.eqb_eq in Ex; subst key; cbn [String.eqb Ascii.eqb Bool.eqb];
      rewrite ?rewrittenValue_zero; reflexivity|]);
    rewrite ?rewrittenValue_zero; reflexivity.
Qed.

End Parts.


Lemma sameButTexts_refl (o : JsObject) : sameButTexts o o.
Proof. split; [reflexivity | intros key; left; reflexivity]. Qed.

Lemma sameButTexts_trans (o o' o'' : JsObject) :
  sameButTexts o o' -> sameButTexts o' o'' -> sameButTexts o o''.
Proof.
  intros [Hk H] [Hk' H']. split; [congruence|].
  intros key. destruct (H key) as [E | [Hin [s [s' [E1 E2]]]]],
    (H' key) as [E' | [Hin' [t [t' [E1' E2']]]]].
  - left. congruence.
  - right. split; [exact Hin'|]. exists t, t'. split; congruence.
  - right. split; [exact Hin|]. exists s, s'. split; congruence.
  - right. split; [exact Hin|]. exists s, t'. split; congruence.
Qed.

Lemma setProp_keys (k : String.string) (v : JsValue) (o : JsObject) :
  getProp k o <> None -> map fst (setProp k v o) = map fst o.
Proof.
  induction o as [|[k0 v0] o IH]; intros H; [contradiction|].
  cbn [getProp setProp] in *. destruct (String.eqb k k0) eqn:E.
  - apply String.eqb_eq in E. subst k0. reflexivity.
  - cbn [map fst]. rewrite (IH H). reflexivity.
Qed.

Lemma rewriteProp_frame (k : String.string) (replacement : text)
  (regex : option RegExp) (o : JsObject) (li : nat) :
  In k REWRITTEN_KEYS ->
  sameButTexts o (fst (rewriteProp k replacement regex o li)).
Proof.
  intros Hin. unfold rewriteProp.
  destruct (getProp k o) as [[s|tag]|] eqn:E; try apply sameButTexts_refl.
  unfold bind. destruct (IndexV2.replaceInText s replacement regex li) as [out li'].
  cbn [ret fst]. split.
  - apply setProp_keys. congruence.
  - intros key. rewrite getProp_setProp by congruence.
    destruct (String.eqb key k) eqn:Ek; [|left; reflexivity].
    apply String.eqb_eq in Ek. subst key. right. split; [exact Hin|].
    exists s, out. split; [exact E | reflexivity].
Qed.

Lemma bind_run {A B : Type} (c : M A) (k : A -> M B) (li : nat) :
  bind c k li = k (fst (c li)) (snd (c li)).
Proof. unfold bind. destruct (c li). reflexivity. Qed.

Lemma rewritten_key (k : String.string) :
  String.eqb k "text" || String.eqb k "prompt" || String.eqb k "description"
  || String.eqb k "title" = true ->
  In k REWRITTEN_KEYS.
Proof.
  unfold REWRITTEN_KEYS. intros H.
  repeat (apply orb_prop in H; destruct H as [H | H]);
    apply String.eqb_eq in H; subst k; cbn; auto.
Qed.

Lemma replaceInPart_frame (replacement : text) (regex : option RegExp)
  (part : JsObject) (li : nat) :
  sameButTexts part (fst (replaceInPart replacement regex part li)).
Proof.
  unfold replaceInPart. rewrite !bind_run.
  eapply sameButTexts_trans;
    [|apply rewriteProp_frame; apply rewritten_key; reflexivity].
  eapply sameButTexts_trans;
    [|apply rewriteProp_frame; apply rewritten_key; reflexivity].
  apply (sameButTexts_trans _
           (fst ((if hasType (lit "text") part
                  then rewriteProp "text" replacement regex part
                  else ret part) li))).
  - destruct (hasType (lit "text") part);
      [apply rewriteProp_frame; apply rewritten_key; reflexivity
      | apply sameButTexts_refl].
  - match goal with
    | |- context [hasType (lit "subtask") ?p] =>
        destruct (hasType (lit "subtask") p)
    end; [|apply sameButTexts_refl].
    rewrite bind_run.
    eapply sameButTexts_trans;
      apply rewriteProp_frame; apply rewritten_key; reflexivity.
Qed.

Lemma store_length (a : nat) (o : JsObject) (heap : Heap) :
  length (store a o heap) = length heap.
Proof.
  revert a. induction heap as [|x heap IH]; intros [|a]; cbn; auto.
Qed.

Lemma nth_error_store_same (a : nat) (o x : JsObject) (heap : Heap) :
  nth_error heap a = Some x -> nth_error (store a o heap) a = Some o.
Proof.
  revert a. induction heap as [|y heap IH]; intros [|a]; cbn; try discriminate.
  - reflexivity.
  - apply IH.
Qed.

Lemma nth_error_store_other (a b : nat) (o : JsObject) (heap : Heap) :
  a <> b -> nth_error (store a o heap) b = nth_error heap b.
Proof.
  revert a b. induction heap as [|y heap IH]; intros [|a] [|b] H; cbn;
    try reflexivity; [contradiction|].
  apply IH. congruence.
Qed.

Lemma heapFrame_refl (touched : nat -> Prop) (heap : Heap) :
  heapFrame touched heap heap.
Proof.
  split; [reflexivity|]. intros a o H. exists o.
  split; [exact H | split; [apply sameButTexts_refl | reflexivity]].
Qed.

Lemma heapFrame_trans (P Q R : nat -> Prop) (h h' h'' : Heap) :
  (forall a, P a -> R a) -> (forall a, Q a -> R a) ->
  heapFrame P h h' -> heapFrame Q h' h'' -> heapFrame R h h''.
Proof.
  intros HP HQ [Hl H] [Hl' H']. split; [congruence|].
  intros a o Ho. destruct (H a o Ho) as [o' [Ho' [Hs Hsame]]].
  destruct (H' a o' Ho') as [o'' [Ho'' [Hs' Hsame']]].
  exists o''. split; [exact Ho''|]. split.
  - apply (sameButTexts_trans _ o'); assumption.
  - intros Hn. rewrite Hsame', Hsame; auto.
Qed.

Lemma heapFrame_weaken (P Q : nat -> Prop) (h h' : Heap) :
  (forall a, P a -> Q a) -> heapFrame P h h' -> heapFrame Q h h'.
Proof.
  intros HPQ [Hl H]. split; [exact Hl|].
  intros a o Ho. destruct (H a o Ho) as [o' [Ho' [Hs Hsame]]].
  exists o'. repeat split; try assumption; try apply Hs.
  intros Hn. apply Hsame. intros HP. apply Hn, HPQ, HP.
Qed.

Lemma store_frame (a : nat) (o o' : JsObject) (heap : Heap) :
  nth_error heap a = Some o -> sameButTexts o o' ->
  heapFrame (eq a) heap (store a o' heap).
Proof.
  intros Ha Hs. split; [apply store_length|].
  intros b x Hb. destruct (Nat.eq_dec a b) as [<- | Hne].
  - exists o'. rewrite (nth_error_store_same a o' o heap Ha).
    split; [reflexivity|]. split; [congruence|].
    intros Hn. exfalso. apply Hn. reflexivity.
  - exists x. rewrite (nth_error_store_other a b o' heap Hne).
    split; [exact Hb|]. split; [apply sameButTexts_refl | reflexivity].
Qed.

Lemma replaceInPartAt_frame (replacement : text) (regex : option RegExp)
  (heap : Heap) (a li : nat) :
  heapFrame (eq a) heap (fst (replaceInPartAt replacement regex heap a li)).
Proof.
  unfold replaceInPartAt. destruct (nth_error heap a) as [part|] eqn:E;
    [|apply heapFrame_refl].
  unfold bind.
  pose proof (replaceInPart_frame replacement regex part li) as H.
  destruct (replaceInPart replacement regex part li) as [part' li'].
  cbn [ret fst] in *. apply (store_frame a part part' heap E H).
Qed.

Lemma replaceInParts_frame (replacement : text) (regex : option RegExp)
  (refs : option (list nat)) :
  forall heap li,
    heapFrame (fun a => exists l, refs = Some l /\ In a l) heap
      (fst (replaceInParts refs replacement regex heap li)).
Proof.
  destruct refs as [l|]; [|intros; apply heapFrame_refl].
  cbn [replaceInParts].
  assert (H : forall heap li,
             heapFrame (fun a => In a l) heap
               (fst (foldM (replaceInPartAt replacement regex) l heap li))).
  { induction l as [|a l IH]; intros heap li; [apply heapFrame_refl|].
    cbn [foldM]. unfold bind.
    pose proof (replaceInPartAt_frame replacement regex heap a li) as Ha.
    destruct (replaceInPartAt replacement regex heap a li) as [h1 l1].
    cbn [fst] in Ha.
    apply (heapFrame_trans (eq a) (fun b => In b l) _ heap h1);
      [intros b <-; left; reflexivity | intros b Hb; right; exact Hb
      | exact Ha | apply IH]. }
  intros heap li.
  apply (heapFrame_weaken (fun a => In a l)); [|apply H].
  intros a Ha. exists l. auto.
Qed.

Lemma replaceInMessage_frame (replacement : text) (regex : option RegExp)
  (heap : Heap) (m : Message) (li : nat) :
  heapFrame (referenced [m]) heap
    (fst (replaceInMessage replacement regex heap m li)).
Proof.
  unfold replaceInMessage, bind.
  pose proof (replaceInParts_frame replacement regex (parts m) heap li) as Hp.
  destruct (replaceInParts (parts m) replacement regex heap li) as [h1 l1].
  cbn [fst] in Hp.
  apply (heapFrame_trans (fun a => exists l, parts m = Some l /\ In a l)
           (fun a => info m = Some a) _ heap h1); [| |exact Hp|].
  - intros a [l [E Hin]]. exists m. split; [left; reflexivity|].
    right. exists l. auto.
  - intros a E. exists m. split; [left; reflexivity | left; exact E].
  - destruct (info m) as [a|]; [|apply heapFrame_refl].
    destruct (nth_error h1 a) as [o|] eqn:Eo; [|apply heapFrame_refl].
    pose proof (rewriteProp_frame "title" replacement regex o l1) as Ht.
    destruct (rewriteProp "title" replacement regex o l1) as [o' l2].
    cbn [ret fst] in *.
    apply (heapFrame_weaken (eq a)); [intros b <-; reflexivity|].
    apply (store_frame a o o' h1 Eo). apply Ht. apply rewritten_key.
    reflexivity.
Qed.

Lemma replaceInMessages_frame (replacement : text) (regex : option RegExp)
  (l : list Message) :
  forall heap li,
    heapFrame (referenced l) heap
      (fst (foldM (replaceInMessage replacement regex) l heap li)).
Proof.
  induction l as [|m l IH]; intros heap li; [apply heapFrame_refl|].
  cbn [foldM]. unfold bind.
  pose proof (replaceInMessage_frame replacement regex heap m li) as Hm.
  destruct (replaceInMessage replacement regex heap m li) as [h1 l1].
  cbn [fst] in Hm.
  apply (heapFrame_trans (referenced [m]) (referenced l) _ heap h1);
    [| |exact Hm | apply IH].
  - intros a [x [[<- | []] Hx]]. exists m. split; [left; reflexivity | exact Hx].
  - intros a [x [Hin Hx]]. exists x. split; [right; exact Hin | exact Hx].
Qed.

(** [replaceInParts] and [replaceInMessages] change nothing but texts:
    the heap keeps its size, every object keeps its keys in their
    order, the value of a key is what it was unless the key is one of
    text, prompt, description and title and the value was a string (and
    then it is a string), and an object no part and no message refers
    to is left as it is.  A value that is not an array gives no change
    at all. *)
Theorem messages_keep_their_shape (replacement : text) (regex : option RegExp)
  (heap : Heap) (li : nat) :
  (forall refs : list nat,
     heapFrame (fun a => In a refs) heap
       (fst (replaceInParts (Some refs) replacement regex heap li))) /\
  (forall messages : list Message,
     heapFrame (referenced messages) heap
       (fst (replaceInMessages (Some messages) replacement regex heap li))) /\
  fst (replaceInParts None replacement regex heap li) = heap /\
  fst (replaceInMessages None replacement regex heap li) = heap.
Proof.
  split; [|split; [|split; reflexivity]].
  - intros refs.
    apply (heapFrame_weaken (fun a => exists l, Some refs = Some l /\ In a l));
      [intros a [l [E Hin]]; injection E as <-; exact Hin
      | apply replaceInParts_frame].
  - intros messages. apply replaceInMessages_frame.
Qed.

(** What [replaceInParts] does to a part, key by key, on a matcher
    whose [lastIndex] is 0: the string under a key is passed through
    [replaceInText] as many times as [passes] says (the description of
    a subtask twice, any other description and the title once, the
    prompt of a subtask and the text of a text part once, everything
    else never), and [lastIndex] is 0 again afterwards. *)
Theorem part_values_by_key (part : JsObject) (replacement : text)
  (regex : option RegExp) (key : String.string) :
  getProp key (fst (replaceInPart replacement regex part 0))
  = rewrittenValue (passes part key) replacement regex (getProp key part) /\
  snd (replaceInPart replacement regex part 0) = 0%nat.
Proof.
  split; [apply replaceInPart_value|].
  rewrite replaceInPart_fresh. reflexivity.
Qed.


Example test_subtask_description_twice :
  getProp "description"
    (fst (replaceInPart (lit "opencode-ai") None
            [("type", JString (lit "subtask"));
             ("description", JString (lit "run opencode"));
             ("title", JString (lit "run opencode"))] 0))
  = Some (JString (lit "run opencode-ai-ai")) /\
  getProp "title"
    (fst (replaceInPart (lit "opencode-ai") None
            [("type", JString (lit "subtask"));
             ("description", JString (lit "run opencode"));
             ("title", JString (lit "run opencode"))] 0))
  = Some (JString (lit "run opencode-ai")).
Proof. split; vm_compute; reflexivity. Qed.

Local Close Scope string_scope.

(** ** The two revisions of [replaceOutsideRanges] *)

Lemma V1_replaceOpencode_run (t replacement : text) (li : nat) :
  fst (IndexV1.replaceOpencode t replacement li)
  = replaceOpencode t replacement None.
Proof. destruct t; reflexivity. Qed.

Lemma V1_outsideStep_run (t replacement : text) (st : text * Z) (r : range)
  (li : nat) :
  fst (IndexV1.outsideStep t replacement st r li)
  = outsideStep t replacement None st r.
Proof.
  destruct st as [res c], r as [s e].
  unfold IndexV1.outsideStep, outsideStep. rewrite bind_run.
  destruct (s >? c)%Z; [|reflexivity].
  rewrite bind_run. cbn [ret fst]. rewrite V1_replaceOpencode_run. reflexivity.
Qed.

Lemma foldM_run {A S : Type} (f : S -> A -> M S) (g : S -> A -> S)
  (l : list A) :
  (forall s x li, fst (f s x li) = g s x) ->
  forall s li, fst (foldM f l s li) = fold_left g l s.
Proof.
  intros Hf. induction l as [|x l IH]; intros s li; [reflexivity|].
  cbn [foldM fold_left]. rewrite bind_run, IH, Hf. reflexivity.
Qed.

(** The first revision of [replaceOutsideRanges] goes wrong on ranges
    that overlap or touch only: when the ranges, once clamped and without
    the empty ones, lie strictly apart from one another (in any order),
    it returns what the current revision returns, whatever the matcher's
    [lastIndex]. *)
Theorem first_revision_agrees_on_separate_ranges (t replacement : text)
  (ranges : list range) (li : nat) :
  gapped (sortByStart (filter nonEmptyRange (map clampRange ranges))) ->
  fst (IndexV1.replaceOutsideRanges t replacement ranges li)
  = replaceOutsideRanges t replacement ranges None.
Proof.
  intros Hg. destruct ranges as [|r ranges]; [apply V1_replaceOpencode_run|].
  unfold IndexV1.replaceOutsideRanges, replaceOutsideRanges, sanitizeRanges.
  set (sorted := sortByStart (filter nonEmptyRange (map clampRange (r :: ranges)))) in *.
  assert (Hm : mergeRanges sorted = sorted).
  { unfold mergeRanges.
    rewrite (sortByStart_ascending_id sorted) by apply sortByStart_ascending.
    destruct sorted as [|first rest]; [reflexivity|].
    apply mergeLoop_gapped_id. exact Hg. }
  rewrite Hm. rewrite bind_run.
  rewrite (foldM_run _ (outsideStep t replacement None))
    by apply V1_outsideStep_run.
  destruct (fold_left _ sorted _) as [res c]. unfold outsideFinish.
  destruct (c <? Z.of_nat (length t))%Z; [|reflexivity].
  rewrite bind_run. cbn [ret fst]. rewrite V1_replaceOpencode_run. reflexivity.
Qed.

(** The hypothesis of [first_revision_agrees_on_separate_ranges] at two
    ranges that lie apart and an empty one. *)
Lemma first_revision_agrees_on_separate_ranges_witness :
  fst (IndexV1.replaceOutsideRanges (lit "opencode opencode opencode")
         (lit "Renamer") [(9, 17); (0, 3); (5, 5)]%Z 4)
  = replaceOutsideRanges (lit "opencode opencode opencode") (lit "Renamer")
      [(9, 17); (0, 3); (5, 5)]%Z None.
Proof.
  apply first_revision_agrees_on_separate_ranges. vm_compute. auto.
Defined.

(* ================================================================== *)
(** * Part VIII: the merger, the single pass and the default matcher *)
(* ================================================================== *)

(** ** The merger *)

Local Open Scope Z_scope.

Lemma apart_members (l : list range) :
  Forall validRange l -> gapped l ->
  forall R1 R2, In R1 l -> In R2 l ->
  R1 = R2 \/ snd R1 < fst R2 \/ snd R2 < fst R1.
Proof.
  induction l as [|[s e] l IH]; intros Hv Hg R1 R2 H1 H2; [destruct H1|].
  assert (Ha : ahead (e + 1) l).
  { inversion Hv as [|? ? _ Hl]; subst. apply gapped_cons in Hg.
    destruct Hg as [Hhd Hg]. split; [exact Hl|]. split; [exact Hg|].
    destruct l as [|r l]; [exact I | simpl in Hhd; lia]. }
  inversion Hv as [|? ? _ Hl]; subst.
  apply gapped_cons in Hg. destruct Hg as [_ Hg].
  destruct H1 as [<- | H1], H2 as [<- | H2].
  - left. reflexivity.
  - right. left. pose proof (ahead_In l (e + 1) R2 Ha H2). simpl. lia.
  - right. right. pose proof (ahead_In l (e + 1) R1 Ha H1). simpl. lia.
  - apply IH; assumption.
Qed.

Lemma sanitizeRanges_clamped (ranges : list range) :
  sanitizeRanges (map clampRange ranges) = sanitizeRanges ranges.
Proof.
  unfold sanitizeRanges. rewrite clampRange_idempotent. reflexivity.
Qed.

Lemma sanitizeRanges_keeps (ranges : list range) (r : range) :
  In r ranges -> Z.max 0 (fst r) < snd r ->
  exists R, In R (sanitizeRanges ranges) /\ covers R (clampRange r).
Proof.
  intros Hin Hne. rewrite <- sanitizeRanges_clamped.
  apply sanitizeRanges_covers.
  - apply in_map. exact Hin.
  - destruct r as [a b]. unfold validRange, clampRange. simpl in *. lia.
Qed.

Lemma sanitizeRanges_coalesces (ranges : list range) (r1 r2 : range) :
  In r1 ranges -> In r2 ranges ->
  Z.max 0 (fst r1) < snd r1 -> Z.max 0 (fst r2) < snd r2 ->
  Z.max 0 (fst r1) <= snd r2 -> Z.max 0 (fst r2) <= snd r1 ->
  exists R, In R (sanitizeRanges ranges) /\
            covers R (clampRange r1) /\ covers R (clampRange r2).
Proof.
  intros H1 H2 Hn1 Hn2 Ht1 Ht2.
  destruct (sanitizeRanges_keeps ranges r1 H1 Hn1) as [R1 [HR1 Hc1]].
  destruct (sanitizeRanges_keeps ranges r2 H2 Hn2) as [R2 [HR2 Hc2]].
  destruct (apart_members (sanitizeRanges ranges) (sanitizeRanges_valid ranges)
              (mergeRanges_gapped _) R1 R2 HR1 HR2) as [<- | Hapart].
  - exists R1. auto.
  - exfalso. destruct r1 as [a1 b1], r2 as [a2 b2].
    unfold covers, clampRange in *. simpl in *. lia.
Qed.

(** C5.  The merger of [replaceOutsideRanges] (clamp, filter, sort,
    [mergeRanges]) is a total function of any list of ranges: whatever
    the order, and with zero-length, inverted or negative ranges in it, it
    returns a value.  Ranges with [end <= start] are dropped (the result
    is the one for the list without them, and every range returned has
    [start < end]), negative offsets are clamped to 0 (the result is the
    one for the clamped list, and no offset returned is negative), and
    the result is ascending by start with [ranges[i].end <
    ranges[i+1].start] for every adjacent pair; the last two hold for
    [mergeRanges] on its own as well.  Nothing else is lost or added: the
    ranges returned cover exactly the offsets from 0 on that the given
    ranges cover (for [mergeRanges] alone, exactly the offsets given);
    every given range that is not empty once clamped lies, clamped,
    within one range returned; two such ranges that overlap or touch lie
    within the same one; and the result is the only list of non-empty
    ranges from 0 on, strictly apart, that covers these offsets. *)
Theorem merger_sanitizes_and_separates (ranges : list range) :
  sanitizeRanges (filter (fun r => fst r <? snd r) ranges)
    = sanitizeRanges ranges /\
  sanitizeRanges (map clampRange ranges) = sanitizeRanges ranges /\
  Forall (fun r => 0 <= fst r /\ fst r < snd r) (sanitizeRanges ranges) /\
  startsAscending (sanitizeRanges ranges) /\
  gapped (sanitizeRanges ranges) /\
  startsAscending (mergeRanges ranges) /\
  gapped (mergeRanges ranges) /\
  (forall x, coveredBy (sanitizeRanges ranges) x
             <-> 0 <= x /\ coveredBy ranges x) /\
  (forall x, coveredBy (mergeRanges ranges) x <-> coveredBy ranges x) /\
  (forall r, In r ranges -> Z.max 0 (fst r) < snd r ->
     exists R, In R (sanitizeRanges ranges) /\
               fst R <= Z.max 0 (fst r) /\ snd r <= snd R) /\
  (forall r1 r2, In r1 ranges -> In r2 ranges ->
     Z.max 0 (fst r1) < snd r1 -> Z.max 0 (fst r2) < snd r2 ->
     Z.max 0 (fst r1) <= snd r2 -> Z.max 0 (fst r2) <= snd r1 ->
     exists R, In R (sanitizeRanges ranges) /\
               fst R <= Z.max 0 (fst r1) /\ snd r1 <= snd R /\
               fst R <= Z.max 0 (fst r2) /\ snd r2 <= snd R) /\
  (forall l, Forall validRange l -> gapped l ->
     (forall x, coveredBy l x <-> 0 <= x /\ coveredBy ranges x) ->
     l = sanitizeRanges ranges).
Proof.
  split; [unfold sanitizeRanges; rewrite clamped_drops_inverted; reflexivity|].
  split; [apply sanitizeRanges_clamped|].
  split; [exact (sanitizeRanges_valid ranges)|].
  split; [apply mergeRanges_ascending|].
  split; [apply mergeRanges_gapped|].
  split; [apply mergeRanges_ascending|].
  split; [apply mergeRanges_gapped|].
  split; [intros x; apply sanitizeRanges_same_offsets|].
  split; [intros x; apply mergeRanges_same_offsets|].
  split; [|split].
  - intros r Hin Hne.
    destruct (sanitizeRanges_keeps ranges r Hin Hne) as [R [HR Hc]].
    exists R. split; [exact HR|]. destruct r as [a b].
    unfold covers, clampRange in Hc. simpl in *. lia.
  - intros r1 r2 H1 H2 Hn1 Hn2 Ht1 Ht2.
    destruct (sanitizeRanges_coalesces ranges r1 r2 H1 H2 Hn1 Hn2 Ht1 Ht2)
      as [R [HR [Hc1 Hc2]]].
    exists R. split; [exact HR|]. destruct r1 as [a1 b1], r2 as [a2 b2].
    unfold covers, clampRange in *. simpl in *. lia.
  - intros l Hv Hg Hsame.
    apply apart_ranges_unique;
      [exact Hv | exact Hg | apply sanitizeRanges_valid | apply mergeRanges_gapped|].
    intros x. rewrite Hsame, sanitizeRanges_same_offsets. reflexivity.
Qed.

Local Close Scope Z_scope.

(** ** One scan *)

Lemma sourceOfPieces_cons (b : bool) (u : text) (ps : list (bool * text)) :
  sourceOfPieces ((b, u) :: ps) = u ++ sourceOfPieces ps.
Proof. reflexivity. Qed.

Lemma scanned_match (re : RegExp) (c : ascii) (m : text)
  (rest : list (bool * text)) :
  scanned re ((true, c :: m) :: rest)
  <-> matchAt re ((c :: m) ++ sourceOfPieces rest) = Some (length (c :: m)) /\
      scanned re rest.
Proof. reflexivity. Qed.

Lemma scanned_miss (re : RegExp) (c : ascii) (rest : list (bool * text)) :
  scanned re ((false, [c]) :: rest)
  <-> matchAt re (c :: sourceOfPieces rest) = None /\ scanned re rest.
Proof. reflexivity. Qed.

Lemma scanned_empty (re : RegExp) (c : ascii) (rest : list (bool * text)) :
  scanned re ((true, []) :: (false, [c]) :: rest)
  <-> matchAt re (c :: sourceOfPieces rest) = Some 0 /\ scanned re rest.
Proof. reflexivity. Qed.

(** The loop of [replace] renders a scan of what it has not passed yet. *)
Lemma replaceLoop_scanned (re : RegExp) (replacement : text) (t : text) :
  forall skip before, skip <= length t ->
  exists pieces,
    sourceOfPieces pieces = skipn skip t /\
    scanned re pieces /\
    replaceLoop re replacement skip before t
    = renderPieces replacement (rev before ++ firstn skip t) pieces.
Proof.
  induction t as [|c t IH]; intros skip before Hskip.
  - simpl in Hskip. replace skip with 0 by lia. cbn [replaceLoop skipn firstn].
    rewrite app_nil_r.
    destruct (matchAt re []) as [len|] eqn:E.
    + pose proof (matchAt_length _ _ _ E) as Hlen. simpl in Hlen.
      replace len with 0 in * by lia.
      exists [(true, [])]. cbn. rewrite !app_nil_r. auto.
    + exists []. cbn. auto.
  - destruct skip as [|k].
    + cbn [replaceLoop skipn firstn]. rewrite app_nil_r.
      destruct (matchAt re (c :: t)) as [len|] eqn:E.
      * pose proof (matchAt_length _ _ _ E) as Hlen.
        destruct len as [|n].
        -- destruct (IH 0 (c :: before) ltac:(lia)) as [ps [Hsrc [Hm Hout]]].
           exists ((true, []) :: (false, [c]) :: ps).
           cbn [skipn] in Hsrc. cbn [rev firstn] in Hout.
           rewrite app_nil_r in Hout.
           split; [rewrite !sourceOfPieces_cons, Hsrc; reflexivity|].
           split; [apply scanned_empty; rewrite Hsrc; auto|].
           cbn [renderPieces Nat.eqb firstn skipn].
           rewrite !sourceOfPieces_cons, Hsrc, Hout, !app_nil_r. reflexivity.
        -- simpl in Hlen.
           destruct (IH n (c :: before) ltac:(lia)) as [ps [Hsrc [Hm Hout]]].
           exists ((true, firstn (S n) (c :: t)) :: ps).
           assert (Hsplit : firstn (S n) (c :: t) ++ sourceOfPieces ps = c :: t).
           { rewrite Hsrc. apply (firstn_skipn (S n) (c :: t)). }
           split; [exact Hsplit|]. split.
           ++ cbn [firstn]. apply scanned_match. cbn [firstn] in Hsplit.
              rewrite Hsplit, E. split; [|exact Hm].
              f_equal. cbn [length]. rewrite length_firstn. lia.
           ++ cbn [renderPieces Nat.eqb]. rewrite Hsrc.
              replace (S n - 1) with n by lia. rewrite Hout.
              cbn [rev firstn skipn]. rewrite <- !app_assoc. reflexivity.
      * destruct (IH 0 (c :: before) ltac:(lia)) as [ps [Hsrc [Hm Hout]]].
        exists ((false, [c]) :: ps).
        cbn [skipn] in Hsrc. cbn [rev firstn] in Hout.
        rewrite app_nil_r in Hout.
        split; [rewrite sourceOfPieces_cons, Hsrc; reflexivity|].
        split; [apply scanned_miss; rewrite Hsrc; auto|].
        cbn [renderPieces]. rewrite Hout. reflexivity.
    + cbn [replaceLoop skipn firstn].
      destruct (IH k (c :: before) ltac:(simpl in Hskip; lia))
        as [ps [Hsrc [Hm Hout]]].
      exists ps. split; [exact Hsrc|]. split; [exact Hm|].
      rewrite Hout. cbn [rev]. rewrite <- !app_assoc. reflexivity.
Qed.

Lemma scanned_matched (re : RegExp) :
  forall n pieces, length pieces <= n ->
  scanned re pieces -> matchedInSource re pieces.
Proof.
  induction n as [|n IH]; intros pieces Hn H.
  - destruct pieces; [exact I | simpl in Hn; lia].
  - destruct pieces as [|[[] m] rest]; [exact I | |].
    + destruct m as [|c m].
      * destruct rest as [|[[] u] rest'].
        -- cbn. auto.
        -- destruct H.
        -- destruct u as [|c [|d u]]; try destruct H.
           cbn [matchedInSource]. split.
           ++ cbn [app length sourceOfPieces map concat] in *.
              unfold sourceOfPieces in H. exact H.
           ++ apply IH; [simpl in Hn |- *; lia | assumption].
      * apply scanned_match in H. destruct H as [Hm H].
        cbn [matchedInSource]. split; [exact Hm|].
        apply IH; [simpl in Hn; lia | exact H].
    + destruct m as [|c [|d m]]; try destruct H.
      cbn [matchedInSource]. apply IH; [simpl in Hn; lia | assumption].
Qed.

Lemma scanned_end (re : RegExp) (pieces : list (bool * text)) :
  scanned re pieces -> sourceOfPieces pieces = [] ->
  (pieces = [] /\ matchAt re [] = None) \/
  (pieces = [(true, [])] /\ matchAt re [] = Some 0).
Proof.
  intros H Hsrc. destruct pieces as [|[[] m] rest].
  - left. auto.
  - destruct m as [|c m]; [|discriminate Hsrc].
    destruct rest as [|[[] u] rest']; [right; auto | destruct H|].
    destruct u as [|c [|d u]]; try destruct H. discriminate Hsrc.
  - destruct m as [|c [|d m]]; try destruct H. discriminate Hsrc.
Qed.

Lemma scanned_step (re : RegExp) (pieces : list (bool * text)) (c : ascii)
  (s : text) :
  scanned re pieces -> sourceOfPieces pieces = c :: s ->
  exists rest,
    scanned re rest /\
    ((matchAt re (c :: s) = None /\ pieces = (false, [c]) :: rest /\
      sourceOfPieces rest = s) \/
     (matchAt re (c :: s) = Some 0 /\
      pieces = (true, []) :: (false, [c]) :: rest /\
      sourceOfPieces rest = s) \/
     (exists k, matchAt re (c :: s) = Some (S k) /\
                pieces = (true, firstn (S k) (c :: s)) :: rest /\
                sourceOfPieces rest = skipn (S k) (c :: s))).
Proof.
  intros H Hsrc. destruct pieces as [|[[] m] rest]; [discriminate Hsrc| |].
  - destruct m as [|c' m].
    + destruct rest as [|[[] u] rest']; [discriminate Hsrc | destruct H|].
      destruct u as [|c' [|d u]]; [destruct H | | destruct H].
      apply scanned_empty in H. destruct H as [Hm H].
      rewrite !sourceOfPieces_cons in Hsrc. cbn [app] in Hsrc.
      injection Hsrc as -> Hs. exists rest'. split; [exact H|].
      right. left. rewrite <- Hs. auto.
    + apply scanned_match in H. destruct H as [Hm H].
      rewrite sourceOfPieces_cons in Hsrc. rewrite Hsrc in Hm.
      exists rest. split; [exact H|]. right. right.
      exists (length m). split; [exact Hm|].
      rewrite <- Hsrc.
      change (S (length m)) with (length (c' :: m)).
      rewrite firstn_app, firstn_all, Nat.sub_diag, firstn_O, app_nil_r.
      rewrite skipn_app, skipn_all, Nat.sub_diag. cbn [skipn app].
      auto.
  - destruct m as [|c' [|d m]]; [destruct H | | destruct H].
    apply scanned_miss in H. destruct H as [Hm H].
    rewrite sourceOfPieces_cons in Hsrc. cbn [app] in Hsrc.
    injection Hsrc as -> Hs. exists rest. split; [exact H|].
    left. rewrite <- Hs. auto.
Qed.

(** A text has one scan only. *)
Lemma scanned_unique (re : RegExp) :
  forall n p1 p2,
    length (sourceOfPieces p1) <= n ->
    scanned re p1 -> scanned re p2 ->
    sourceOfPieces p1 = sourceOfPieces p2 -> p1 = p2.
Proof.
  induction n as [|n IH]; intros p1 p2 Hn H1 H2 Hsrc.
  - assert (E1 : sourceOfPieces p1 = [])
      by (destruct (sourceOfPieces p1); [reflexivity | simpl in Hn; lia]).
    assert (E2 : sourceOfPieces p2 = []) by congruence.
    destruct (scanned_end re p1 H1 E1) as [[-> Ha] | [-> Ha]],
      (scanned_end re p2 H2 E2) as [[-> Hb] | [-> Hb]];
      try reflexivity; congruence.
  - destruct (sourceOfPieces p1) as [|c s] eqn:E1.
    + assert (E2 : sourceOfPieces p2 = []) by congruence.
      destruct (scanned_end re p1 H1 E1) as [[-> Ha] | [-> Ha]],
        (scanned_end re p2 H2 E2) as [[-> Hb] | [-> Hb]];
        try reflexivity; congruence.
    + symmetry in Hsrc.
      destruct (scanned_step re p1 c s H1 E1) as [r1 [Hr1 C1]].
      destruct (scanned_step re p2 c s H2 Hsrc) as [r2 [Hr2 C2]].
      simpl in Hn.
      destruct C1 as [[Ma [-> Sa]] | [[Ma [-> Sa]] | [ka [Ma [-> Sa]]]]],
        C2 as [[Mb [-> Sb]] | [[Mb [-> Sb]] | [kb [Mb [-> Sb]]]]];
        try congruence.
      * f_equal. apply IH; try assumption; [rewrite Sa; lia | congruence].
      * do 2 f_equal. apply IH; try assumption; [rewrite Sa; lia | congruence].
      * assert (ka = kb) by congruence. subst kb. f_equal.
        apply IH; try assumption; [|congruence].
        rewrite Sa. cbn [skipn]. rewrite length_skipn. lia.
Qed.

Lemma replaceOpencode_scanned (t replacement : text) (regex : option RegExp) :
  t <> [] ->
  exists pieces,
    sourceOfPieces pieces = t /\
    scanned (IndexV2.matcherOf regex) pieces /\
    replaceOpencode t replacement regex = renderPieces replacement [] pieces.
Proof.
  intros Ht. destruct t as [|c t]; [congruence|].
  destruct (replaceLoop_scanned (IndexV2.matcherOf regex) replacement (c :: t)
              0 [] ltac:(lia)) as [ps [Hsrc [Hs Hout]]].
  exists ps. repeat split; assumption.
Qed.

Lemma Image_SinglePass (replacement : text) (regex : option RegExp)
  (src out : text) :
  Image replacement regex src out ->
  SinglePass replacement (IndexV2.matcherOf regex) src out.
Proof.
  induction 1 as [|p src out _ IH|g src out _ IH].
  - constructor.
  - apply SinglePass_copied. exact IH.
  - destruct g as [|c g].
    + apply (SinglePass_copied _ _ []). exact IH.
    + destruct (replaceOpencode_scanned (c :: g) replacement regex
                  ltac:(discriminate)) as [ps [Hsrc [Hs Hout]]].
      rewrite Hout, <- Hsrc. apply SinglePass_scanned; [|exact Hs | exact IH].
      rewrite Hsrc. discriminate.
Qed.

Local Open Scope Z_scope.

(** ** The stretches between the protected ranges *)

Lemma slice_to_end (t : text) (a : Z) :
  0 <= a -> slice t a (Z.of_nat (length t)) = skipn (Z.to_nat a) t.
Proof.
  intros Ha. rewrite slice_nonneg by lia.
  apply firstn_all2. rewrite length_skipn. lia.
Qed.

(** Every stretch between the ranges of the walk is handed to
    [replaceOpencode] whole, between the image of what stands before it
    and the image of what stands after it. *)
Lemma walkFrom_gap (t replacement : text) (regex : option RegExp)
  (l : list range) :
  forall cursor a b, 0 <= cursor -> ahead cursor l ->
  In (a, b) (gaps cursor l (Z.of_nat (length t))) ->
  cursor <= a /\ a < b /\
  exists A B,
    walkFrom t replacement regex l cursor
    = A ++ replaceOpencode (slice t a b) replacement regex ++ B /\
    Image replacement regex (slice t cursor a) A /\
    Image replacement regex (skipn (Z.to_nat b) t) B.
Proof.
  induction l as [|[s e] l IH]; intros cursor a b Hc Ha Hin.
  - cbn [gaps] in Hin. rewrite walkFrom_nil by exact Hc.
    destruct (cursor <? Z.of_nat (length t)) eqn:E; [|destruct Hin].
    destruct Hin as [[= <- <-] | []]. apply Z.ltb_lt in E.
    split; [lia|]. split; [exact E|].
    exists [], []. rewrite app_nil_r. cbn [app].
    rewrite slice_to_end by exact Hc. split; [reflexivity|].
    rewrite slice_empty by exact Hc. rewrite skipn_all2 by lia.
    split; constructor.
  - pose proof (ahead_tail _ _ _ _ Ha) as [Hcs [Hse [Hs Ha']]].
    cbn [gaps] in Hin. rewrite Z.max_r in Hin by lia.
    rewrite walkFrom_cons. rewrite Z.max_r by lia.
    apply in_app_or in Hin. destruct Hin as [Hin | Hin].
    + destruct (s >? cursor) eqn:E; [|destruct Hin].
      destruct Hin as [[= <- <-] | []].
      split; [lia|]. split; [lia|].
      exists [], (slice t s e ++ walkFrom t replacement regex l e).
      cbn [app]. split; [reflexivity|].
      rewrite slice_empty by exact Hc. split; [constructor|].
      rewrite (skipn_slice t s e) by lia.
      apply Image_copied. apply walkFrom_image; [lia | exact Ha'].
    + destruct (IH e a b ltac:(lia) Ha' Hin) as [Hea [Hab [A [B [Heq [HA HB]]]]]].
      split; [lia|]. split; [exact Hab|].
      exists ((if s >? cursor
               then replaceOpencode (slice t cursor s) replacement regex
               else []) ++ slice t s e ++ A), B.
      split; [rewrite Heq, <- !app_assoc; reflexivity|].
      split; [|exact HB].
      rewrite (slice_split t cursor s a) by lia.
      rewrite (slice_split t s e a) by lia.
      apply Image_app; [apply gap_image; lia|].
      apply Image_copied. exact HA.
Qed.

Lemma replaceOutsideRanges_gap (t replacement : text) (ranges : list range)
  (regex : option RegExp) (a b : Z) :
  In (a, b) (gaps 0 (sanitizeRanges ranges) (Z.of_nat (length t))) ->
  0 <= a /\ a < b /\
  exists A B,
    replaceOutsideRanges t replacement ranges regex
    = A ++ replaceOpencode (slice t a b) replacement regex ++ B /\
    Image replacement regex (firstn (Z.to_nat a) t) A /\
    Image replacement regex (skipn (Z.to_nat b) t) B.
Proof.
  intros Hin. rewrite replaceOutsideRanges_sanitized.
  destruct (walkFrom_gap t replacement regex (sanitizeRanges ranges) 0 a b
              ltac:(lia) (sanitizeRanges_ahead ranges) Hin)
    as [Ha [Hab [A [B [Heq [HA HB]]]]]].
  split; [exact Ha|]. split; [exact Hab|].
  exists A, B. split; [exact Heq|]. split; [|exact HB].
  rewrite <- slice_from_zero by lia. exact HA.
Qed.

(** A run of offsets that no range of the walk covers lies within one
    stretch. *)
Lemma occurrence_in_gap (len n k : Z) (l : list range) :
  forall cursor, cursor <= n -> 0 < k -> n + k <= len -> ahead cursor l ->
  (forall p, n <= p < n + k -> ~ coveredBy l p) ->
  exists a b, In (a, b) (gaps cursor l len) /\ a <= n /\ n + k <= b.
Proof.
  induction l as [|[s e] l IH]; intros cursor Hc Hk Hlen Ha Hfree.
  - exists cursor, len. cbn [gaps].
    replace (cursor <? len) with true by (symmetry; apply Z.ltb_lt; lia).
    split; [left; reflexivity | lia].
  - pose proof (ahead_tail _ _ _ _ Ha) as [Hcs [Hse [Hs Ha']]].
    cbn [gaps]. rewrite Z.max_r by lia.
    assert (Hside : e <= n \/ n + k <= s).
    { destruct (Z_le_gt_dec e n) as [|He]; [left; assumption|].
      destruct (Z_le_gt_dec (n + k) s) as [|Hs']; [right; assumption|].
      exfalso. apply (Hfree (Z.max s n)); [lia|].
      exists (s, e). split; [left; reflexivity|]. unfold contains. simpl. lia. }
    destruct Hside as [He | Hs'].
    + destruct (IH e He Hk Hlen Ha') as [a [b [Hin Hab]]].
      * intros p Hp [r [Hr Hcov]]. apply (Hfree p Hp).
        exists r. split; [right; exact Hr | exact Hcov].
      * exists a, b. split; [|exact Hab]. apply in_or_app. right. exact Hin.
    + exists cursor, s.
      replace (s >? cursor) with true by (symmetry; apply Z.gtb_lt; lia).
      split; [left; reflexivity | lia].
Qed.

Local Close Scope Z_scope.

(** ** From a plain piece to the whole text *)

Lemma segment_to_text (t replacement : text) (regex : option RegExp)
  (i j : nat) (b g x m y A0 M B0 : text) :
  nth_error (split FENCE t) i = Some b -> i mod 2 = 0 ->
  nth_error (split TICK b) j = Some g -> j mod 2 = 0 ->
  g = x ++ m ++ y ->
  replaceExcludingUrlsAndPaths g replacement regex = A0 ++ M ++ B0 ->
  Image replacement regex x A0 -> Image replacement regex y B0 ->
  exists P Q A B,
    t = (P ++ x) ++ m ++ (y ++ Q) /\
    replaceInText t replacement regex = A ++ M ++ B /\
    Image replacement regex (P ++ x) A /\ Image replacement regex (y ++ Q) B.
Proof.
  intros Hb Hi Hg Hj Hcut Heq HA0 HB0.
  destruct (join_mapi_member replacement regex TICK
              (fun segment index =>
                 if (index mod 2 =? 1)%nat then segment
                 else replaceExcludingUrlsAndPaths segment replacement regex)
              ltac:(intros u k; cbv beta; destruct (k mod 2 =? 1)%nat;
                    [apply Image_copy | apply replaceOutsideRanges_image])
              (split TICK b) 0 j g Hg)
    as [P1 [Q1 [A1 [B1 [HP1 [HO1 [HI1 HJ1]]]]]]].
  rewrite join_split in HP1 by apply TICK_nonempty.
  cbn [Nat.add] in HO1. rewrite Hj in HO1. cbn [Nat.eqb] in HO1.
  destruct (join_mapi_member replacement regex FENCE
              (fun block index =>
                 if (index mod 2 =? 1)%nat then block
                 else replaceInInlineCodeSegments block replacement regex)
              ltac:(intros u k; cbv beta; destruct (k mod 2 =? 1)%nat;
                    [apply Image_copy
                    | apply replaceInInlineCodeSegments_partitions])
              (split FENCE t) 0 i b Hb)
    as [P2 [Q2 [A2 [B2 [HP2 [HO2 [HI2 HJ2]]]]]]].
  rewrite join_split in HP2 by apply FENCE_nonempty.
  cbn [Nat.add] in HO2. rewrite Hi in HO2. cbn [Nat.eqb] in HO2.
  exists (P2 ++ P1), (Q1 ++ Q2), (A2 ++ A1 ++ A0), (B0 ++ B1 ++ B2).
  split; [|split; [|split]].
  - rewrite HP2, HP1 at 1. rewrite Hcut at 1.
    rewrite <- !app_assoc. reflexivity.
  - rewrite replaceInText_blocks. unfold mapi. rewrite HO2.
    unfold replaceInInlineCodeSegments, mapi. rewrite HO1, Heq.
    rewrite <- !app_assoc. reflexivity.
  - rewrite <- app_assoc. repeat apply Image_app; assumption.
  - repeat apply Image_app; assumption.
Qed.

(** ** The default matcher in any text *)

Lemma replaceOpencode_occurrence (x w y replacement : text) :
  sameWordIgnoringCase w (lit "opencode") -> dollarFree replacement ->
  replaceOpencode (x ++ w ++ y) replacement None
  = replaceOpencode x replacement None ++ replacement
    ++ replaceOpencode y replacement None.
Proof.
  intros Hw Hr. rewrite !replaceOpencode_default. unfold str_replace.
  apply replaceLoop_occurrence; [exact Hr | exact Hw | lia].
Qed.

Lemma sameWord_length (w : text) :
  sameWordIgnoringCase w (lit "opencode") -> length w = 8.
Proof.
  intros H. apply (f_equal (@length ascii)) in H.
  unfold foldCase in H. rewrite !length_map in H. exact H.
Qed.

Lemma segment_occurrence (x w y replacement : text) (ranges : list range) :
  sameWordIgnoringCase w (lit "opencode") -> dollarFree replacement ->
  (forall p, (Z.of_nat (length x) <= p < Z.of_nat (length x + length w))%Z ->
             ~ coveredBy ranges p) ->
  exists A B,
    replaceOutsideRanges (x ++ w ++ y) replacement ranges None
    = A ++ replacement ++ B /\
    Image replacement None x A /\ Image replacement None y B.
Proof.
  intros Hw Hr Hfree. pose proof (sameWord_length w Hw) as Hlen.
  set (g := x ++ w ++ y).
  set (n := Z.of_nat (length x)).
  assert (Hg : length g = (length x + 8 + length y)%nat).
  { unfold g. rewrite !length_app. lia. }
  destruct (occurrence_in_gap (Z.of_nat (length g)) n 8 (sanitizeRanges ranges)
              0%Z ltac:(lia) ltac:(lia) ltac:(lia) (sanitizeRanges_ahead ranges))
    as [a [b [Hin [Han Hnb]]]].
  { intros p Hp Hcov. apply sanitizeRanges_same_offsets in Hcov.
    apply (Hfree p); [lia | apply Hcov]. }
  destruct (replaceOutsideRanges_gap g replacement ranges None a b Hin)
    as [Ha [Hab [A [B [Heq [HA HB]]]]]].
  assert (Hpieces : slice g a b
                    = slice g a n ++ w ++ slice g (n + 8)%Z b).
  { rewrite (slice_split g a n b) by lia.
    rewrite (slice_split g n (n + 8)%Z b) by lia. f_equal. f_equal.
    rewrite slice_nonneg by lia. unfold g, n.
    replace (Z.to_nat (Z.of_nat (length x) + 8) - Z.to_nat (Z.of_nat (length x)))
      with (length w) by lia.
    rewrite Nat2Z.id, skipn_app, skipn_all, Nat.sub_diag. cbn [skipn app].
    rewrite firstn_app, firstn_all, Nat.sub_diag, firstn_O, app_nil_r.
    reflexivity. }
  rewrite Hpieces, (replaceOpencode_occurrence _ w _ replacement Hw Hr) in Heq.
  exists (A ++ replaceOpencode (slice g a n) replacement None),
         (replaceOpencode (slice g (n + 8)%Z b) replacement None ++ B).
  split; [rewrite Heq, <- !app_assoc; reflexivity|]. split.
  - assert (Hx : x = firstn (Z.to_nat a) g ++ slice g a n).
    { rewrite <- slice_from_zero by lia. rewrite <- slice_split by lia.
      rewrite slice_from_zero by lia. unfold g, n.
      rewrite Nat2Z.id, firstn_app, firstn_all, Nat.sub_diag, firstn_O, app_nil_r.
      reflexivity. }
    rewrite Hx at 1. apply Image_app; [exact HA | apply Image_replace].
  - assert (Hy : y = slice g (n + 8)%Z b ++ skipn (Z.to_nat b) g).
    { rewrite <- skipn_slice by lia. unfold g, n.
      replace (Z.to_nat (Z.of_nat (length x) + 8))
        with (length x + length w)%nat by lia.
      rewrite skipn_plus, skipn_app, skipn_all, Nat.sub_diag. cbn [skipn app].
      rewrite skipn_app, skipn_all, Nat.sub_diag. reflexivity. }
    rewrite Hy at 1. apply Image_app; [apply Image_replace | exact HB].
Qed.

(** C4 as amended.  Without a matcher the target word is matched
    case-insensitively wherever it stands, with no condition on the
    characters next to it.  For every spelling [w] of opencode up to
    letter case, every text [x] before it and [y] after it, and a
    replacement string without a dollar (which stands for itself): the
    pass over [x ++ w ++ y] replaces [w] and handles [x] and [y] as it
    would on their own.  In any text, when [x ++ w ++ y] is a plain
    piece (an even-indexed piece on the single backtick of an
    even-indexed piece on the triple backtick) and no code unit of [w]
    lies in a range the URL pattern or the path pattern matches there,
    [replaceExcludingUrlsAndPaths] on the piece and [replaceInText] on
    the whole text return an image of what stands before [w], the
    replacement string, and an image of what stands after [w].  With no
    backtick, no URL and no path in [x ++ w ++ y], the result of
    [replaceInText] is that of the pass. *)
Theorem default_matcher_ignores_word_boundaries (x w y replacement : text) :
  sameWordIgnoringCase w (lit "opencode") ->
  dollarFree replacement ->
  replaceOpencode (x ++ w ++ y) replacement None
  = replaceOpencode x replacement None ++ replacement
    ++ replaceOpencode y replacement None /\
  (forall (t : text) (i j : nat) (b : text),
     nth_error (split FENCE t) i = Some b -> i mod 2 = 0 ->
     nth_error (split TICK b) j = Some (x ++ w ++ y) -> j mod 2 = 0 ->
     (forall p,
        (Z.of_nat (length x) <= p < Z.of_nat (length x + length w))%Z ->
        ~ coveredBy (protectedRanges (x ++ w ++ y)) p) ->
     (exists A B,
        replaceExcludingUrlsAndPaths (x ++ w ++ y) replacement None
        = A ++ replacement ++ B /\
        Image replacement None x A /\ Image replacement None y B) /\
     (exists P Q A B,
        t = (P ++ x) ++ w ++ (y ++ Q) /\
        replaceInText t replacement None = A ++ replacement ++ B /\
        Image replacement None (P ++ x) A /\
        Image replacement None (y ++ Q) B)) /\
  (Forall (fun c => c <> "`") (x ++ w ++ y) ->
   protectedRanges (x ++ w ++ y) = [] ->
   replaceInText (x ++ w ++ y) replacement None
   = replaceOpencode x replacement None ++ replacement
     ++ replaceOpencode y replacement None).
Proof.
  intros Hw Hr.
  pose proof (replaceOpencode_occurrence x w y replacement Hw Hr) as Heq.
  split; [exact Heq|]. split.
  - intros t i j b Hb Hi Hg Hj Hfree.
    destruct (segment_occurrence x w y replacement
                (protectedRanges (x ++ w ++ y)) Hw Hr Hfree)
      as [A0 [B0 [Hseg [HA0 HB0]]]].
    split; [exists A0, B0; auto|].
    apply (segment_to_text t replacement None i j b (x ++ w ++ y) x w y
             A0 replacement B0); auto.
  - intros Hplain Hranges. rewrite replaceInText_plain by assumption. exact Heq.
Qed.

(** The hypotheses of [default_matcher_ignores_word_boundaries] at the
    word myOpenCodes, which stands after an inline code span and before
    a URL. *)
Lemma default_matcher_ignores_word_boundaries_witness :
  exists P Q A B,
    lit "a `b` myOpenCodes https://opencode.ai/x"
    = (P ++ lit " my") ++ lit "OpenCode" ++ (lit "s https://opencode.ai/x" ++ Q) /\
    replaceInText (lit "a `b` myOpenCodes https://opencode.ai/x")
      (lit "Renamer") None
    = A ++ lit "Renamer" ++ B /\
    Image (lit "Renamer") None (P ++ lit " my") A /\
    Image (lit "Renamer") None (lit "s https://opencode.ai/x" ++ Q) B.
Proof.
  destruct (default_matcher_ignores_word_boundaries
              (lit " my") (lit "OpenCode") (lit "s https://opencode.ai/x")
              (lit "Renamer") eq_refl
              ltac:(repeat constructor; discriminate)) as [_ [H _]].
  apply (H (lit "a `b` myOpenCodes https://opencode.ai/x") 0 2
           (lit "a `b` myOpenCodes https://opencode.ai/x")
           eq_refl eq_refl eq_refl eq_refl).
  intros p Hp [r [Hin Hc]]. vm_compute in Hin.
  destruct Hin as [<- | []]. unfold contains in Hc. simpl in Hc, Hp. lia.
Defined.

(** ** The single pass *)

(** C6 as amended.  One call replaces in a single pass over the match
    positions of the original text.  [replaceOpencode] on a text that is
    not empty returns the rendering of the one scan of the text: the
    text cut from left to right into the matches of the matcher and the
    code units it does not match, with one substitution of the
    replacement string for each match and every other code unit as it
    is; the empty text is returned as it is.  [replaceInText] cuts the
    text into consecutive pieces and copies each or has it scanned once
    in this way, so that nothing it has put out is scanned; every
    stretch between the protected ranges of a plain piece is handed
    over whole, and a text without backtick, URL or path is handed over
    as it is.  This holds for every replacement string, also one that
    contains the target word: hello open-code becomes hello NewOpenCode.
    (A second call scans its input afresh, and may replace inside what
    the first one inserted.) *)
Theorem single_pass_replacement (t replacement : text)
  (regex : option RegExp) :
  (t <> [] ->
   exists pieces,
     sourceOfPieces pieces = t /\
     scanned (IndexV2.matcherOf regex) pieces /\
     matchedInSource (IndexV2.matcherOf regex) pieces /\
     replaceOpencode t replacement regex = renderPieces replacement [] pieces /\
     forall pieces',
       sourceOfPieces pieces' = t ->
       scanned (IndexV2.matcherOf regex) pieces' -> pieces' = pieces) /\
  replaceOpencode [] replacement regex = [] /\
  SinglePass replacement (IndexV2.matcherOf regex) t
    (replaceInText t replacement regex) /\
  (forall (i j : nat) (b g : text) (a c : Z),
     nth_error (split FENCE t) i = Some b -> i mod 2 = 0 ->
     nth_error (split TICK b) j = Some g -> j mod 2 = 0 ->
     In (a, c) (gaps 0 (sanitizeRanges (protectedRanges g))
                  (Z.of_nat (length g))) ->
     exists P Q A B,
       t = P ++ slice g a c ++ Q /\
       replaceInText t replacement regex
       = A ++ replaceOpencode (slice g a c) replacement regex ++ B /\
       Image replacement regex P A /\ Image replacement regex Q B) /\
  (Forall (fun c => c <> "`") t -> protectedRanges t = [] ->
   replaceInText t replacement regex = replaceOpencode t replacement regex) /\
  replaceInText (lit "hello open-code") (lit "NewOpenCode")
    (Some VARIANT_REGEX) = lit "hello NewOpenCode".
Proof.
  split; [|split; [reflexivity|split; [|split; [|split]]]].
  - intros Ht.
    destruct (replaceOpencode_scanned t replacement regex Ht)
      as [ps [Hsrc [Hs Hout]]].
    exists ps. split; [exact Hsrc|]. split; [exact Hs|].
    split; [apply (scanned_matched _ (length ps)); [lia | exact Hs]|].
    split; [exact Hout|].
    intros ps' Hsrc' Hs'.
    apply (scanned_unique (IndexV2.matcherOf regex) (length t));
      [rewrite Hsrc'; lia | exact Hs' | exact Hs | congruence].
  - apply Image_SinglePass, replaceInText_image.
  - intros i j b g a c Hb Hi Hg Hj Hin.
    destruct (replaceOutsideRanges_gap g replacement (protectedRanges g) regex
                a c Hin) as [Ha [Hac [A0 [B0 [Heq [HA0 HB0]]]]]].
    assert (Hcut : g = firstn (Z.to_nat a) g ++ slice g a c
                       ++ skipn (Z.to_nat c) g).
    { rewrite <- (skipn_slice g a c) by lia. symmetry. apply firstn_skipn. }
    destruct (segment_to_text t replacement regex i j b g _ _ _ A0
                (replaceOpencode (slice g a c) replacement regex) B0
                Hb Hi Hg Hj Hcut Heq HA0 HB0) as [P [Q [A [B [Ht [Ho [HA HB]]]]]]].
    exists (P ++ firstn (Z.to_nat a) g), (skipn (Z.to_nat c) g ++ Q), A, B.
    auto.
  - intros Hplain Hranges. apply replaceInText_plain; assumption.
  - vm_compute. reflexivity.
Qed.
